(** * Permission-graph reconciliation of the Metabase collection graph

    A shallow embedding of [internal/provider/collection_graph_resource.go]:
    the resource tree built from the flat collection listing, the name
    matcher, the ownership resolver, the permission expander
    ([makeCollectionPermissionsGraphFromModel]), the state filter
    ([filterRecursivePermissions]) and the Create / Read / Update
    handlers, followed by the properties of the specification.

    Conventions.
    - Go's [int] and [int64] are modelled as [Z]; the 64-bit range is
      observable only in [strconv.Atoi], which checks it, and the
      properties that read a group key back assume the group ids in range.
    - Go strings are [string] (byte sequences).
    - [map[string]map[string]Level] is a [gmap string (gmap string string)],
      [map[int]CollectionInfo] a [gmap Z CollectionInfo], [map[int64]bool]
      with only [true] values a [gset Z].
    - Go leaves the iteration order of [range] over a map unspecified.  The
      three loops of the expander over the collections, and their inner
      loops over the groups, take their orders from a [Schedule]; every
      order Go may choose is the order of some schedule.  The filter only
      builds a set of keys and enumerates the map canonically. *)

From Stdlib Require Import ZArith Lia Ascii String.
From stdpp Require Import base gmap strings list fin_maps pretty.

Open Scope string_scope.
Open Scope list_scope.
Open Scope Z_scope.

(** ** Terraform attribute values *)

(** A [types.Int64], [types.String] or [types.Bool] of the plugin framework
    is null, unknown or a known value. *)
Inductive attr (A : Type) : Type :=
| Null
| Unknown
| Known (a : A).
Arguments Null {A}.
Arguments Unknown {A}.
Arguments Known {A} a.

Definition IsNull {A} (v : attr A) : bool :=
  match v with Null => true | _ => false end.

Definition IsUnknown {A} (v : attr A) : bool :=
  match v with Unknown => true | _ => false end.

(** [ValueInt64], [ValueString] and [ValueBool] return the zero value of the
    type unless the attribute is known. *)
Definition ValueInt64 (v : attr Z) : Z :=
  match v with Known z => z | _ => 0 end.

Definition ValueString (v : attr string) : string :=
  match v with Known s => s | _ => "" end.

Definition ValueBool (v : attr bool) : bool :=
  match v with Known b => b | _ => false end.

(** [Equal] on two attribute values of one type: same state and, when
    known, same value. *)
Definition attr_Equal {A} (eqb : A → A → bool) (v w : attr A) : bool :=
  match v, w with
  | Null, Null => true
  | Unknown, Unknown => true
  | Known a, Known b => eqb a b
  | _, _ => false
  end.

(** ** The Go string functions used by the engine *)

Definition slash : ascii := "/"%char.

(** [strings.HasPrefix s p]. *)
Definition HasPrefix (s p : string) : bool := String.prefix p s.

(** [strings.TrimPrefix s p]. *)
Fixpoint dropn (n : nat) (s : string) : string :=
  match n, s with
  | O, _ => s
  | S n', String _ r => dropn n' r
  | S _, EmptyString => EmptyString
  end.

Definition TrimPrefix (s p : string) : string :=
  if HasPrefix s p then dropn (String.length p) s else s.

(** [strings.Split s sep] for a one-byte separator: always at least one
    part, [n + 1] parts for [n] separators. *)
Fixpoint Split (s : string) (sep : ascii) : list string :=
  match s with
  | EmptyString => [EmptyString]
  | String a r =>
      if Ascii.eqb a sep then EmptyString :: Split r sep
      else match Split r sep with
           | h :: t => String a h :: t
           | [] => [String a EmptyString]
           end
  end.

(** [strings.Trim s cutset] for a one-byte cutset. *)
Fixpoint TrimLeft (s : string) (c : ascii) : string :=
  match s with
  | EmptyString => EmptyString
  | String a r => if Ascii.eqb a c then TrimLeft r c else s
  end.

Fixpoint TrimRight (s : string) (c : ascii) : string :=
  match s with
  | EmptyString => EmptyString
  | String a r =>
      match TrimRight r c with
      | EmptyString => if Ascii.eqb a c then EmptyString else String a EmptyString
      | r' => String a r'
      end
  end.

Definition Trim (s : string) (c : ascii) : string := TrimRight (TrimLeft s c) c.

(** [strings.ReplaceAll s old ""] for a one-byte [old]. *)
Fixpoint RemoveAll (s : string) (c : ascii) : string :=
  match s with
  | EmptyString => EmptyString
  | String a r => if Ascii.eqb a c then RemoveAll r c else String a (RemoveAll r c)
  end.

(** ** strconv *)

(** [strconv.Itoa] and [strconv.FormatInt _ 10]: the decimal digits, with a
    leading minus sign for a negative number. *)
Definition Itoa (z : Z) : string := pretty z.
Definition FormatInt (z : Z) : string := pretty z.

Definition digit_of (a : ascii) : option Z :=
  let n := Z.of_N (N_of_ascii a) in
  if (48 <=? n) && (n <=? 57) then Some (n - 48) else None.

Fixpoint parse_digits (acc : Z) (s : string) : option Z :=
  match s with
  | EmptyString => Some acc
  | String a r =>
      match digit_of a with
      | Some d => parse_digits (acc * 10 + d) r
      | None => None
      end
  end.

Definition in_int64 (z : Z) : bool :=
  (- 2 ^ 63 <=? z) && (z <=? 2 ^ 63 - 1).

(** [strconv.Atoi]: an optional sign followed by at least one decimal
    digit; a value outside the 64-bit range is an error. *)
Definition Atoi (s : string) : option Z :=
  match s with
  | EmptyString => None
  | String a r =>
      let '(neg, ds) :=
        if Ascii.eqb a "-"%char then (true, r)
        else if Ascii.eqb a "+"%char then (false, r)
        else (false, s) in
      match ds with
      | EmptyString => None
      | _ =>
          match parse_digits 0 ds with
          | Some n =>
              let v := if neg then - n else n in
              if in_int64 v then Some v else None
          | None => None
          end
      end
  end.

(** ** Name matcher *)

(** The Unicode tables of Go's [strings] and [unicode] packages are outside
    the repository; they are taken as an interface. *)
Class Unicode := {
  rune : Type;
  (** [for _, r := range s]: the runes of a string. *)
  runes : string → list rune;
  (** [strings.Builder.WriteRune]. *)
  WriteRune : rune → string;
  (** [strings.ToLower]. *)
  ToLower : string → string;
  IsLetter : rune → bool;
  IsDigit : rune → bool
}.

(** The ASCII fragment of the tables. *)
Definition ascii_lower (a : ascii) : ascii :=
  let n := N_of_ascii a in
  if ((65 <=? n) && (n <=? 90))%N then ascii_of_N (n + 32) else a.

Fixpoint map_string (f : ascii → ascii) (s : string) : string :=
  match s with
  | EmptyString => EmptyString
  | String a r => String (f a) (map_string f r)
  end.

Definition ascii_is_letter (a : ascii) : bool :=
  let n := N_of_ascii a in
  (((65 <=? n) && (n <=? 90)) || ((97 <=? n) && (n <=? 122)))%N.

Definition ascii_is_digit (a : ascii) : bool :=
  let n := N_of_ascii a in ((48 <=? n) && (n <=? 57))%N.

Definition ascii_unicode : Unicode := {|
  rune := ascii;
  runes := list_ascii_of_string;
  WriteRune := fun a => String a EmptyString;
  ToLower := map_string ascii_lower;
  IsLetter := ascii_is_letter;
  IsDigit := ascii_is_digit
|}.

Definition normalizeName `{Unicode} (name : string) : string :=
  let normalized := ToLower name in
  let normalized := RemoveAll normalized " "%char in
  let normalized := RemoveAll normalized "_"%char in
  let normalized := RemoveAll normalized "-"%char in
  foldr (fun r acc => if IsLetter r || IsDigit r then WriteRune r +:+ acc else acc)
        EmptyString (runes normalized).

(** ** Data model *)

Module metabase.

(** [Collection.Id] is a union: an integer or a string (the root
    collection has the id ["root"]). *)
Inductive Collection_Id :=
| IdInt (n : Z)
| IdString (s : string).

(** The fields of a listed collection that the engine reads. *)
Record Collection := {
  Id : Collection_Id;
  Name : string;
  Location : option string;
  PersonalOwnerId : option Z
}.

Definition CollectionPermissionLevelNone : string := "none".
Definition CollectionPermissionLevelRead : string := "read".
Definition CollectionPermissionLevelWrite : string := "write".

(** [CollectionPermissionsGraph]: [Groups] maps a group id (as a string) to
    the map from collection id to permission level. *)
Record CollectionPermissionsGraph := {
  Revision : Z;
  Groups : gmap string (gmap string string)
}.

End metabase.

Abbreviation Graph := (gmap string (gmap string string)).

(** The model for a single edge in the permissions graph. *)
Record CollectionPermission := {
  Group : attr Z;
  Collection : attr string;
  Permission : attr string
}.

(** A [types.Set] of edges, in the order of its elements. *)
Abbreviation PermissionSet := (attr (list CollectionPermission)).

Definition Elements {A} (s : attr (list A)) : list A :=
  match s with Known l => l | _ => [] end.

Record CollectionGraphResourceModel := {
  Revision : attr Z;
  IgnoredGroups : attr (list Z);
  Permissions : PermissionSet;
  ApplyChildCollectionsPermissions : attr bool
}.

Record CollectionInfo := {
  ID : Z;
  ParentID : Z;
  Name : string;
  Location : string
}.

(** A diagnostics error: summary and detail. *)
Inductive result (A : Type) : Type :=
| Ok (a : A)
| Error (summary detail : string).
Arguments Ok {A} a.
Arguments Error {A} summary detail.

(** ** Resource tree builder: the loop of [fetchChildCollections] *)

(** The parent id is the last element of the location path; [-1] when it
    does not parse. *)
Definition parentIdOfLocation (location : string) : Z :=
  let locationParts := Split (Trim location slash) slash in
  match last locationParts with
  | Some lastPart =>
      match Atoi lastPart with
      | Some parsedParent => parsedParent
      | None => -1
      end
  | None => -1
  end.

Definition addCollection (childCollections : gmap Z CollectionInfo)
    (collection : metabase.Collection) : gmap Z CollectionInfo :=
  match metabase.PersonalOwnerId collection with
  | Some _ => childCollections
  | None =>
      let location := default "" (metabase.Location collection) in
      if String.eqb location "" || String.eqb location "/" then childCollections
      else
        let parentId := parentIdOfLocation location in
        if parentId <? 0 then childCollections
        else
          match metabase.Id collection with
          | metabase.IdInt collectionIdInt =>
              <[collectionIdInt :=
                  {| ID := collectionIdInt; ParentID := parentId;
                     Name := metabase.Name collection; Location := location |}]>
                childCollections
          | metabase.IdString collectionIdStr =>
              if String.eqb collectionIdStr "root" then childCollections
              else
                match Atoi collectionIdStr with
                | Some parsedId =>
                    <[parsedId :=
                        {| ID := parsedId; ParentID := parentId;
                           Name := metabase.Name collection; Location := location |}]>
                      childCollections
                | None => childCollections
                end
          end
  end.

Definition buildChildCollections (collections : list metabase.Collection)
    : gmap Z CollectionInfo :=
  foldl addCollection ∅ collections.

(** ** Permission expander: the pure part of
       [makeCollectionPermissionsGraphFromModel] *)

(** One iteration of the loop creating the permissions map from the plan. *)
Definition seedStep (groups : Graph) (p : CollectionPermission) : result Graph :=
  if IsNull (Group p) then Error "Unexpected null group in permission." ""
  else if IsNull (Collection p) then Error "Unexpected null collection in permission." ""
  else
    let groupId := FormatInt (ValueInt64 (Group p)) in
    let collectionId := ValueString (Collection p) in
    let colPermMap := default ∅ (groups !! groupId) in
    match colPermMap !! collectionId with
    | Some _ =>
        Error "Found duplicate permission definition."
              ("Group ID: " +:+ groupId +:+ ", Collection ID: " +:+ collectionId +:+ ".")
    | None =>
        Ok (<[groupId := <[collectionId := ValueString (Permission p)]> colPermMap]> groups)
    end.

Fixpoint seedGroups (groups : Graph) (permissions : list CollectionPermission)
    : result Graph :=
  match permissions with
  | [] => Ok groups
  | p :: rest =>
      match seedStep groups p with
      | Ok groups' => seedGroups groups' rest
      | Error s d => Error s d
      end
  end.

(** All unique group ids of the permissions: the set, and the list in order
    of first occurrence. *)
Definition addGroupId (acc : gset Z * list Z) (p : CollectionPermission)
    : gset Z * list Z :=
  if IsNull (Group p) then acc
  else
    let groupId := ValueInt64 (Group p) in
    if bool_decide (groupId ∈ acc.1) then acc
    else ({[groupId]} ∪ acc.1, (acc.2 ++ [groupId])%list).

Definition collectGroupIds (permissions : list CollectionPermission)
    : gset Z * list Z :=
  foldl addGroupId (∅, []) permissions.

Definition groupIdsSetOf (permissions : list CollectionPermission) : gset Z :=
  (collectGroupIds permissions).1.

(** The order in which one [range groupIdsSet] yields the groups.  Go does
    not fix it; [order] lists the groups in the order of that run, and the
    groups it does not mention follow. *)
Definition rangeGroups (order : list Z) (groupIdsSet : gset Z) : list Z :=
  (List.filter (fun g => bool_decide (g ∈ groupIdsSet)) order
   ++ List.filter (fun g => negb (bool_decide (g ∈ order))) (elements groupIdsSet))%list.

(** The order in which one [range childCollectionsMap] yields the entries:
    the keys that [order] lists first, in that order, then the others. *)
Definition rangeMap {A} (order : list Z) (m : gmap Z A) : list (Z * A) :=
  (omap (fun k => (fun a => (k, a)) <$> m !! k) order
   ++ List.filter (fun entry => negb (bool_decide (entry.1 ∈ order))) (map_to_list m))%list.

(** The iteration orders of one run of the expander: for each of its three
    loops over the collections, the order of the collections and, at each
    collection, the order of the groups. *)
Record Schedule := {
  ownershipCollections : list Z;
  ownershipGroups : Z → list Z;
  groupCollections : list Z;
  groupCollectionGroups : Z → list Z;
  recursiveCollections : list Z;
  recursiveGroups : Z → list Z
}.

Definition isAnchor (parentId : Z) : bool := (parentId =? 5) || (parentId =? 4).

Definition isExplicitPermission (permissions : list CollectionPermission)
    (groupId : Z) (collectionIdStr : string) : bool :=
  existsb (fun p =>
      negb (IsNull (Group p)) && negb (IsNull (Collection p))
      && (ValueInt64 (Group p) =? groupId)
      && String.eqb (ValueString (Collection p)) collectionIdStr)
    permissions.

Definition isChildCollectionInPlan (permissions : list CollectionPermission)
    (collectionIdStr : string) : bool :=
  existsb (fun p =>
      negb (IsNull (Group p)) && negb (IsNull (Collection p))
      && String.eqb (ValueString (Collection p)) collectionIdStr)
    permissions.

(** [colPermMap, ok := groups[g]; if !ok { groups[g] = make(...) }]. *)
Definition ensureGroup (groupIdStr : string) (groups : Graph) : Graph :=
  match groups !! groupIdStr with
  | Some _ => groups
  | None => <[groupIdStr := ∅]> groups
  end.

(** [colPermMap[c] = permission], [colPermMap] being the map stored at
    [groups[g]]. *)
Definition setPermission (groupIdStr collectionIdStr permission : string)
    (groups : Graph) : Graph :=
  <[groupIdStr := <[collectionIdStr := permission]> (default ∅ (groups !! groupIdStr))]> groups.

Definition cell (groups : Graph) (groupIdStr collectionIdStr : string) : option string :=
  groups !! groupIdStr ≫= (.!! collectionIdStr).

Section Expander.
Context `{Unicode}.

(** Whether the normalized name of the group equals the normalized name of
    the collection; [false] when the group's name is not known. *)
Definition nameMatches (groupNames : gmap Z string) (collectionName : string)
    (groupId : Z) : bool :=
  match groupNames !! groupId with
  | Some groupName => String.eqb (normalizeName groupName) (normalizeName collectionName)
  | None => false
  end.

(** Ownership resolver: the first group, in the order of the run, whose name
    matches the name of a direct child of Public (5) or Draft (4) owns that
    child.  ([groupCollections] is written by the same loop and never read;
    it is left out, as is [parentPermissions].) *)
Definition ownershipStep (groupNames : gmap Z string) (order : Z → list Z)
    (groupIdsSet : gset Z) (collectionIdToGroupId : gmap Z Z)
    (entry : Z * CollectionInfo) : gmap Z Z :=
  let '(childCollectionId, collectionInfo) := entry in
  if isAnchor (ParentID collectionInfo) then
    match List.find (nameMatches groupNames (Name collectionInfo))
                    (rangeGroups (order childCollectionId) groupIdsSet) with
    | Some groupId => <[childCollectionId := groupId]> collectionIdToGroupId
    | None => collectionIdToGroupId
    end
  else collectionIdToGroupId.

Definition resolveOwnership (groupNames : gmap Z string) (order : Z → list Z)
    (groupIdsSet : gset Z) (childCollections : list (Z * CollectionInfo)) : gmap Z Z :=
  foldl (ownershipStep groupNames order groupIdsSet) ∅ childCollections.

(** Step 3: one group at one direct child of Public or Draft. *)
Definition groupCollectionStep (permissions : list CollectionPermission)
    (groupNames : gmap Z string) (childCollectionId : Z) (collectionInfo : CollectionInfo)
    (groups : Graph) (groupId : Z) : Graph :=
  let groupIdStr := FormatInt groupId in
  let childCollectionIdStr := Itoa childCollectionId in
  let groups := ensureGroup groupIdStr groups in
  if isExplicitPermission permissions groupId childCollectionIdStr then groups
  else
    let permission :=
      if nameMatches groupNames (Name collectionInfo) groupId
      then metabase.CollectionPermissionLevelWrite
      else metabase.CollectionPermissionLevelRead in
    match cell groups groupIdStr childCollectionIdStr with
    | None => setPermission groupIdStr childCollectionIdStr permission groups
    | Some existingPerm =>
        if String.eqb existingPerm metabase.CollectionPermissionLevelRead
           && String.eqb permission metabase.CollectionPermissionLevelWrite
        then setPermission groupIdStr childCollectionIdStr permission groups
        else groups
    end.

Definition groupCollectionsEntry (permissions : list CollectionPermission)
    (groupNames : gmap Z string) (order : Z → list Z) (groupIdsSet : gset Z)
    (groups : Graph) (entry : Z * CollectionInfo) : Graph :=
  let '(childCollectionId, collectionInfo) := entry in
  if isAnchor (ParentID collectionInfo) then
    foldl (groupCollectionStep permissions groupNames childCollectionId collectionInfo)
          groups (rangeGroups (order childCollectionId) groupIdsSet)
  else groups.

Definition applyGroupCollections (permissions : list CollectionPermission)
    (groupNames : gmap Z string) (order : Z → list Z) (groupIdsSet : gset Z)
    (childCollections : list (Z * CollectionInfo)) (groups : Graph) : Graph :=
  foldl (groupCollectionsEntry permissions groupNames order groupIdsSet)
        groups childCollections.

(** Step 4: the group collection a location lies under, [-1] if none. *)
Definition firstPartId (parts : list string) : Z :=
  match parts with
  | part0 :: _ =>
      if String.eqb part0 "" then -1
      else match Atoi part0 with
           | Some parsedId => parsedId
           | None => -1
           end
  | [] => -1
  end.

Definition groupCollectionIdFromLocation (location : string) : Z :=
  if HasPrefix location "/5/" then firstPartId (Split (TrimPrefix location "/5/") slash)
  else if HasPrefix location "/4/" then firstPartId (Split (TrimPrefix location "/4/") slash)
  else -1.

Definition recursiveStep (permissions : list CollectionPermission)
    (owningGroupId : Z) (childCollectionId : Z) (groups : Graph) (groupId : Z) : Graph :=
  let groupIdStr := FormatInt groupId in
  let childCollectionIdStr := Itoa childCollectionId in
  let groups := ensureGroup groupIdStr groups in
  if isExplicitPermission permissions groupId childCollectionIdStr then groups
  else
    let permission :=
      if groupId =? owningGroupId
      then metabase.CollectionPermissionLevelWrite
      else metabase.CollectionPermissionLevelRead in
    setPermission groupIdStr childCollectionIdStr permission groups.

Definition recursiveEntry (permissions : list CollectionPermission)
    (collectionIdToGroupId : gmap Z Z) (order : Z → list Z) (groupIdsSet : gset Z)
    (groups : Graph) (entry : Z * CollectionInfo) : Graph :=
  let '(childCollectionId, collectionInfo) := entry in
  let location := Location collectionInfo in
  if String.eqb location "" then groups
  else
    let fromLocation := groupCollectionIdFromLocation location in
    if fromLocation <? 0 then groups
    else
      match collectionIdToGroupId !! fromLocation with
      | None => groups
      | Some owningGroupId =>
          if isChildCollectionInPlan permissions (Itoa childCollectionId) then groups
          else
            foldl (recursiveStep permissions owningGroupId childCollectionId)
                  groups (rangeGroups (order childCollectionId) groupIdsSet)
      end.

Definition applyRecursive (permissions : list CollectionPermission)
    (collectionIdToGroupId : gmap Z Z) (order : Z → list Z) (groupIdsSet : gset Z)
    (childCollections : list (Z * CollectionInfo)) (groups : Graph) : Graph :=
  foldl (recursiveEntry permissions collectionIdToGroupId order groupIdsSet)
        groups childCollections.

(** Steps 3 and 4 on the seeded map. *)
Definition ownershipOf (permissions : list CollectionPermission)
    (childCollectionsMap : gmap Z CollectionInfo) (groupNames : gmap Z string)
    (order : Schedule) : gmap Z Z :=
  resolveOwnership groupNames (ownershipGroups order) (groupIdsSetOf permissions)
    (rangeMap (ownershipCollections order) childCollectionsMap).

Definition applyChildCollections (permissions : list CollectionPermission)
    (childCollectionsMap : gmap Z CollectionInfo) (groupNames : gmap Z string)
    (order : Schedule) (groups : Graph) : Graph :=
  let groupIdsSet := groupIdsSetOf permissions in
  let collectionIdToGroupId :=
    ownershipOf permissions childCollectionsMap groupNames order in
  let groups :=
    applyGroupCollections permissions groupNames (groupCollectionGroups order) groupIdsSet
      (rangeMap (groupCollections order) childCollectionsMap) groups in
  applyRecursive permissions collectionIdToGroupId (recursiveGroups order) groupIdsSet
    (rangeMap (recursiveCollections order) childCollectionsMap) groups.

(** [expand]: the permissions map that [makeCollectionPermissionsGraphFromModel]
    builds from the explicit edges, the resource tree and the group names. *)
Definition expand (permissions : list CollectionPermission)
    (childCollectionsMap : gmap Z CollectionInfo) (groupNames : gmap Z string)
    (order : Schedule) (applyChildPermissions : bool) : result Graph :=
  match seedGroups ∅ permissions with
  | Error s d => Error s d
  | Ok groups =>
      if applyChildPermissions
      then Ok (applyChildCollections permissions childCollectionsMap groupNames order groups)
      else Ok groups
  end.

End Expander.

(** ** State filter: the pure part of [filterRecursivePermissions] *)

Definition isNestedCollection (collectionInfo : CollectionInfo) : bool :=
  let location := Location collectionInfo in
  if ParentID collectionInfo =? 0 then false
  else if HasPrefix location "/5/" || HasPrefix location "/4/" then
    let parts := Split (Trim location slash) slash in
    bool_decide (1 < length parts)%nat
  else false.

Definition childCollectionIdsOf (childCollectionsMap : gmap Z CollectionInfo) : gset string :=
  foldl (fun (ids : gset string) (entry : Z * CollectionInfo) =>
           if isNestedCollection entry.2 then {[Itoa entry.1]} ∪ ids else ids)
        ∅ (map_to_list childCollectionsMap).

Definition keepPermission (childCollectionIds : gset string) (perm : CollectionPermission) : bool :=
  if negb (IsNull (Collection perm))
  then negb (bool_decide (ValueString (Collection perm) ∈ childCollectionIds))
  else true.

Definition filterPermissions (permissions : PermissionSet)
    (childCollectionsMap : gmap Z CollectionInfo) : PermissionSet :=
  Known (List.filter (keepPermission (childCollectionIdsOf childCollectionsMap))
                     (Elements permissions)).

(** ** Graph reconciler: the network calls and the handlers *)

(** The requests the engine sends to the server. *)
Inductive Request :=
| GetCollectionPermissionsGraph
| ListCollections
| GetPermissionsGroup (groupId : Z)
| ReplaceCollectionPermissionsGraph (body : metabase.CollectionPermissionsGraph).

Definition isWrite (r : Request) : bool :=
  match r with ReplaceCollectionPermissionsGraph _ => true | _ => false end.

(** The REST client.  Each answer may depend on the requests sent before.
    [None] stands for a transport error, a status outside the accepted set
    or a body that does not decode.

    Modelled from the spec: [checkMetabaseResponse] and the generated client
    are not in the sources; any failed or non-2xx read or write is a fatal
    error of the operation, and a failed group lookup is not. *)
Record Client := {
  getGraph : list Request → option metabase.CollectionPermissionsGraph;
  listCollections : list Request → option (list metabase.Collection);
  getGroup : list Request → Z → option string;
  replaceGraph : list Request → metabase.CollectionPermissionsGraph →
                 option metabase.CollectionPermissionsGraph
}.

(** A computation that sends requests: from the requests sent so far to a
    result or a diagnostics error, and the requests sent by the end. *)
Definition M (A : Type) : Type := list Request → result A * list Request.

Definition ret {A} (a : A) : M A := fun trace => (Ok a, trace).

Definition fail {A} (summary detail : string) : M A :=
  fun trace => (Error summary detail, trace).

Definition bind {A B} (m : M A) (k : A → M B) : M B :=
  fun trace =>
    match m trace with
    | (Ok a, trace') => k a trace'
    | (Error s d, trace') => (Error s d, trace')
    end.

Notation "'let*' x := m 'in' k" := (bind m (fun x => k))
  (at level 10, x name, m at level 100, k at level 200).

Definition lift {A} (r : result A) : M A := fun trace => (r, trace).

(** One request: the answer is computed from the requests sent before it,
    and the request is recorded. *)
Definition send {A} (req : Request) (answer : list Request → option A)
    (summary : string) : M A :=
  fun trace =>
    (match answer trace with
     | Some a => Ok a
     | None => Error summary ""
     end, (trace ++ [req])%list).

Definition fetchChildCollections (client : Client) : M (gmap Z CollectionInfo) :=
  let* collections := send ListCollections (listCollections client) "Failed to list collections" in
  ret (buildChildCollections collections).

(** [fetchGroupNames]: one lookup per group id, in order; a failed lookup
    only leaves the group without a name. *)
Fixpoint fetchGroupNames (client : Client) (groupIds : list Z)
    (groupNames : gmap Z string) : M (gmap Z string) :=
  match groupIds with
  | [] => ret groupNames
  | groupId :: rest =>
      fun trace =>
        let groupNames' :=
          match getGroup client trace groupId with
          | Some name => <[groupId := name]> groupNames
          | None => groupNames
          end in
        fetchGroupNames client rest groupNames' (trace ++ [GetPermissionsGroup groupId])%list
  end.

(** [Permissions.ElementsAs]: the elements of a known set; a null set has
    none and an unknown set cannot be converted. *)
Definition ElementsAs (s : PermissionSet) : result (list CollectionPermission) :=
  match s with
  | Known l => Ok l
  | Null => Ok []
  | Unknown => Error "Value Conversion Error" ""
  end.

Global Instance attr_eq_dec {A} `{EqDecision A} : EqDecision (attr A).
Proof. solve_decision. Defined.

Global Instance CollectionPermission_eq_dec : EqDecision CollectionPermission.
Proof. solve_decision. Defined.

(** [Equal] on two sets: the same state and, when known, the same number of
    elements, each element of the first being an element of the second. *)
Definition Set_Equal (s o : PermissionSet) : bool :=
  match s, o with
  | Null, Null => true
  | Unknown, Unknown => true
  | Known elements, Known others =>
      (length elements =? length others)%nat
      && forallb (fun elem => bool_decide (elem ∈ others)) elements
  | _, _ => false
  end.

Section Reconciler.
Context `{Unicode}.

Definition makeCollectionPermissionsGraphFromModel
    (data : CollectionGraphResourceModel) (state : option CollectionGraphResourceModel)
    (client : option Client) (order : Schedule)
    : M metabase.CollectionPermissionsGraph :=
  let revision := ValueInt64 (Revision data) in
  let* permissions := lift (ElementsAs (Permissions data)) in
  let* groups := lift (seedGroups ∅ permissions) in
  let applyChildPermissions :=
    if negb (IsNull (ApplyChildCollectionsPermissions data))
       && negb (IsUnknown (ApplyChildCollectionsPermissions data))
    then ValueBool (ApplyChildCollectionsPermissions data)
    else true in
  let* groups :=
    match client with
    | Some client =>
        if applyChildPermissions then
          let* childCollectionsMap := fetchChildCollections client in
          let* groupNames := fetchGroupNames client (collectGroupIds permissions).2 ∅ in
          ret (applyChildCollections permissions childCollectionsMap groupNames order groups)
        else ret groups
    | None => ret groups
    end in
  let revision :=
    match state with
    | Some state => ValueInt64 (Revision state)
    | None => revision
    end in
  ret {| metabase.Revision := revision; metabase.Groups := groups |}.

Definition withDefaultFlag (data : CollectionGraphResourceModel) : CollectionGraphResourceModel :=
  if IsNull (ApplyChildCollectionsPermissions data)
     || IsUnknown (ApplyChildCollectionsPermissions data)
  then {| Revision := Revision data; IgnoredGroups := IgnoredGroups data;
          Permissions := Permissions data;
          ApplyChildCollectionsPermissions := Known true |}
  else data.

Definition withRevision (data : CollectionGraphResourceModel) (revision : attr Z)
    : CollectionGraphResourceModel :=
  {| Revision := revision; IgnoredGroups := IgnoredGroups data;
     Permissions := Permissions data;
     ApplyChildCollectionsPermissions := ApplyChildCollectionsPermissions data |}.

(** [Create]: from the plan to the new state. *)
Definition Create (client : Client) (order : Schedule)
    (plan : CollectionGraphResourceModel) : M CollectionGraphResourceModel :=
  let data := withDefaultFlag plan in
  let* getResp := send GetCollectionPermissionsGraph (getGraph client) "read collection graph" in
  let currentRevision := metabase.Revision getResp in
  let data := withRevision data (Known currentRevision) in
  let tempState :=
    {| Revision := Known currentRevision; IgnoredGroups := Null;
       Permissions := Null; ApplyChildCollectionsPermissions := Null |} in
  let* body := makeCollectionPermissionsGraphFromModel data (Some tempState) (Some client) order in
  let* updateResp := send (ReplaceCollectionPermissionsGraph body) (fun trace => replaceGraph client trace body)
                    "update collection graph" in
  ret (withRevision data (Known (metabase.Revision updateResp))).

(** [Read]: from the prior state to the refreshed state. *)
Definition Read (client : Client) (prior : CollectionGraphResourceModel)
    : M CollectionGraphResourceModel :=
  let data := withDefaultFlag prior in
  let* childCollectionsMap := fetchChildCollections client in
  let filteredPermissions := filterPermissions (Permissions data) childCollectionsMap in
  let data :=
    {| Revision := Revision data; IgnoredGroups := IgnoredGroups data;
       Permissions := filteredPermissions;
       ApplyChildCollectionsPermissions := ApplyChildCollectionsPermissions data |} in
  let* getResp := send GetCollectionPermissionsGraph (getGraph client) "read collection graph" in
  ret (withRevision data (Known (metabase.Revision getResp))).

Definition permissionsChanged (data state : CollectionGraphResourceModel) : bool :=
  negb (Set_Equal (Permissions data) (Permissions state)).

Definition flagChanged (data state : CollectionGraphResourceModel) : bool :=
  negb (IsNull (ApplyChildCollectionsPermissions data))
  && negb (IsNull (ApplyChildCollectionsPermissions state))
  && negb (attr_Equal Bool.eqb (ApplyChildCollectionsPermissions data)
                               (ApplyChildCollectionsPermissions state)).

(** [Update]: from the plan and the prior state to the new state. *)
Definition Update (client : Client) (order : Schedule)
    (plan state : CollectionGraphResourceModel) : M CollectionGraphResourceModel :=
  let data := withDefaultFlag plan in
  if permissionsChanged data state || flagChanged data state then
    let* body := makeCollectionPermissionsGraphFromModel data (Some state) (Some client) order in
    let* updateResp := send (ReplaceCollectionPermissionsGraph body)
                            (fun trace => replaceGraph client trace body)
                            "update collection graph" in
    ret (withRevision data (Known (metabase.Revision updateResp)))
  else
    ret (withRevision data (Revision state)).

End Reconciler.

(** ** From the graph back to edges *)

(** Makes a single permission (edge) object; the group id is a key of a
    JSON map and must be a decimal integer. *)
Definition makePermissionObjectFromPermission (groupId colId p : string)
    : result CollectionPermission :=
  match Atoi groupId with
  | None => Error "Could not convert group ID to int." ""
  | Some groupIdInt =>
      Ok {| Group := Known groupIdInt; Collection := Known colId; Permission := Known p |}
  end.

(** The edge objects of all entries of a graph, group by group.  (An entry
    whose group key is not a decimal integer has no edge object.) *)
Definition groupPermissions (entry : string * gmap string string) : list CollectionPermission :=
  omap (fun cp : string * string =>
          match makePermissionObjectFromPermission entry.1 cp.1 cp.2 with
          | Ok permissionObject => Some permissionObject
          | Error _ _ => None
          end)
       (map_to_list entry.2).

Definition graphPermissions (groups : Graph) : list CollectionPermission :=
  map_to_list groups ≫= groupPermissions.

(** The edge a permission object stands for. *)
Definition edgeOf (p : CollectionPermission) : Z * string * string :=
  (ValueInt64 (Group p), ValueString (Collection p), ValueString (Permission p)).

(** ** Vocabulary of the statements *)

(** The key of an explicit edge in the permissions map. *)
Definition keyOf (p : CollectionPermission) : string * string :=
  (FormatInt (ValueInt64 (Group p)), ValueString (Collection p)).

Definition notNull (p : CollectionPermission) : Prop :=
  IsNull (Group p) = false ∧ IsNull (Collection p) = false.

(** No group of the map has an empty collection map. *)
Definition noEmptyGroup (groups : Graph) : Prop :=
  ∀ gs m, groups !! gs = Some m → m ≠ ∅.

(** Every group key of the map is the decimal form of a 64-bit integer. *)
Definition wellKeyed (groups : Graph) : Prop :=
  ∀ gs, is_Some (groups !! gs) → ∃ g, in_int64 g = true ∧ gs = FormatInt g.

(** A listed collection that the tree builder leaves out: a personal
    collection, a collection at the root (location empty or ["/"]), or one
    whose last path element does not parse as an integer. *)
Definition unmanaged (collection : metabase.Collection) : Prop :=
  is_Some (metabase.PersonalOwnerId collection)
  ∨ default "" (metabase.Location collection) = ""
  ∨ default "" (metabase.Location collection) = "/"
  ∨ ∃ lastPart,
      last (Split (Trim (default "" (metabase.Location collection)) slash) slash) = Some lastPart
      ∧ Atoi lastPart = None.

(** The integer key under which a listed collection is stored, if any. *)
Definition collectionKey (collection : metabase.Collection) : option Z :=
  match metabase.Id collection with
  | metabase.IdInt n => Some n
  | metabase.IdString s => if String.eqb s "root" then None else Atoi s
  end.

(** The level step 3 derives for a group at a direct child of Public or
    Draft. *)
Definition derivedLevel `{Unicode} (groupNames : gmap Z string)
    (collectionInfo : CollectionInfo) (groupId : Z) : string :=
  if nameMatches groupNames (Name collectionInfo) groupId
  then metabase.CollectionPermissionLevelWrite
  else metabase.CollectionPermissionLevelRead.

(** What one step of either loop may do to the map: nothing but create the
    group's entry and write one cell that is not explicit. *)
Definition derivedWrite (permissions : list CollectionPermission) (g c : Z)
    (groups groups' : Graph) : Prop :=
  groups' = ensureGroup (FormatInt g) groups
  ∨ (isExplicitPermission permissions g (Itoa c) = false
     ∧ ∃ v, groups' = setPermission (FormatInt g) (Itoa c) v (ensureGroup (FormatInt g) groups)).

(** [derivedWrites permissions allowed groups groups']: [groups'] comes from
    [groups] by steps of the two loops, each at a (group, collection) pair
    that [allowed] permits. *)
Inductive derivedWrites (permissions : list CollectionPermission)
    (allowed : Z → Z → Prop) (groups : Graph) : Graph → Prop :=
| derivedWrites_refl : derivedWrites permissions allowed groups groups
| derivedWrites_step groups1 groups2 g c :
    derivedWrites permissions allowed groups groups1 →
    allowed g c →
    derivedWrite permissions g c groups1 groups2 →
    derivedWrites permissions allowed groups groups2.

(** The collections step 4 propagates to: those whose location lies under
    an owned group collection and that no edge of the plan mentions. *)
Definition recursiveTarget (permissions : list CollectionPermission)
    (collectionIdToGroupId : gmap Z Z) (c : Z) (collectionInfo : CollectionInfo)
    (owner : Z) : Prop :=
  Location collectionInfo ≠ ""
  ∧ 0 ≤ groupCollectionIdFromLocation (Location collectionInfo)
  ∧ collectionIdToGroupId !! groupCollectionIdFromLocation (Location collectionInfo) = Some owner
  ∧ isChildCollectionInPlan permissions (Itoa c) = false.

Definition allowedGroupCollection (groupIdsSet : gset Z)
    (childCollections : list (Z * CollectionInfo)) (g c : Z) : Prop :=
  g ∈ groupIdsSet
  ∧ ∃ info, (c, info) ∈ childCollections ∧ isAnchor (ParentID info) = true.

Definition allowedRecursive (permissions : list CollectionPermission)
    (collectionIdToGroupId : gmap Z Z) (groupIdsSet : gset Z)
    (childCollections : list (Z * CollectionInfo)) (g c : Z) : Prop :=
  g ∈ groupIdsSet
  ∧ ∃ info owner, (c, info) ∈ childCollections
                  ∧ recursiveTarget permissions collectionIdToGroupId c info owner.

(** The pairs at which the expansion of a plan may write. *)
Definition allowedDerived (permissions : list CollectionPermission) (g c : Z) : Prop :=
  g ∈ groupIdsSetOf permissions.

(** The relation between a cell before step 3 and after any number of its
    iterations. *)
Definition anchorCellInv `{Unicode} (permissions : list CollectionPermission)
    (groupNames : gmap Z string) (groupIdsSet : gset Z)
    (childCollections : list (Z * CollectionInfo))
    (groups0 groups : Graph) (gs cs : string) : Prop :=
  cell groups gs cs = cell groups0 gs cs
  ∨ (cell groups0 gs cs = None ∧ is_Some (cell groups gs cs))
  ∨ (cell groups0 gs cs = Some metabase.CollectionPermissionLevelRead
     ∧ cell groups gs cs = Some metabase.CollectionPermissionLevelWrite
     ∧ ∃ g c info, gs = FormatInt g ∧ cs = Itoa c ∧ (c, info) ∈ childCollections
                   ∧ isAnchor (ParentID info) = true ∧ g ∈ groupIdsSet
                   ∧ isExplicitPermission permissions g cs = false
                   ∧ nameMatches groupNames (Name info) g = true).

Definition readsOnly (requests : list Request) : Prop :=
  Forall (fun r => isWrite r = false) requests.

(** ** A concrete deployment *)

Module Scenario.

Definition edge (g : Z) (c l : string) : CollectionPermission :=
  {| Group := Known g; Collection := Known c; Permission := Known l |}.

(** Public is collection 5; "Analytics" (16) is a direct child of it, 60 a
    child of 16; collection 61 has a malformed location. *)
Definition listing : list metabase.Collection :=
  [ {| metabase.Id := metabase.IdInt 16; metabase.Name := "Analytics";
       metabase.Location := Some "/5/"; metabase.PersonalOwnerId := None |};
    {| metabase.Id := metabase.IdInt 60; metabase.Name := "Reports";
       metabase.Location := Some "/5/16/"; metabase.PersonalOwnerId := None |};
    {| metabase.Id := metabase.IdString "root"; metabase.Name := "Our analytics";
       metabase.Location := Some "/"; metabase.PersonalOwnerId := None |};
    {| metabase.Id := metabase.IdInt 61; metabase.Name := "Broken";
       metabase.Location := Some "/5/x1/"; metabase.PersonalOwnerId := None |} ].

Definition tree : gmap Z CollectionInfo := buildChildCollections listing.

(** Group 7 is named like collection 16, group 8 is not. *)
Definition names : gmap Z string := {[ 7 := "analytics"; 8 := "Sales Team" ]}.

Definition order : Schedule :=
  {| ownershipCollections := []; ownershipGroups := fun _ => [];
     groupCollections := []; groupCollectionGroups := fun _ => [];
     recursiveCollections := []; recursiveGroups := fun _ => [] |}.

Definition client : Client := {|
  getGraph := fun _ => Some {| metabase.Revision := 41; metabase.Groups := ∅ |};
  listCollections := fun _ => Some listing;
  getGroup := fun _ g => names !! g;
  replaceGraph := fun _ body =>
    Some {| metabase.Revision := metabase.Revision body + 1;
            metabase.Groups := metabase.Groups body |}
|}.

Definition model (revision : attr Z) (permissions : list CollectionPermission)
    (flag : attr bool) : CollectionGraphResourceModel :=
  {| Revision := revision; IgnoredGroups := Null; Permissions := Known permissions;
     ApplyChildCollectionsPermissions := flag |}.

(** A plan that declares the pair (7, root) twice, with different levels. *)
Definition duplicatePlan : CollectionGraphResourceModel :=
  model Null [edge 7 "root" "read"; edge 7 "root" "write"] (Known true).

End Scenario.

(** The operation fails and has sent no request at all. *)
Definition failsBeforeAnyRequest {A} (operation : M A) : Prop :=
  (∃ s d, (operation []).1 = Error s d) ∧ (operation []).2 = [].

(** The graph of a plan in the concrete deployment. *)
Definition scenarioGraph (permissions : list CollectionPermission) : Graph :=
  match @expand ascii_unicode permissions Scenario.tree Scenario.names Scenario.order true with
  | Ok graph => graph
  | Error _ _ => ∅
  end.

(** ** Further parts of the sources *)

(** The levels that steps 3 and 4 assign. *)
Definition isDerivedLevel (l : string) : Prop :=
  l = metabase.CollectionPermissionLevelRead ∨ l = metabase.CollectionPermissionLevelWrite.

(** Every level the two loops write is [read] or [write]. *)
Definition levelsInv (groups0 groups : Graph) : Prop :=
  ∀ gs cs l, cell groups gs cs = Some l → cell groups0 gs cs = Some l ∨ isDerivedLevel l.


(** The entry of group [g] at the direct child [c] holds the level that step
    3 derives for it, or is still missing. *)
Definition cellSettled `{Unicode} (groupNames : gmap Z string) (g c : Z)
    (info : CollectionInfo) (groups : Graph) : Prop :=
  cell groups (FormatInt g) (Itoa c) = Some (derivedLevel groupNames info g).

Definition cellPending `{Unicode} (groupNames : gmap Z string) (g c : Z)
    (info : CollectionInfo) (groups : Graph) : Prop :=
  cell groups (FormatInt g) (Itoa c) = None ∨ cellSettled groupNames g c info groups.

(** The propagation toggle as the graph builder reads it: on unless the
    attribute is known and false. *)
Definition applyChildPermissionsOf (data : CollectionGraphResourceModel) : bool :=
  if negb (IsNull (ApplyChildCollectionsPermissions data))
     && negb (IsUnknown (ApplyChildCollectionsPermissions data))
  then ValueBool (ApplyChildCollectionsPermissions data)
  else true.

(** The revision the graph builder puts into the body. *)
Definition baseRevision (data : CollectionGraphResourceModel)
    (state : option CollectionGraphResourceModel) : Z :=
  match state with
  | Some state => ValueInt64 (Revision state)
  | None => ValueInt64 (Revision data)
  end.

(** A listed collection that passes the three skips of the listing loop: it
    is not personal, its location is neither empty nor the root, and the
    last element of its location parses as a non-negative integer. *)
Definition stored (collection : metabase.Collection) : Prop :=
  metabase.PersonalOwnerId collection = None
  ∧ default "" (metabase.Location collection) ≠ ""
  ∧ default "" (metabase.Location collection) ≠ "/"
  ∧ 0 ≤ parentIdOfLocation (default "" (metabase.Location collection)).

(** The entry the listing loop writes for a collection under the key [n]. *)
Definition storedInfo (collection : metabase.Collection) (n : Z) : CollectionInfo :=
  {| ID := n;
     ParentID := parentIdOfLocation (default "" (metabase.Location collection));
     Name := metabase.Name collection;
     Location := default "" (metabase.Location collection) |}.

(** The location Metabase gives a collection whose ancestors are, from the
    top, [path]: ["/5/16/"] for [[5; 16]] (the format that the comments of
    [fetchChildCollections] describe). *)
Definition locationPath (path : list Z) : string :=
  foldr (fun id rest => Itoa id +:+ "/" +:+ rest) "" path.

Definition locationOf (path : list Z) : string := "/" +:+ locationPath path.

Fixpoint noSlash (s : string) : bool :=
  match s with
  | EmptyString => true
  | String a r => negb (Ascii.eqb a slash) && noSlash r
  end.

(** The path elements joined by slashes, without the outer slashes. *)
Fixpoint joinPath (path : list Z) : string :=
  match path with
  | [] => ""
  | [id] => Itoa id
  | id :: rest => Itoa id +:+ "/" +:+ joinPath rest
  end.

(** [isCollectionUnderGroup]: whether a location starts with
    [/rootCollectionId/groupId/] ([fmt.Sprintf] with [%d] prints an [int]
    as [strconv.Itoa] does). *)
Definition isCollectionUnderGroup (location : string) (rootCollectionId groupId : Z) : bool :=
  if String.eqb location "" then false
  else
    let pattern := "/" +:+ Itoa rootCollectionId +:+ "/" +:+ Itoa groupId +:+ "/" in
    HasPrefix location pattern.

(** A string of ASCII characters only: every byte is below 128, so that
    every byte is one rune and the ASCII fragment of the tables applies. *)
Fixpoint isASCII (s : string) : bool :=
  match s with
  | EmptyString => true
  | String a r => (N_of_ascii a <? 128)%N && isASCII r
  end.

Definition ascii_is_alnum (a : ascii) : bool := ascii_is_letter a || ascii_is_digit a.

(** The letters and digits of a string, in lower case. *)
Fixpoint lowerAlnum (s : string) : string :=
  match s with
  | EmptyString => EmptyString
  | String a r =>
      if ascii_is_alnum (ascii_lower a) then String (ascii_lower a) (lowerAlnum r)
      else lowerAlnum r
  end.

(** No two groups under consideration have names that match the name of
    the same direct child of Public or Draft. *)
Definition uniqueOwners `{Unicode} (permissions : list CollectionPermission)
    (childCollectionsMap : gmap Z CollectionInfo) (groupNames : gmap Z string) : Prop :=
  ∀ c info g1 g2,
    childCollectionsMap !! c = Some info → isAnchor (ParentID info) = true →
    g1 ∈ groupIdsSetOf permissions → g2 ∈ groupIdsSetOf permissions →
    nameMatches groupNames (Name info) g1 = true →
    nameMatches groupNames (Name info) g2 = true →
    g1 = g2.

(** From [before] to [after] only reads were sent, followed by at most one
    write, which is then the last request. *)
Definition oneWriteAtEnd (before after : list Request) : Prop :=
  ∃ reads, readsOnly reads
    ∧ (after = before ++ reads
       ∨ ∃ body, after = before ++ reads ++ [ReplaceCollectionPermissionsGraph body]).

(** * Properties *)

(** ** Go string functions *)

Lemma Split_nonempty s c : Split s c ≠ [].
Proof.
  induction s as [|a r IH]; simpl; [done|].
  destruct (Ascii.eqb a c); [done|]. by destruct (Split r c).
Qed.

Lemma parentIdOfLocation_unparsed location lastPart :
  last (Split (Trim location slash) slash) = Some lastPart →
  Atoi lastPart = None →
  parentIdOfLocation location = -1.
Proof. intros Hl Ha. unfold parentIdOfLocation. by rewrite Hl, Ha. Qed.

(** ** C8: malformed locations *)

Lemma addCollection_unmanaged childCollections collection :
  unmanaged collection → addCollection childCollections collection = childCollections.
Proof.
  intros Hu. unfold addCollection.
  destruct (metabase.PersonalOwnerId collection) as [o|] eqn:Ho; [done|].
  destruct Hu as [Hp|[He|[He|(lastPart & Hl & Ha)]]].
  - rewrite Ho in Hp. by destruct Hp.
  - by rewrite He.
  - by rewrite He.
  - destruct (_ || _); [done|].
    by rewrite (parentIdOfLocation_unparsed _ _ Hl Ha).
Qed.

Lemma addCollection_lookup childCollections collection n :
  collectionKey collection ≠ Some n →
  addCollection childCollections collection !! n = childCollections !! n.
Proof.
  intros Hk. unfold addCollection, collectionKey in *.
  destruct (metabase.PersonalOwnerId collection); [done|].
  destruct (_ || _); [done|].
  destruct (_ <? 0); [done|].
  destruct (metabase.Id collection) as [m|str].
  - rewrite lookup_insert_ne; [done|congruence].
  - destruct (String.eqb str "root"); [done|].
    destruct (Atoi str) as [m|]; [|done].
    rewrite lookup_insert_ne; [done|congruence].
Qed.

Lemma buildChildCollections_lookup_None collections n :
  Forall (fun collection => collectionKey collection ≠ Some n) collections →
  buildChildCollections collections !! n = None.
Proof.
  unfold buildChildCollections.
  assert (∀ m : gmap Z CollectionInfo, m !! n = None →
    Forall (fun collection => collectionKey collection ≠ Some n) collections →
    foldl addCollection m collections !! n = None) as Hgen.
  { induction collections as [|c l IH]; intros m Hm Hall; simpl; [done|].
    inversion Hall; subst. apply IH; [|done].
    by rewrite addCollection_lookup. }
  by apply Hgen.
Qed.

(** C8. A collection of the listing whose location's last element does not
    parse as an integer (or that is personal, or located at the root) is
    left out of the resource tree without any error: whenever the listing
    request succeeds the tree is built, it is the tree of the listing
    without that collection (so every other collection is processed as if
    it were not there, and the ownership map and the expansion, which only
    read the tree, do not see it), and its id is no key of the tree unless
    another listed collection has the same id. *)
Theorem malformed_location_excluded (before after : list metabase.Collection)
    (collection : metabase.Collection) :
  unmanaged collection →
  buildChildCollections (before ++ collection :: after)
  = buildChildCollections (before ++ after)
  ∧ (∀ client trace,
       listCollections client trace = Some (before ++ collection :: after) →
       (fetchChildCollections client trace).1
       = Ok (buildChildCollections (before ++ after)))
  ∧ (∀ n, Forall (fun other => collectionKey other ≠ Some n) (before ++ after) →
       buildChildCollections (before ++ collection :: after) !! n = None).
Proof.
  intros Hu.
  assert (buildChildCollections (before ++ collection :: after)
          = buildChildCollections (before ++ after)) as Heq.
  { unfold buildChildCollections.
    rewrite !foldl_app. simpl. by rewrite addCollection_unmanaged. }
  split; [done|]. split.
  - intros client trace Hl.
    unfold fetchChildCollections, bind, send, ret. rewrite Hl. simpl.
    by rewrite Heq.
  - intros n Hall. rewrite Heq. by apply buildChildCollections_lookup_None.
Qed.

Lemma malformed_location_excluded_witness :
  let good := {| metabase.Id := metabase.IdInt 16; metabase.Name := "Analytics";
                 metabase.Location := Some "/5/"; metabase.PersonalOwnerId := None |} in
  let bad := {| metabase.Id := metabase.IdInt 61; metabase.Name := "Broken";
                metabase.Location := Some "/5/x1/"; metabase.PersonalOwnerId := None |} in
  unmanaged bad
  ∧ buildChildCollections ([good] ++ bad :: []) = buildChildCollections ([good] ++ [])
  ∧ buildChildCollections ([good] ++ bad :: []) !! 61 = None.
Proof.
  intros good bad.
  assert (unmanaged bad) as Hu.
  { right; right; right. exists "x1". split; reflexivity. }
  split; [exact Hu|].
  destruct (malformed_location_excluded [good] [] bad Hu) as (H1 & _ & H3).
  split; [exact H1|].
  apply H3. repeat constructor. discriminate.
Defined.

(** ** The permissions map, cell by cell *)

Lemma cell_default (groups : Graph) gs cs :
  cell groups gs cs = default ∅ (groups !! gs) !! cs.
Proof. unfold cell. by destruct (groups !! gs). Qed.

Lemma cell_setPermission (groups : Graph) gs cs v gs' cs' :
  cell (setPermission gs cs v groups) gs' cs'
  = if decide (gs = gs' ∧ cs = cs') then Some v else cell groups gs' cs'.
Proof.
  unfold cell, setPermission.
  destruct (decide (gs = gs')) as [->|Hg].
  - rewrite lookup_insert_eq. simpl.
    destruct (decide (cs = cs')) as [->|Hc].
    + rewrite lookup_insert_eq. by rewrite decide_True.
    + rewrite lookup_insert_ne by done. rewrite decide_False by naive_solver.
      by destruct (groups !! gs').
  - rewrite lookup_insert_ne by done. by rewrite decide_False by naive_solver.
Qed.

Lemma cell_ensureGroup (groups : Graph) gs gs' cs' :
  cell (ensureGroup gs groups) gs' cs' = cell groups gs' cs'.
Proof.
  unfold ensureGroup. destruct (groups !! gs) eqn:Hg; [done|].
  unfold cell. destruct (decide (gs = gs')) as [->|Hne].
  - by rewrite lookup_insert_eq, Hg.
  - by rewrite lookup_insert_ne.
Qed.

Lemma lookup_setPermission_is_Some (groups : Graph) gs cs v gs' :
  is_Some (setPermission gs cs v groups !! gs') ↔ gs = gs' ∨ is_Some (groups !! gs').
Proof.
  unfold setPermission. destruct (decide (gs = gs')) as [->|Hne].
  - rewrite lookup_insert_eq. naive_solver.
  - rewrite lookup_insert_ne by done. naive_solver.
Qed.

Lemma lookup_ensureGroup_is_Some (groups : Graph) gs gs' :
  is_Some (ensureGroup gs groups !! gs') ↔ gs = gs' ∨ is_Some (groups !! gs').
Proof.
  unfold ensureGroup. destruct (groups !! gs) eqn:Hg.
  - split; [naive_solver|]. intros [<-|?]; [by rewrite Hg|done].
  - destruct (decide (gs = gs')) as [->|Hne].
    + rewrite lookup_insert_eq. naive_solver.
    + rewrite lookup_insert_ne by done. naive_solver.
Qed.

Lemma ensureGroup_id (groups : Graph) gs :
  is_Some (groups !! gs) → ensureGroup gs groups = groups.
Proof. intros [m Hm]. unfold ensureGroup. by rewrite Hm. Qed.

Lemma noEmptyGroup_setPermission (groups : Graph) gs cs v :
  noEmptyGroup groups → noEmptyGroup (setPermission gs cs v groups).
Proof.
  intros Hne gs' m. unfold setPermission.
  destruct (decide (gs = gs')) as [->|Hd].
  - rewrite lookup_insert_eq. intros [= <-]. apply insert_non_empty.
  - rewrite lookup_insert_ne by done. apply Hne.
Qed.

(** Two maps without empty groups are equal when their cells are. *)
Lemma graph_eq (groups1 groups2 : Graph) :
  noEmptyGroup groups1 → noEmptyGroup groups2 →
  (∀ gs cs, cell groups1 gs cs = cell groups2 gs cs) →
  groups1 = groups2.
Proof.
  intros H1 H2 Hc. apply map_eq. intros gs.
  destruct (groups1 !! gs) as [m1|] eqn:E1, (groups2 !! gs) as [m2|] eqn:E2.
  - f_equal. apply map_eq. intros cs. specialize (Hc gs cs).
    unfold cell in Hc. by rewrite E1, E2 in Hc.
  - exfalso. apply (H1 gs m1 E1). apply map_eq. intros cs.
    specialize (Hc gs cs). unfold cell in Hc. rewrite E1, E2 in Hc.
    simpl in Hc. by rewrite Hc, lookup_empty.
  - exfalso. apply (H2 gs m2 E2). apply map_eq. intros cs.
    specialize (Hc gs cs). unfold cell in Hc. rewrite E1, E2 in Hc.
    simpl in Hc. by rewrite <- Hc, lookup_empty.
  - done.
Qed.

(** ** The seed: the explicit edges, verbatim *)

Lemma seedStep_Ok groups p groups' :
  seedStep groups p = Ok groups' →
  notNull p ∧ cell groups (keyOf p).1 (keyOf p).2 = None
  ∧ groups' = setPermission (keyOf p).1 (keyOf p).2 (ValueString (Permission p)) groups.
Proof.
  unfold seedStep, notNull, keyOf. simpl.
  destruct (IsNull (Group p)); [done|].
  destruct (IsNull (Collection p)); [done|].
  rewrite <- cell_default.
  destruct (cell groups _ _) eqn:Hc; [done|].
  intros [= <-]. done.
Qed.

Lemma seedStep_fresh groups p :
  notNull p → cell groups (keyOf p).1 (keyOf p).2 = None →
  seedStep groups p
  = Ok (setPermission (keyOf p).1 (keyOf p).2 (ValueString (Permission p)) groups).
Proof.
  intros [Hg Hc] Hcell. unfold seedStep, keyOf in *. simpl in *.
  rewrite Hg, Hc. rewrite <- cell_default. by rewrite Hcell.
Qed.

Lemma seedStep_duplicate groups p :
  is_Some (cell groups (keyOf p).1 (keyOf p).2) →
  ∃ s d, seedStep groups p = Error s d.
Proof.
  intros [l Hl]. unfold seedStep, keyOf in *. simpl in *.
  destruct (IsNull (Group p)); [eauto|].
  destruct (IsNull (Collection p)); [eauto|].
  rewrite <- cell_default, Hl. eauto.
Qed.

(** What a successful seeding has built. *)
Lemma seedGroups_spec permissions : ∀ groups groups',
  seedGroups groups permissions = Ok groups' →
  Forall notNull permissions
  ∧ NoDup (keyOf <$> permissions)
  ∧ (∀ p, p ∈ permissions → cell groups (keyOf p).1 (keyOf p).2 = None)
  ∧ (∀ gs cs l, cell groups' gs cs = Some l ↔
       cell groups gs cs = Some l
       ∨ ∃ p, p ∈ permissions ∧ keyOf p = (gs, cs) ∧ ValueString (Permission p) = l)
  ∧ (∀ gs, is_Some (groups' !! gs) ↔
       is_Some (groups !! gs) ∨ ∃ p, p ∈ permissions ∧ (keyOf p).1 = gs)
  ∧ (noEmptyGroup groups → noEmptyGroup groups').
Proof.
  induction permissions as [|p rest IH]; intros groups groups' Hs; simpl in Hs.
  - injection Hs as <-.
    split; [constructor|]. split; [constructor|].
    split; [by intros p Hp; apply elem_of_nil in Hp|].
    split; [intros gs cs l; split; [by left|]|].
    { intros [?|(p & Hp & _)]; [done|by apply elem_of_nil in Hp]. }
    split; [|done]. intros gs. split; [by left|].
    intros [?|(p & Hp & _)]; [done|by apply elem_of_nil in Hp].
  - destruct (seedStep groups p) as [groups1|] eqn:Hstep; [|done].
    apply seedStep_Ok in Hstep as (Hnn & Hfresh & ->).
    destruct (IH _ _ Hs) as (Hall & Hnd & Hfr & Hcell & Hdom & Hne).
    assert (∀ q, q ∈ rest → keyOf q ≠ keyOf p) as Hdiff.
    { intros q Hq Heq. specialize (Hfr q Hq).
      rewrite cell_setPermission in Hfr. rewrite Heq in Hfr.
      by rewrite decide_True in Hfr. }
    split; [by constructor|].
    split.
    { simpl. constructor; [|done].
      intros (q & Hq1 & Hq2)%list_elem_of_fmap. by apply (Hdiff q). }
    split.
    { intros q [->|Hq]%elem_of_cons; [done|].
      specialize (Hfr q Hq). rewrite cell_setPermission in Hfr.
      by destruct (decide _). }
    split.
    { intros gs cs l. rewrite Hcell, cell_setPermission.
      split.
      - intros [Hc|(q & Hq & Hk & Hl)].
        + destruct (decide _) as [[<- <-]|Hd].
          * right. exists p. split; [apply elem_of_cons; by left|].
            split; [by destruct (keyOf p)|congruence].
          * by left.
        + right. exists q. split; [apply elem_of_cons; by right|done].
      - intros [Hc|(q & [->|Hq]%elem_of_cons & Hk & Hl)].
        + left. destruct (decide _) as [[<- <-]|Hd]; [congruence|done].
        + left. rewrite Hk. simpl. rewrite decide_True by done. by rewrite Hl.
        + right. by exists q. }
    split.
    { intros gs. rewrite Hdom, lookup_setPermission_is_Some. split.
      - intros [[<-|?]|(q & Hq & Hk)].
        + right. exists p. split; [apply elem_of_cons; by left|done].
        + by left.
        + right. exists q. split; [apply elem_of_cons; by right|done].
      - intros [?|(q & [->|Hq]%elem_of_cons & Hk)].
        + left. by right.
        + left. by left.
        + right. by exists q. }
    intros Hn. apply Hne. by apply noEmptyGroup_setPermission.
Qed.

(** Seeding succeeds on edges without null fields whose keys are pairwise
    distinct and new to the map. *)
Lemma seedGroups_total permissions : ∀ groups,
  Forall notNull permissions →
  NoDup (keyOf <$> permissions) →
  (∀ p, p ∈ permissions → cell groups (keyOf p).1 (keyOf p).2 = None) →
  ∃ groups', seedGroups groups permissions = Ok groups'.
Proof.
  induction permissions as [|p rest IH]; intros groups Hall Hnd Hfresh; simpl.
  - eauto.
  - inversion Hall as [|? ? Hp Hrest]; subst.
    simpl in Hnd. apply NoDup_cons in Hnd as [Hnotin Hnd].
    rewrite seedStep_fresh; [|done|apply Hfresh, elem_of_cons; by left].
    apply IH; [done|done|].
    intros q Hq. rewrite cell_setPermission.
    destruct (decide _) as [[H1 H2]|Hd].
    + exfalso. apply Hnotin. apply list_elem_of_fmap. exists q.
      split; [|done]. destruct (keyOf p), (keyOf q). simpl in *. congruence.
    + apply Hfresh, elem_of_cons. by right.
Qed.

(** Two edges of the declared input with the same (group, collection) pair
    make seeding fail, whatever their levels. *)
Lemma seedGroups_duplicate permissions : ∀ groups,
  ¬ NoDup (keyOf <$> permissions) →
  ∃ s d, seedGroups groups permissions = Error s d.
Proof.
  intros groups Hdup.
  destruct (seedGroups groups permissions) as [groups'|s d] eqn:Hs; [|eauto].
  apply seedGroups_spec in Hs as (_ & Hnd & _). done.
Qed.

(** ** Loops *)

Lemma foldl_invariant {A B} (P : A → Prop) (f : A → B → A) (l : list B) (a : A) :
  P a → (∀ a b, b ∈ l → P a → P (f a b)) → P (foldl f a l).
Proof.
  revert a. induction l as [|b l IH]; intros a Ha Hstep; simpl; [done|].
  apply IH.
  - apply Hstep; [apply elem_of_cons; by left|done].
  - intros a' b' Hb'. apply Hstep. apply elem_of_cons. by right.
Qed.

Lemma foldl_fixed {A B} (f : A → B → A) (l : list B) (a : A) :
  (∀ b, b ∈ l → f a b = a) → foldl f a l = a.
Proof.
  induction l as [|b l IH]; intros Hfix; simpl; [done|].
  rewrite Hfix by (apply elem_of_cons; by left).
  apply IH. intros b' Hb'. apply Hfix. apply elem_of_cons. by right.
Qed.

(** ** The groups under consideration *)

Lemma collectGroupIds_spec permissions g :
  g ∈ groupIdsSetOf permissions ↔
  ∃ p, p ∈ permissions ∧ IsNull (Group p) = false ∧ ValueInt64 (Group p) = g.
Proof.
  unfold groupIdsSetOf, collectGroupIds.
  assert (∀ acc : gset Z * list Z,
    g ∈ (foldl addGroupId acc permissions).1 ↔
    g ∈ acc.1 ∨ ∃ p, p ∈ permissions ∧ IsNull (Group p) = false
                     ∧ ValueInt64 (Group p) = g) as Hgen.
  { induction permissions as [|p rest IH]; intros acc; simpl.
    - split; [by left|]. intros [?|(p & Hp & _)]; [done|by apply elem_of_nil in Hp].
    - rewrite IH. unfold addGroupId.
      destruct (IsNull (Group p)) eqn:Hn.
      + split.
        * intros [?|(q & Hq & ?)]; [by left|].
          right. exists q. split; [apply elem_of_cons; by right|done].
        * intros [?|(q & [->|Hq]%elem_of_cons & Hqn & ?)]; [by left|congruence|].
          right. by exists q.
      + case_bool_decide as Hin; simpl.
        * split.
          -- intros [?|(q & Hq & ?)]; [by left|].
             right. exists q. split; [apply elem_of_cons; by right|done].
          -- intros [?|(q & [->|Hq]%elem_of_cons & Hqn & Hqg)]; [by left| |].
             ++ left. by rewrite <- Hqg.
             ++ right. by exists q.
        * split.
          -- intros [[->%elem_of_singleton|?]%elem_of_union|(q & Hq & ?)].
             ++ right. exists p. split; [apply elem_of_cons; by left|done].
             ++ by left.
             ++ right. exists q. split; [apply elem_of_cons; by right|done].
          -- intros [?|(q & [->|Hq]%elem_of_cons & Hqn & Hqg)].
             ++ left. apply elem_of_union. by right.
             ++ left. apply elem_of_union. left. by apply elem_of_singleton.
             ++ right. by exists q. }
  rewrite Hgen. simpl. split.
  - intros [Hin|?]; [|done]. by apply elem_of_empty in Hin.
  - by right.
Qed.

Lemma foldl_establish {A B} (Q : A → Prop) (f : A → B → A) (l : list B) (a : A) (b : B) :
  b ∈ l → (∀ a, Q (f a b)) → (∀ a b', b' ∈ l → Q a → Q (f a b')) → Q (foldl f a l).
Proof.
  revert a. induction l as [|x l IH] using rev_ind; intros a Hb Hest Hpres.
  - by apply elem_of_nil in Hb.
  - rewrite foldl_app. simpl.
    apply elem_of_app in Hb as [Hb|Hb%list_elem_of_singleton].
    + apply Hpres; [apply elem_of_app; right; by apply list_elem_of_singleton|].
      apply IH; [done|done|].
      intros a' b' Hb'. apply Hpres. apply elem_of_app. by left.
    + subst x. apply Hest.
Qed.

Lemma FormatInt_inj g1 g2 : FormatInt g1 = FormatInt g2 → g1 = g2.
Proof. apply pretty_Z_inj. Qed.

Lemma Itoa_inj c1 c2 : Itoa c1 = Itoa c2 → c1 = c2.
Proof. apply pretty_Z_inj. Qed.

(** ** Iteration orders *)

Lemma rangeGroups_elem (order : list Z) (groupIdsSet : gset Z) g :
  g ∈ rangeGroups order groupIdsSet ↔ g ∈ groupIdsSet.
Proof.
  unfold rangeGroups. rewrite elem_of_app, !list_elem_of_In, !filter_In.
  rewrite <- !list_elem_of_In, elem_of_elements.
  rewrite bool_decide_eq_true, negb_true_iff, bool_decide_eq_false.
  destruct (decide (g ∈ order)); naive_solver.
Qed.

Lemma rangeMap_elem {A} (order : list Z) (m : gmap Z A) k a :
  (k, a) ∈ rangeMap order m ↔ m !! k = Some a.
Proof.
  unfold rangeMap. rewrite elem_of_app, list_elem_of_omap.
  rewrite list_elem_of_In, filter_In, <- list_elem_of_In, elem_of_map_to_list.
  rewrite negb_true_iff, bool_decide_eq_false. simpl. split.
  - intros [(k' & Hk & Hl)|[Hl _]]; [|done].
    destruct (m !! k') as [a'|] eqn:Hm; simpl in Hl; [|done].
    by injection Hl as -> ->.
  - intros Hm. destruct (decide (k ∈ order)) as [Hin|Hnin].
    + left. exists k. split; [done|]. by rewrite Hm.
    + by right.
Qed.

(** ** Steps 3 and 4, one group at one collection *)

Section Steps.
Context `{Unicode}.
Variable permissions : list CollectionPermission.
Variable groupNames : gmap Z string.

Lemma groupCollectionStep_shape c info (groups : Graph) g :
  let groups1 := ensureGroup (FormatInt g) groups in
  let step := groupCollectionStep permissions groupNames c info groups g in
  step = groups1
  ∨ (isExplicitPermission permissions g (Itoa c) = false
     ∧ step = setPermission (FormatInt g) (Itoa c) (derivedLevel groupNames info g) groups1
     ∧ (cell groups (FormatInt g) (Itoa c) = None
        ∨ (cell groups (FormatInt g) (Itoa c) = Some metabase.CollectionPermissionLevelRead
           ∧ derivedLevel groupNames info g = metabase.CollectionPermissionLevelWrite))).
Proof.
  intros groups1 step. subst groups1 step. unfold groupCollectionStep, derivedLevel.
  destruct (isExplicitPermission permissions g (Itoa c)) eqn:He; [by left|].
  rewrite cell_ensureGroup.
  destruct (cell groups (FormatInt g) (Itoa c)) as [existing|] eqn:Hc.
  - destruct (String.eqb existing _) eqn:E1; simpl; [|by left].
    destruct (String.eqb _ metabase.CollectionPermissionLevelWrite) eqn:E2; [|by left].
    right. apply String.eqb_eq in E1, E2. subst existing.
    split; [done|]. split; [done|]. right. done.
  - right. split; [done|]. split; [done|]. by left.
Qed.

Lemma recursiveStep_shape owner c (groups : Graph) g :
  let groups1 := ensureGroup (FormatInt g) groups in
  let step := recursiveStep permissions owner c groups g in
  (isExplicitPermission permissions g (Itoa c) = true ∧ step = groups1)
  ∨ (isExplicitPermission permissions g (Itoa c) = false
     ∧ step = setPermission (FormatInt g) (Itoa c)
                (if g =? owner then metabase.CollectionPermissionLevelWrite
                 else metabase.CollectionPermissionLevelRead) groups1).
Proof.
  intros groups1 step. subst groups1 step. unfold recursiveStep.
  destruct (isExplicitPermission permissions g (Itoa c)); [by left|by right].
Qed.

Lemma groupCollectionStep_derivedWrite c info groups g :
  derivedWrite permissions g c groups (groupCollectionStep permissions groupNames c info groups g).
Proof.
  destruct (groupCollectionStep_shape c info groups g) as [->|(He & -> & _)].
  - by left.
  - right. eauto.
Qed.

Lemma recursiveStep_derivedWrite owner c groups g :
  derivedWrite permissions g c groups (recursiveStep permissions owner c groups g).
Proof.
  destruct (recursiveStep_shape owner c groups g) as [[_ ->]|[He ->]].
  - by left.
  - right. eauto.
Qed.

Lemma derivedWrite_dom g c groups groups' gs :
  derivedWrite permissions g c groups groups' →
  is_Some (groups' !! gs) ↔ gs = FormatInt g ∨ is_Some (groups !! gs).
Proof.
  intros [->|(_ & v & ->)].
  - rewrite lookup_ensureGroup_is_Some. naive_solver.
  - rewrite lookup_setPermission_is_Some, lookup_ensureGroup_is_Some. naive_solver.
Qed.

Lemma derivedWrite_cell g c groups groups' gs cs :
  derivedWrite permissions g c groups groups' →
  cell groups' gs cs = cell groups gs cs
  ∨ (gs = FormatInt g ∧ cs = Itoa c
     ∧ isExplicitPermission permissions g (Itoa c) = false
     ∧ is_Some (cell groups' gs cs)).
Proof.
  intros [->|(He & v & ->)].
  - left. apply cell_ensureGroup.
  - rewrite cell_setPermission, cell_ensureGroup.
    destruct (decide _) as [[<- <-]|Hd]; [|by left].
    right. eauto.
Qed.

Lemma derivedWrite_cell_is_Some g c groups groups' gs cs :
  derivedWrite permissions g c groups groups' →
  is_Some (cell groups gs cs) → is_Some (cell groups' gs cs).
Proof.
  intros Hw Hs. destruct (derivedWrite_cell g c groups groups' gs cs Hw) as [->|(_ & _ & _ & ?)]; done.
Qed.

Lemma derivedWrite_noEmptyGroup g c groups groups' :
  derivedWrite permissions g c groups groups' →
  is_Some (groups !! FormatInt g) →
  noEmptyGroup groups → noEmptyGroup groups'.
Proof.
  intros Hw Hs Hne. destruct Hw as [->|(_ & v & ->)].
  - by rewrite ensureGroup_id.
  - rewrite ensureGroup_id by done. by apply noEmptyGroup_setPermission.
Qed.

End Steps.

(** ** Sequences of derived writes *)

Section DerivedWrites.
Variable permissions : list CollectionPermission.

Lemma derivedWrites_mono (allowed allowed' : Z → Z → Prop) groups groups' :
  (∀ g c, allowed g c → allowed' g c) →
  derivedWrites permissions allowed groups groups' →
  derivedWrites permissions allowed' groups groups'.
Proof.
  intros Hsub Hd. induction Hd as [|? ? g c _ IH Ha Hw].
  - constructor.
  - eapply derivedWrites_step; eauto.
Qed.

Lemma derivedWrites_trans allowed groups1 groups2 groups3 :
  derivedWrites permissions allowed groups1 groups2 →
  derivedWrites permissions allowed groups2 groups3 →
  derivedWrites permissions allowed groups1 groups3.
Proof.
  intros H12 H23. induction H23 as [|? ? g c _ IH Ha Hw].
  - done.
  - eapply derivedWrites_step; eauto.
Qed.

Lemma derivedWrites_dom allowed groups groups' gs :
  derivedWrites permissions allowed groups groups' →
  is_Some (groups' !! gs) →
  is_Some (groups !! gs) ∨ ∃ g c, allowed g c ∧ gs = FormatInt g.
Proof.
  intros Hd. induction Hd as [|? ? g c _ IH Ha Hw]; [by left|].
  intros [->|Hs]%(derivedWrite_dom _ _ _ _ _ _ Hw); [|by apply IH].
  right. eauto.
Qed.

Lemma derivedWrites_dom_mono allowed groups groups' gs :
  derivedWrites permissions allowed groups groups' →
  is_Some (groups !! gs) → is_Some (groups' !! gs).
Proof.
  intros Hd Hs. induction Hd as [|? ? g c _ IH Ha Hw]; [done|].
  apply (derivedWrite_dom _ _ _ _ _ _ Hw). right. by apply IH.
Qed.

(** A cell that differs after the loops is a cell of an allowed pair that is
    not explicit, and it holds a level. *)
Lemma derivedWrites_cell allowed groups groups' gs cs :
  derivedWrites permissions allowed groups groups' →
  cell groups' gs cs = cell groups gs cs
  ∨ ∃ g c, allowed g c ∧ gs = FormatInt g ∧ cs = Itoa c
           ∧ isExplicitPermission permissions g (Itoa c) = false
           ∧ is_Some (cell groups' gs cs).
Proof.
  intros Hd. induction Hd as [|? ? g c _ IH Ha Hw]; [by left|].
  destruct (derivedWrite_cell _ _ _ _ _ gs cs Hw) as [Heq|(-> & -> & He & Hs)].
  - destruct IH as [IH|(g' & c' & ? & ? & ? & ? & ?)]; [left; congruence|].
    right. exists g', c'. by rewrite Heq.
  - right. exists g, c. done.
Qed.

Lemma derivedWrites_cell_is_Some allowed groups groups' gs cs :
  derivedWrites permissions allowed groups groups' →
  is_Some (cell groups gs cs) → is_Some (cell groups' gs cs).
Proof.
  intros Hd Hs.
  destruct (derivedWrites_cell _ _ _ gs cs Hd) as [->|(g & c & _ & _ & _ & _ & ?)]; done.
Qed.

(** An explicit cell is never touched. *)
Lemma derivedWrites_explicit allowed groups groups' g cs :
  derivedWrites permissions allowed groups groups' →
  isExplicitPermission permissions g cs = true →
  cell groups' (FormatInt g) cs = cell groups (FormatInt g) cs.
Proof.
  intros Hd He.
  destruct (derivedWrites_cell _ _ _ (FormatInt g) cs Hd)
    as [->|(g' & c & _ & Hg & -> & He' & _)]; [done|].
  apply FormatInt_inj in Hg as <-. congruence.
Qed.

Lemma derivedWrites_noEmptyGroup allowed groups groups' :
  derivedWrites permissions allowed groups groups' →
  (∀ g c, allowed g c → is_Some (groups !! FormatInt g)) →
  noEmptyGroup groups → noEmptyGroup groups'.
Proof.
  intros Hd Hdom Hne. induction Hd as [|? ? g c Hd IH Ha Hw]; [done|].
  eapply derivedWrite_noEmptyGroup; [done| |by apply IH].
  eapply derivedWrites_dom_mono; [done|]. by eapply Hdom.
Qed.

End DerivedWrites.

(** ** The two loops as sequences of derived writes *)

Lemma recursiveEntry_cases permissions collectionIdToGroupId order groupIdsSet groups c info :
  (recursiveEntry permissions collectionIdToGroupId order groupIdsSet groups (c, info) = groups
   ∧ ¬ ∃ owner, recursiveTarget permissions collectionIdToGroupId c info owner)
  ∨ ∃ owner, recursiveTarget permissions collectionIdToGroupId c info owner
      ∧ recursiveEntry permissions collectionIdToGroupId order groupIdsSet groups (c, info)
        = foldl (recursiveStep permissions owner c) groups
                (rangeGroups (order c) groupIdsSet).
Proof.
  unfold recursiveEntry, recursiveTarget.
  destruct (String.eqb (Location info) "") eqn:El.
  { left. split; [done|]. apply String.eqb_eq in El. intros (o & Hn & _). done. }
  apply String.eqb_neq in El.
  destruct (groupCollectionIdFromLocation (Location info) <? 0) eqn:Eg.
  { left. split; [done|]. apply Z.ltb_lt in Eg. intros (o & _ & Hn & _). lia. }
  apply Z.ltb_ge in Eg.
  destruct (collectionIdToGroupId !! _) as [owner|] eqn:Eo.
  2:{ left. split; [done|]. intros (o & _ & _ & Hn & _). congruence. }
  destruct (isChildCollectionInPlan permissions (Itoa c)) eqn:Ep.
  { left. split; [done|]. intros (o & _ & _ & _ & Hn). congruence. }
  right. exists owner. done.
Qed.

Section Loops.
Context `{Unicode}.
Variable permissions : list CollectionPermission.
Variable groupNames : gmap Z string.
Variable order : Z → list Z.
Variable groupIdsSet : gset Z.

Lemma applyGroupCollections_derivedWrites childCollections groups :
  derivedWrites permissions (allowedGroupCollection groupIdsSet childCollections) groups
    (applyGroupCollections permissions groupNames order groupIdsSet childCollections groups).
Proof.
  unfold applyGroupCollections.
  apply (foldl_invariant (derivedWrites permissions _ groups)); [constructor|].
  intros groups1 [c info] Hin Hd. unfold groupCollectionsEntry.
  destruct (isAnchor (ParentID info)) eqn:Ea; [|done].
  apply (foldl_invariant (derivedWrites permissions _ groups)); [done|].
  intros groups2 g Hg Hd2.
  eapply derivedWrites_step; [done| |apply groupCollectionStep_derivedWrite].
  split; [by apply rangeGroups_elem in Hg|]. eauto.
Qed.

Lemma applyRecursive_derivedWrites collectionIdToGroupId childCollections groups :
  derivedWrites permissions
    (allowedRecursive permissions collectionIdToGroupId groupIdsSet childCollections) groups
    (applyRecursive permissions collectionIdToGroupId order groupIdsSet childCollections groups).
Proof.
  unfold applyRecursive.
  apply (foldl_invariant (derivedWrites permissions _ groups)); [constructor|].
  intros groups1 [c info] Hin Hd.
  destruct (recursiveEntry_cases permissions collectionIdToGroupId order groupIdsSet groups1 c info)
    as [[-> _]|(owner & Ht & ->)]; [done|].
  apply (foldl_invariant (derivedWrites permissions _ groups)); [done|].
  intros groups2 g Hg Hd2.
  eapply derivedWrites_step; [done| |apply recursiveStep_derivedWrite].
  split; [by apply rangeGroups_elem in Hg|]. eauto.
Qed.

End Loops.

Lemma applyChildCollections_derivedWrites `{Unicode} permissions childCollectionsMap
    groupNames order groups :
  derivedWrites permissions (allowedDerived permissions) groups
    (applyChildCollections permissions childCollectionsMap groupNames order groups).
Proof.
  unfold applyChildCollections.
  eapply derivedWrites_trans.
  - eapply derivedWrites_mono; [|apply applyGroupCollections_derivedWrites].
    by intros g c [Hg _].
  - eapply derivedWrites_mono; [|apply applyRecursive_derivedWrites].
    by intros g c [Hg _].
Qed.

Lemma expand_inv `{Unicode} permissions childCollectionsMap groupNames order graph :
  expand permissions childCollectionsMap groupNames order true = Ok graph →
  ∃ groups, seedGroups ∅ permissions = Ok groups
            ∧ graph = applyChildCollections permissions childCollectionsMap groupNames order groups.
Proof.
  unfold expand. destruct (seedGroups ∅ permissions) as [groups|]; [|done].
  intros [= <-]. eauto.
Qed.

(** ** The groups of the expanded graph *)

Lemma expand_group_keys `{Unicode} (permissions : list CollectionPermission)
    (childCollectionsMap : gmap Z CollectionInfo) (groupNames : gmap Z string)
    (order : Schedule) (applyChildPermissions : bool) (graph : Graph) (gs : string) :
  expand permissions childCollectionsMap groupNames order applyChildPermissions = Ok graph →
  is_Some (graph !! gs) →
  ∃ p, p ∈ permissions ∧ IsNull (Group p) = false
       ∧ gs = FormatInt (ValueInt64 (Group p)).
Proof.
  intros He Hs.
  assert (∀ groups, seedGroups ∅ permissions = Ok groups → is_Some (groups !! gs) →
    ∃ p, p ∈ permissions ∧ IsNull (Group p) = false
         ∧ gs = FormatInt (ValueInt64 (Group p))) as Hseed.
  { intros groups Hg Hsome.
    apply seedGroups_spec in Hg as (Hall & _ & _ & _ & Hdom & _).
    apply Hdom in Hsome as [[m Hm]|(p & Hp & Hk)]; [by rewrite lookup_empty in Hm|].
    exists p. split; [done|]. split; [|done].
    rewrite Forall_forall in Hall. by apply Hall. }
  destruct applyChildPermissions.
  - apply expand_inv in He as (groups & Hg & ->).
    pose proof (applyChildCollections_derivedWrites permissions childCollectionsMap
                  groupNames order groups) as Hd.
    destruct (derivedWrites_dom _ _ _ _ gs Hd Hs) as [Hsome|(g & c & Hg' & ->)].
    + by eapply Hseed.
    + apply collectGroupIds_spec in Hg' as (p & Hp & Hn & <-). eauto.
  - unfold expand in He. destruct (seedGroups ∅ permissions) as [groups|] eqn:Hg; [|done].
    injection He as <-. by eapply Hseed.
Qed.

(** ** C6: the propagation toggle *)

(** C6. With the propagation toggle off the expander returns the seed and
    nothing else, whatever the tree, the group names and the ownership: the
    cells of the map are exactly the explicit edges, its groups exactly
    their groups; and [makeCollectionPermissionsGraphFromModel] then sends
    no request and returns that same seed. *)
Theorem toggle_off_identity `{Unicode} (permissions : list CollectionPermission)
    (childCollectionsMap : gmap Z CollectionInfo) (groupNames : gmap Z string)
    (order : Schedule) :
  expand permissions childCollectionsMap groupNames order false = seedGroups ∅ permissions
  ∧ (∀ graph,
       expand permissions childCollectionsMap groupNames order false = Ok graph →
       (∀ gs cs l, cell graph gs cs = Some l ↔
          ∃ p, p ∈ permissions ∧ keyOf p = (gs, cs) ∧ ValueString (Permission p) = l)
       ∧ (∀ gs, is_Some (graph !! gs) ↔ ∃ p, p ∈ permissions ∧ (keyOf p).1 = gs))
  ∧ (∀ data state client trace,
       Permissions data = Known permissions →
       ApplyChildCollectionsPermissions data = Known false →
       (makeCollectionPermissionsGraphFromModel data state client order trace).2 = trace
       ∧ ∀ body,
           (makeCollectionPermissionsGraphFromModel data state client order trace).1 = Ok body →
           seedGroups ∅ permissions = Ok (metabase.Groups body)).
Proof.
  assert (expand permissions childCollectionsMap groupNames order false
          = seedGroups ∅ permissions) as Heq.
  { unfold expand. by destruct (seedGroups ∅ permissions). }
  split; [done|]. split.
  - intros graph. rewrite Heq. intros Hs.
    apply seedGroups_spec in Hs as (_ & _ & _ & Hcell & Hdom & _). split.
    + intros gs cs l. rewrite Hcell. unfold cell at 1. rewrite lookup_empty. simpl.
      split; [by intros [?|?]|by right].
    + intros gs. rewrite Hdom. rewrite lookup_empty.
      split; [intros [[? ?]|?]; done|by right].
  - intros data state client trace Hp Hf.
    unfold makeCollectionPermissionsGraphFromModel, bind, lift, ret.
    rewrite Hp, Hf. simpl.
    destruct (seedGroups ∅ permissions) as [groups|] eqn:Hs; simpl.
    + destruct client; simpl; (split; [done|]); by intros body [= <-].
    + split; [done|]. by intros body.
Qed.

(** ** C10: the state filter keeps edges verbatim *)

(** C10. The state filter is a pure restriction: its output is a sublist of
    its input - every kept edge is an input edge with the same group,
    collection and level, in the same order - and an edge whose collection
    is null is always kept. *)
Theorem filter_is_restriction (permissions : PermissionSet)
    (childCollectionsMap : gmap Z CollectionInfo) :
  ∃ kept, filterPermissions permissions childCollectionsMap = Known kept
          ∧ sublist kept (Elements permissions)
          ∧ (∀ p, p ∈ kept → p ∈ Elements permissions)
          ∧ (∀ p, p ∈ Elements permissions → IsNull (Collection p) = true → p ∈ kept).
Proof.
  unfold filterPermissions. eexists. split; [done|].
  generalize (childCollectionIdsOf childCollectionsMap) as ids. intros ids.
  split; [|split].
  - induction (Elements permissions) as [|p l IH]; simpl; [constructor|].
    destruct (keepPermission ids p); by constructor.
  - intros p. rewrite !list_elem_of_In, filter_In. tauto.
  - intros p Hp Hn. rewrite list_elem_of_In, filter_In.
    split; [by apply list_elem_of_In|]. unfold keepPermission. by rewrite Hn.
Qed.

(** ** C7: step 3 upgrades, never downgrades *)

Lemma foldl_establish_inv {A B} (P Q : A → Prop) (f : A → B → A) (l : list B) (a : A) (b : B) :
  b ∈ l → P a →
  (∀ a b', b' ∈ l → P a → P (f a b')) →
  (∀ a, P a → Q (f a b)) →
  (∀ a b', b' ∈ l → Q a → Q (f a b')) →
  Q (foldl f a l).
Proof.
  revert a. induction l as [|x l IH] using rev_ind; intros a Hb Ha HP Hest Hpres.
  - by apply elem_of_nil in Hb.
  - rewrite foldl_app. simpl.
    apply elem_of_app in Hb as [Hb|Hb%list_elem_of_singleton].
    + apply Hpres; [apply elem_of_app; right; by apply list_elem_of_singleton|].
      apply IH; [done|done| |done|].
      * intros a' b' Hb'. apply HP. apply elem_of_app. by left.
      * intros a' b' Hb'. apply Hpres. apply elem_of_app. by left.
    + subst x. apply Hest.
      apply (foldl_invariant P); [done|].
      intros a' b' Hb'. apply HP. apply elem_of_app. by left.
Qed.

Lemma read_ne_write :
  Some metabase.CollectionPermissionLevelRead ≠ Some metabase.CollectionPermissionLevelWrite.
Proof. discriminate. Qed.

Section AnchorStep.
Context `{Unicode}.
Variable permissions : list CollectionPermission.
Variable groupNames : gmap Z string.
Variable order : Z → list Z.
Variable groupIdsSet : gset Z.

(** What one iteration of step 3 does to any one cell. *)
Lemma groupCollectionStep_cell c info (groups : Graph) g gs cs :
  let step := groupCollectionStep permissions groupNames c info groups g in
  cell step gs cs = cell groups gs cs
  ∨ (gs = FormatInt g ∧ cs = Itoa c
     ∧ isExplicitPermission permissions g (Itoa c) = false
     ∧ ((cell groups gs cs = None ∧ cell step gs cs = Some (derivedLevel groupNames info g))
        ∨ (cell groups gs cs = Some metabase.CollectionPermissionLevelRead
           ∧ nameMatches groupNames (Name info) g = true
           ∧ cell step gs cs = Some metabase.CollectionPermissionLevelWrite))).
Proof.
  intros step. subst step.
  destruct (groupCollectionStep_shape permissions groupNames c info groups g)
    as [->|(He & -> & Hpre)].
  - left. apply cell_ensureGroup.
  - rewrite cell_setPermission, cell_ensureGroup.
    destruct (decide _) as [[<- <-]|Hd]; [|by left].
    right. split; [done|]. split; [done|]. split; [done|].
    destruct Hpre as [Hn|[Hr Hw]]; [by left|].
    right. split; [done|]. split; [|by rewrite Hw].
    unfold derivedLevel in Hw. by destruct (nameMatches _ _ _).
Qed.

Lemma applyGroupCollections_cell childCollections groups0 gs cs :
  anchorCellInv permissions groupNames groupIdsSet childCollections groups0
    (applyGroupCollections permissions groupNames order groupIdsSet childCollections groups0) gs cs.
Proof.
  unfold applyGroupCollections.
  apply (foldl_invariant (fun groups => anchorCellInv permissions groupNames groupIdsSet childCollections groups0 groups gs cs));
    [by left|].
  intros groups1 [c info] Hin Hinv. unfold groupCollectionsEntry.
  destruct (isAnchor (ParentID info)) eqn:Ea; [|done].
  apply (foldl_invariant (fun groups => anchorCellInv permissions groupNames groupIdsSet childCollections groups0 groups gs cs));
    [done|].
  intros groups2 g Hg Hinv2.
  destruct (groupCollectionStep_cell c info groups2 g gs cs)
    as [Heq|(-> & -> & He & [[Hn Hs]|(Hr & Hm & Hw)])].
  - unfold anchorCellInv in *. rewrite Heq. done.
  - destruct Hinv2 as [Heq|[[H0 Hsome]|(_ & Hw & _)]].
    + right. left. split; [congruence|]. by rewrite Hs.
    + rewrite Hn in Hsome. by destruct Hsome.
    + congruence.
  - destruct Hinv2 as [Heq|[[H0 Hsome]|(_ & Hw' & _)]].
    + right. right. split; [congruence|]. split; [done|].
      exists g, c, info. apply rangeGroups_elem in Hg. done.
    + right. left. split; [done|]. by rewrite Hw.
    + exfalso. apply read_ne_write. congruence.
Qed.

(** C7. In step 3 (the direct children of Public and Draft), whatever the
    map it starts from: an explicit entry of a (group, collection) pair is
    never altered; an entry that holds [write] still holds [write]
    afterwards; any other entry keeps its level, except that a [read] entry
    may become [write], and only at a pair that is not explicit, of a group
    under consideration and a direct child whose normalized name equals the
    group's; and such a [read] entry does become [write]. *)
Theorem anchor_step_never_downgrades (childCollections : list (Z * CollectionInfo))
    (groups0 : Graph) :
  let groups3 :=
    applyGroupCollections permissions groupNames order groupIdsSet childCollections groups0 in
  (∀ g cs, isExplicitPermission permissions g cs = true →
     cell groups3 (FormatInt g) cs = cell groups0 (FormatInt g) cs)
  ∧ (∀ gs cs, cell groups0 gs cs = Some metabase.CollectionPermissionLevelWrite →
       cell groups3 gs cs = Some metabase.CollectionPermissionLevelWrite)
  ∧ (∀ gs cs l, cell groups0 gs cs = Some l →
       cell groups3 gs cs = Some l
       ∨ (l = metabase.CollectionPermissionLevelRead
          ∧ cell groups3 gs cs = Some metabase.CollectionPermissionLevelWrite
          ∧ ∃ g c info, gs = FormatInt g ∧ cs = Itoa c ∧ (c, info) ∈ childCollections
                        ∧ isAnchor (ParentID info) = true ∧ g ∈ groupIdsSet
                        ∧ isExplicitPermission permissions g cs = false
                        ∧ nameMatches groupNames (Name info) g = true))
  ∧ (∀ g c info, (c, info) ∈ childCollections → isAnchor (ParentID info) = true →
       g ∈ groupIdsSet → isExplicitPermission permissions g (Itoa c) = false →
       nameMatches groupNames (Name info) g = true →
       cell groups0 (FormatInt g) (Itoa c) = Some metabase.CollectionPermissionLevelRead →
       cell groups3 (FormatInt g) (Itoa c) = Some metabase.CollectionPermissionLevelWrite).
Proof.
  intros groups3. subst groups3.
  split; [|split; [|split]].
  - intros g cs He. eapply derivedWrites_explicit; [|done].
    apply applyGroupCollections_derivedWrites.
  - intros gs cs Hw.
    destruct (applyGroupCollections_cell childCollections groups0 gs cs)
      as [Heq|[[H0 _]|(H0 & _)]]; [congruence|congruence|].
    exfalso. apply read_ne_write. congruence.
  - intros gs cs l Hl.
    destruct (applyGroupCollections_cell childCollections groups0 gs cs)
      as [Heq|[[H0 _]|(H0 & Hw & Hex)]]; [left; congruence|congruence|].
    right. split; [congruence|]. done.
  - intros g c info Hin Ha Hg He Hm Hr.
    set (P := fun groups : Graph =>
           cell groups (FormatInt g) (Itoa c) = Some metabase.CollectionPermissionLevelRead
           ∨ cell groups (FormatInt g) (Itoa c) = Some metabase.CollectionPermissionLevelWrite).
    set (Q := fun groups : Graph =>
           cell groups (FormatInt g) (Itoa c) = Some metabase.CollectionPermissionLevelWrite).
    assert (∀ c' info' groups g',
      P groups → P (groupCollectionStep permissions groupNames c' info' groups g')) as HPstep.
    { intros c' info' groups g' HP.
      destruct (groupCollectionStep_cell c' info' groups g' (FormatInt g) (Itoa c))
        as [Heq|(_ & _ & _ & [[Hn _]|(_ & _ & Hw)])].
      - unfold P. by rewrite Heq.
      - unfold P in HP. rewrite Hn in HP. by destruct HP.
      - by right. }
    assert (∀ c' info' groups g',
      Q groups → Q (groupCollectionStep permissions groupNames c' info' groups g')) as HQstep.
    { intros c' info' groups g' HQ.
      destruct (groupCollectionStep_cell c' info' groups g' (FormatInt g) (Itoa c))
        as [Heq|(_ & _ & _ & [[Hn _]|(Hr' & _ & _)])].
      - unfold Q. by rewrite Heq.
      - unfold Q in HQ. congruence.
      - unfold Q in HQ. exfalso. apply read_ne_write. congruence. }
    assert (∀ (R : Graph → Prop),
      (∀ c' info' groups g', R groups →
         R (groupCollectionStep permissions groupNames c' info' groups g')) →
      ∀ groups entry, R groups →
         R (groupCollectionsEntry permissions groupNames order groupIdsSet groups entry)) as Hentry.
    { intros R HR groups [c' info'] HRg. unfold groupCollectionsEntry.
      destruct (isAnchor (ParentID info')); [|done].
      apply (foldl_invariant R); [done|]. intros ? ? _. apply HR. }
    unfold applyGroupCollections.
    apply (foldl_establish_inv P Q _ _ _ (c, info)); [done|by left| | |].
    + intros groups b' _. by apply Hentry.
    + intros groups HP. unfold groupCollectionsEntry. rewrite Ha.
      apply (foldl_establish_inv P Q _ _ _ g); [by apply rangeGroups_elem|done| | |].
      * intros ? ? _. apply HPstep.
      * intros groups1 HP1. unfold Q, groupCollectionStep.
        rewrite He, cell_ensureGroup. unfold nameMatches in Hm |- *.
        destruct HP1 as [Hc|Hc]; rewrite Hc.
        -- destruct (groupNames !! g); [|done]. rewrite Hm. simpl.
           rewrite cell_setPermission. by rewrite decide_True.
        -- simpl. by rewrite cell_ensureGroup.
      * intros ? ? _. apply HQstep.
    + intros groups b' _. by apply Hentry.
Qed.

End AnchorStep.

(** ** The requests of the handlers *)

Lemma fetchGroupNames_trace client groupIds : ∀ groupNames trace,
  ∃ names, fetchGroupNames client groupIds groupNames trace
           = (Ok names, trace ++ (GetPermissionsGroup <$> groupIds)).
Proof.
  induction groupIds as [|g rest IH]; intros groupNames trace; simpl.
  - exists groupNames. unfold ret. by rewrite app_nil_r.
  - destruct (IH (match getGroup client trace g with
                  | Some name => <[g:=name]> groupNames
                  | None => groupNames
                  end) (trace ++ [GetPermissionsGroup g])) as [names Hn].
    exists names. rewrite Hn. by rewrite <- app_assoc.
Qed.

Lemma readsOnly_groupLookups groupIds : readsOnly (GetPermissionsGroup <$> groupIds).
Proof. unfold readsOnly. apply Forall_fmap. by apply Forall_true. Qed.

Section Handlers.
Context `{Unicode}.

Lemma Permissions_withDefaultFlag data :
  Permissions (withDefaultFlag data) = Permissions data.
Proof. unfold withDefaultFlag. by destruct (_ || _). Qed.

(** The graph builder sends reads only, uses the recorded revision as the
    base when there is a recorded state, and fails without sending anything
    when the plan has a duplicate pair. *)
Lemma makeGraph_trace data state client order trace :
  ∃ reads, readsOnly reads
    ∧ (makeCollectionPermissionsGraphFromModel data state client order trace).2
      = trace ++ reads
    ∧ ∀ body,
        (makeCollectionPermissionsGraphFromModel data state client order trace).1 = Ok body →
        metabase.Revision body
        = match state with
          | Some state => ValueInt64 (Revision state)
          | None => ValueInt64 (Revision data)
          end.
Proof.
  unfold makeCollectionPermissionsGraphFromModel, bind, lift, ret.
  destruct (ElementsAs (Permissions data)) as [permissions|] eqn:Hp; simpl.
  2:{ exists []. rewrite app_nil_r. split; [constructor|]. split; [done|]. by intros. }
  destruct (seedGroups ∅ permissions) as [groups|] eqn:Hs; simpl.
  2:{ exists []. rewrite app_nil_r. split; [constructor|]. split; [done|]. by intros. }
  destruct client as [client|].
  2:{ exists []. rewrite app_nil_r. split; [constructor|]. split; [done|].
      by intros body [= <-]. }
  destruct (if _ && _ then _ else true).
  2:{ exists []. rewrite app_nil_r. split; [constructor|]. split; [done|].
      by intros body [= <-]. }
  unfold fetchChildCollections, bind, send, ret.
  destruct (listCollections client trace) as [collections|]; simpl.
  - destruct (fetchGroupNames_trace client (collectGroupIds permissions).2 ∅
                (trace ++ [ListCollections])) as [names Hn].
    rewrite Hn. simpl.
    exists (ListCollections :: (GetPermissionsGroup <$> (collectGroupIds permissions).2)).
    split; [constructor; [done|apply readsOnly_groupLookups]|].
    split; [by rewrite <- app_assoc|]. by intros body [= <-].
  - exists [ListCollections]. split; [by repeat constructor|]. split; [done|]. by intros.
Qed.

Lemma makeGraph_duplicate data state client order trace permissions :
  Permissions data = Known permissions →
  ¬ NoDup (keyOf <$> permissions) →
  ∃ s d, makeCollectionPermissionsGraphFromModel data state client order trace
         = (Error s d, trace).
Proof.
  intros Hp Hdup.
  destruct (seedGroups_duplicate permissions ∅ Hdup) as (s & d & Hs).
  exists s, d. unfold makeCollectionPermissionsGraphFromModel, bind, lift.
  rewrite Hp. simpl. by rewrite Hs.
Qed.

End Handlers.

(** ** C4: duplicate pairs in the declared input *)

(** C4 does not hold as stated: on a plan with a duplicate pair, Create has
    already sent the read of the current graph when the duplicate is
    found. *)
Lemma create_reads_before_duplicate_check :
  ¬ NoDup (keyOf <$> Elements (Permissions Scenario.duplicatePlan))
  ∧ ¬ failsBeforeAnyRequest
        (@Create ascii_unicode Scenario.client Scenario.order Scenario.duplicatePlan)
  ∧ (@Create ascii_unicode Scenario.client Scenario.order Scenario.duplicatePlan []).2
    = [GetCollectionPermissionsGraph].
Proof.
  split; [|split].
  - apply (proj1 (bool_decide_eq_false _)). by vm_compute.
  - intros [_ Ht]. vm_compute in Ht. discriminate Ht.
  - by vm_compute.
Qed.

(** C4, amended. A plan with two edges for one (group, collection) pair
    makes the graph builder fail before it sends any request, hence before
    any write: Create fails having sent only its initial read of the current
    graph, and Update, when it detects a change against the recorded state,
    fails having sent nothing.  (An Update that detects no change does not
    build the graph: it sends nothing and reports no error.) *)
Theorem duplicate_fails_before_write `{Unicode} (client : Client) (order : Schedule)
    (plan state : CollectionGraphResourceModel) (trace : list Request)
    (permissions : list CollectionPermission) :
  Permissions plan = Known permissions →
  ¬ NoDup (keyOf <$> permissions) →
  ((∃ s d, (Create client order plan trace).1 = Error s d)
   ∧ (Create client order plan trace).2 = trace ++ [GetCollectionPermissionsGraph])
  ∧ (permissionsChanged (withDefaultFlag plan) state
     || flagChanged (withDefaultFlag plan) state = true →
     ∃ s d, Update client order plan state trace = (Error s d, trace))
  ∧ (permissionsChanged (withDefaultFlag plan) state
     || flagChanged (withDefaultFlag plan) state = false →
     Update client order plan state trace
     = (Ok (withRevision (withDefaultFlag plan) (Revision state)), trace)).
Proof.
  intros Hp Hdup.
  assert (Permissions (withDefaultFlag plan) = Known permissions) as Hp'
    by (by rewrite Permissions_withDefaultFlag).
  split; [|split].
  - unfold Create, bind, send.
    destruct (getGraph client trace) as [resp|]; simpl; [|eauto].
    edestruct (makeGraph_duplicate
                 (withRevision (withDefaultFlag plan) (Known (metabase.Revision resp))))
      as (s & d & Hm); [exact Hp'|exact Hdup|].
    rewrite Hm. simpl. eauto.
  - intros Hc. unfold Update. rewrite Hc. unfold bind.
    edestruct (makeGraph_duplicate (withDefaultFlag plan)) as (s & d & Hm);
      [exact Hp'|exact Hdup|].
    rewrite Hm. eauto.
  - intros Hc. unfold Update. by rewrite Hc.
Qed.

Lemma duplicate_fails_before_write_witness :
  ¬ NoDup (keyOf <$> [Scenario.edge 7 "root" "read"; Scenario.edge 7 "root" "write"])
  ∧ (∃ s d, (@Create ascii_unicode Scenario.client Scenario.order
               Scenario.duplicatePlan []).1 = Error s d)
  ∧ (∃ s d, @Update ascii_unicode Scenario.client Scenario.order Scenario.duplicatePlan
              (Scenario.model (Known 41) [] (Known true)) [] = (Error s d, [])).
Proof.
  assert (¬ NoDup (keyOf <$> [Scenario.edge 7 "root" "read"; Scenario.edge 7 "root" "write"]))
    as Hdup.
  { apply (proj1 (bool_decide_eq_false _)). by vm_compute. }
  split; [exact Hdup|].
  destruct (@duplicate_fails_before_write ascii_unicode Scenario.client Scenario.order
              Scenario.duplicatePlan (Scenario.model (Known 41) [] (Known true)) []
              _ eq_refl Hdup) as ([Hc _] & Hu & _).
  split; [exact Hc|]. apply Hu. reflexivity.
Defined.

(** ** C5: the no-op path of Update *)

(** C5 does not hold as stated: a recorded state without a toggle (null)
    and a plan that turns the toggle off differ in the toggle, yet Update
    sends no write. *)
Lemma update_skips_write_when_recorded_toggle_is_null :
  let plan := Scenario.model Null [Scenario.edge 8 "root" "read"] (Known false) in
  let state := Scenario.model (Known 41) [Scenario.edge 8 "root" "read"] Null in
  attr_Equal Bool.eqb (ApplyChildCollectionsPermissions plan)
                      (ApplyChildCollectionsPermissions state) = false
  ∧ @Update ascii_unicode Scenario.client Scenario.order plan state []
    = (Ok (withRevision plan (Known 41)), []).
Proof. split; reflexivity. Qed.

(** C5, amended. Update detects a change when the planned edge set is not
    equal to the recorded one, or when the planned toggle (true when
    absent) and the recorded toggle are both non-null and differ.  When it
    detects none, it sends no request and the new state carries the
    recorded revision.  Otherwise it builds the graph on the recorded
    revision, sending reads only; if building fails the operation fails
    without a write, and if it succeeds exactly one write follows, carrying
    the recorded revision, and the new state takes the revision of the
    server's answer. *)
Theorem update_noop_path `{Unicode} (client : Client) (order : Schedule)
    (plan state : CollectionGraphResourceModel) (trace : list Request) :
  let data := withDefaultFlag plan in
  (permissionsChanged data state = false → flagChanged data state = false →
   Update client order plan state trace = (Ok (withRevision data (Revision state)), trace))
  ∧ (permissionsChanged data state || flagChanged data state = true →
     ∃ reads, readsOnly reads ∧
       match (makeCollectionPermissionsGraphFromModel data (Some state) (Some client)
                order trace).1 with
       | Ok body =>
           metabase.Revision body = ValueInt64 (Revision state)
           ∧ (Update client order plan state trace).2
             = trace ++ reads ++ [ReplaceCollectionPermissionsGraph body]
           ∧ (Update client order plan state trace).1
             = match replaceGraph client (trace ++ reads) body with
               | Some updateResp =>
                   Ok (withRevision data (Known (metabase.Revision updateResp)))
               | None => Error "update collection graph" ""
               end
       | Error s d => Update client order plan state trace = (Error s d, trace ++ reads)
       end).
Proof.
  intros data. split.
  - intros Hp Hf. unfold Update. fold data. by rewrite Hp, Hf.
  - intros Hc. unfold Update. fold data. rewrite Hc.
    destruct (makeGraph_trace data (Some state) (Some client) order trace)
      as (reads & Hreads & Htrace & Hrev).
    exists reads. split; [done|].
    unfold bind, send, ret.
    destruct (makeCollectionPermissionsGraphFromModel data (Some state) (Some client)
                order trace) as [[body|s d] trace'] eqn:Hm; simpl in *; subst trace'.
    + split; [by apply Hrev|].
      destruct (replaceGraph client (trace ++ reads) body); simpl;
        by rewrite <- app_assoc.
    + done.
Qed.

(** ** [Atoi] reads back what [FormatInt] prints *)

Lemma digit_of_pretty_N_char d :
  (d < 10)%N → digit_of (pretty_N_char d) = Some (Z.of_N d).
Proof.
  intros Hd.
  assert (d = 0 ∨ d = 1 ∨ d = 2 ∨ d = 3 ∨ d = 4 ∨ d = 5 ∨ d = 6 ∨ d = 7 ∨ d = 8 ∨ d = 9)%N
    as Hcases by lia.
  repeat (destruct Hcases as [->|Hcases]; [reflexivity|]). by subst d.
Qed.

Lemma parse_digits_pretty_N_go x :
  ∃ p, ∀ acc s,
    parse_digits acc (pretty_N_go x s) = parse_digits (acc * p + Z.of_N x) s.
Proof.
  induction (N.lt_wf_0 x) as [x _ IH].
  destruct (decide (x = 0)%N) as [->|Hx].
  - exists 1. intros acc s. rewrite pretty_N_go_0. f_equal. lia.
  - destruct (IH (x `div` 10)%N) as [p Hp]; [apply N.div_lt; lia|].
    exists (p * 10). intros acc s.
    rewrite pretty_N_go_step by lia. rewrite Hp. simpl.
    rewrite digit_of_pretty_N_char by (apply N.mod_lt; lia).
    f_equal. pose proof (N.div_mod x 10). lia.
Qed.

Lemma parse_digits_pretty_N x :
  parse_digits 0 (pretty_N_go x "") = Some (Z.of_N x).
Proof.
  destruct (parse_digits_pretty_N_go x) as [p Hp]. rewrite Hp. simpl. done.
Qed.

Lemma Atoi_digits s n :
  s ≠ "" → parse_digits 0 s = Some n →
  Atoi s = if in_int64 n then Some n else None.
Proof.
  destruct s as [|a r]; [done|]. intros _ Hp. unfold Atoi.
  assert (Ascii.eqb a "-" = false ∧ Ascii.eqb a "+" = false) as [-> ->].
  { simpl in Hp. split; apply Ascii.eqb_neq; intros ->; by vm_compute in Hp. }
  by rewrite Hp.
Qed.

Lemma Atoi_minus_digits r n :
  r ≠ "" → parse_digits 0 r = Some n →
  Atoi (String "-"%char r) = if in_int64 (- n) then Some (- n) else None.
Proof.
  intros Hne Hp. unfold Atoi. rewrite Ascii.eqb_refl.
  destruct r as [|a r']; [done|]. by rewrite Hp.
Qed.

Lemma pretty_N_go_nonempty x : (0 < x)%N → pretty_N_go x "" ≠ "".
Proof.
  intros Hx Heq. pose proof (parse_digits_pretty_N x) as Hp.
  rewrite Heq in Hp. simpl in Hp. injection Hp. lia.
Qed.

Lemma Atoi_FormatInt z : in_int64 z = true → Atoi (FormatInt z) = Some z.
Proof.
  intros Hr. unfold FormatInt, pretty, pretty_Z.
  destruct z as [|x|x].
  - reflexivity.
  - unfold pretty, pretty_positive, pretty, pretty_N.
    rewrite decide_False by done.
    rewrite (Atoi_digits _ (Z.pos x)); [by rewrite Hr| |].
    + by apply pretty_N_go_nonempty.
    + apply (parse_digits_pretty_N (N.pos x)).
  - unfold pretty, pretty_positive, pretty, pretty_N.
    rewrite decide_False by done.
    change ("-" +:+ pretty_N_go (N.pos x) "")
      with (String "-"%char (pretty_N_go (N.pos x) "")).
    rewrite (Atoi_minus_digits _ (Z.pos x)).
    + change (- Z.pos x) with (Z.neg x). by rewrite Hr.
    + by apply pretty_N_go_nonempty.
    + apply (parse_digits_pretty_N (N.pos x)).
Qed.

(** ** The edges of a graph *)

Lemma groupPermissions_parsed g (m : gmap string string) :
  in_int64 g = true →
  groupPermissions (FormatInt g, m)
  = (fun cl : string * string =>
       {| Group := Known g; Collection := Known cl.1; Permission := Known cl.2 |})
    <$> map_to_list m.
Proof.
  intros Hr. unfold groupPermissions, makePermissionObjectFromPermission. simpl.
  rewrite Atoi_FormatInt by done.
  induction (map_to_list m) as [|cl l IH]; [done|].
  csimpl. by f_equal.
Qed.

Lemma graphPermissions_elem groups p :
  wellKeyed groups →
  p ∈ graphPermissions groups ↔
  ∃ g cs l, p = {| Group := Known g; Collection := Known cs; Permission := Known l |}
            ∧ in_int64 g = true ∧ cell groups (FormatInt g) cs = Some l.
Proof.
  intros Hwk. unfold graphPermissions. rewrite list_elem_of_bind. split.
  - intros ([gs m] & Hp & Hin). apply elem_of_map_to_list in Hin.
    destruct (Hwk gs) as (g & Hr & ->); [by rewrite Hin|].
    rewrite groupPermissions_parsed in Hp by done.
    apply list_elem_of_fmap in Hp as ([cs l] & -> & Hcl).
    apply elem_of_map_to_list in Hcl. simpl.
    exists g, cs, l. split; [done|]. split; [done|].
    unfold cell. by rewrite Hin.
  - intros (g & cs & l & -> & Hr & Hc). unfold cell in Hc.
    destruct (groups !! FormatInt g) as [m|] eqn:Hm; [|done]. simpl in Hc.
    exists (FormatInt g, m). split; [|by apply elem_of_map_to_list].
    rewrite groupPermissions_parsed by done.
    apply list_elem_of_fmap. exists (cs, l). split; [done|].
    by apply elem_of_map_to_list.
Qed.

Lemma graphPermissions_notNull groups :
  wellKeyed groups → Forall notNull (graphPermissions groups).
Proof.
  intros Hwk. apply Forall_forall. intros p Hp.
  apply graphPermissions_elem in Hp as (g & cs & l & -> & _); done.
Qed.

Lemma fmap_list_bind {A B C} (f : B → C) (g : A → list B) (l : list A) :
  f <$> (l ≫= g) = l ≫= (fun x => f <$> g x).
Proof.
  induction l as [|x l IH]; [done|].
  rewrite !bind_cons, fmap_app. by rewrite IH.
Qed.

Lemma graphPermissions_NoDup groups :
  wellKeyed groups → NoDup (keyOf <$> graphPermissions groups).
Proof.
  intros Hwk. unfold graphPermissions. rewrite fmap_list_bind.
  apply NoDup_bind; [| |apply NoDup_map_to_list].
  - intros [gs1 m1] [gs2 m2] key H1 H2 Hk1 Hk2.
    apply elem_of_map_to_list in H1, H2.
    destruct (Hwk gs1) as (g1 & Hr1 & ->); [by rewrite H1|].
    destruct (Hwk gs2) as (g2 & Hr2 & ->); [by rewrite H2|].
    simpl in Hk1, Hk2. rewrite groupPermissions_parsed in Hk1, Hk2 by done.
    rewrite <- list_fmap_compose in Hk1, Hk2.
    apply list_elem_of_fmap in Hk1 as (cl1 & -> & _).
    apply list_elem_of_fmap in Hk2 as (cl2 & Heq & _).
    unfold keyOf in Heq. simpl in Heq. injection Heq as Hg _.
    apply FormatInt_inj in Hg as ->. congruence.
  - intros [gs m] Hin. apply elem_of_map_to_list in Hin.
    destruct (Hwk gs) as (g & Hr & ->); [by rewrite Hin|].
    simpl. rewrite groupPermissions_parsed by done.
    rewrite <- list_fmap_compose.
    apply NoDup_fmap_2_strong; [|apply NoDup_map_to_list].
    intros [c1 l1] [c2 l2] Hc1 Hc2 Heq.
    apply elem_of_map_to_list in Hc1, Hc2.
    unfold keyOf in Heq. simpl in Heq. injection Heq as ->. congruence.
Qed.

(** Seeding the edges of a graph gives the graph back. *)
Lemma seedGroups_graphPermissions groups :
  wellKeyed groups → noEmptyGroup groups →
  seedGroups ∅ (graphPermissions groups) = Ok groups.
Proof.
  intros Hwk Hne.
  destruct (seedGroups_total (graphPermissions groups) ∅) as [groups' Hs].
  { by apply graphPermissions_notNull. }
  { by apply graphPermissions_NoDup. }
  { intros p _. unfold cell. by rewrite lookup_empty. }
  rewrite Hs. f_equal.
  apply seedGroups_spec in Hs as (_ & _ & _ & Hcell & Hdom & Hne').
  apply graph_eq; [apply Hne'; by intros gs m; rewrite lookup_empty|done|].
  intros gs cs. apply option_eq. intros l. rewrite Hcell.
  unfold cell at 1. rewrite lookup_empty. simpl. split.
  - intros [?|(p & Hp & Hk & Hl)]; [done|].
    apply graphPermissions_elem in Hp as (g & cs' & l' & -> & _ & Hc); [|done].
    unfold keyOf in Hk. simpl in *. injection Hk as <- <-. by subst.
  - intros Hc. right.
    destruct (Hwk gs) as (g & Hr & ->).
    { unfold cell in Hc. by destruct (groups !! gs). }
    exists {| Group := Known g; Collection := Known cs; Permission := Known l |}.
    split; [|done]. apply graphPermissions_elem; [done|]. eauto 10.
Qed.

(** ** Step 4, collection by collection *)

Section RecursiveStep.
Context `{Unicode}.
Variable permissions : list CollectionPermission.
Variable collectionIdToGroupId : gmap Z Z.
Variable order : Z → list Z.
Variable groupIdsSet : gset Z.

Lemma recursiveEntry_derivedWrites groups c info :
  derivedWrites permissions (fun g c' => g ∈ groupIdsSet ∧ c' = c) groups
    (recursiveEntry permissions collectionIdToGroupId order groupIdsSet groups (c, info)).
Proof.
  destruct (recursiveEntry_cases permissions collectionIdToGroupId order groupIdsSet groups c info)
    as [[-> _]|(owner & Ht & ->)]; [constructor|].
  apply (foldl_invariant (derivedWrites permissions _ groups)); [constructor|].
  intros groups2 g Hg Hd2.
  eapply derivedWrites_step; [done| |apply recursiveStep_derivedWrite].
  split; [by apply rangeGroups_elem in Hg|done].
Qed.

Lemma recursiveEntry_other groups c info gs c0 :
  c ≠ c0 →
  cell (recursiveEntry permissions collectionIdToGroupId order groupIdsSet groups (c, info))
       gs (Itoa c0)
  = cell groups gs (Itoa c0).
Proof.
  intros Hne.
  destruct (derivedWrites_cell _ _ _ _ gs (Itoa c0)
              (recursiveEntry_derivedWrites groups c info))
    as [Heq|(g & c' & [_ ->] & _ & Hc & _)]; [done|].
  apply Itoa_inj in Hc. congruence.
Qed.

Lemma isExplicit_inPlan g cs :
  isExplicitPermission permissions g cs = true →
  isChildCollectionInPlan permissions cs = true.
Proof.
  unfold isExplicitPermission, isChildCollectionInPlan.
  rewrite !existsb_exists. intros (p & Hp & Hb). exists p. split; [done|].
  apply andb_prop in Hb as [Hb Hc]. apply andb_prop in Hb as [Hb _].
  by rewrite Hb, Hc.
Qed.

(** At a collection step 4 propagates to, every group under consideration
    ends with the derived level: [write] for the owner, [read] otherwise. *)
Lemma recursiveEntry_target groups c info owner g :
  recursiveTarget permissions collectionIdToGroupId c info owner →
  g ∈ groupIdsSet →
  cell (recursiveEntry permissions collectionIdToGroupId order groupIdsSet groups (c, info))
       (FormatInt g) (Itoa c)
  = Some (if g =? owner then metabase.CollectionPermissionLevelWrite
          else metabase.CollectionPermissionLevelRead).
Proof.
  intros Ht Hg.
  destruct (recursiveEntry_cases permissions collectionIdToGroupId order groupIdsSet groups c info)
    as [[_ Hno]|(owner' & Ht' & ->)]; [exfalso; eauto|].
  assert (owner' = owner) as ->.
  { destruct Ht as (_ & _ & Ho & _), Ht' as (_ & _ & Ho' & _). congruence. }
  assert (∀ g', isExplicitPermission permissions g' (Itoa c) = false) as Hne.
  { intros g'. destruct (isExplicitPermission permissions g' (Itoa c)) eqn:He; [|done].
    apply isExplicit_inPlan in He. destruct Ht as (_ & _ & _ & Hp). congruence. }
  apply (foldl_establish
           (fun groups => cell groups (FormatInt g) (Itoa c) = Some _) _ _ _ g).
  - by apply rangeGroups_elem.
  - intros groups1.
    destruct (recursiveStep_shape permissions owner c groups1 g) as [[He _]|[_ ->]].
    + by rewrite Hne in He.
    + rewrite cell_setPermission. by rewrite decide_True.
  - intros groups1 g' _ Hq.
    destruct (recursiveStep_shape permissions owner c groups1 g') as [[He _]|[_ ->]].
    + by rewrite Hne in He.
    + rewrite cell_setPermission, cell_ensureGroup.
      destruct (decide _) as [[Hg' _]|_]; [|done].
      apply FormatInt_inj in Hg' as ->. done.
Qed.

Lemma applyRecursive_target (childCollections : list (Z * CollectionInfo))
    groups c info owner g :
  (c, info) ∈ childCollections →
  (∀ info', (c, info') ∈ childCollections → info' = info) →
  recursiveTarget permissions collectionIdToGroupId c info owner →
  g ∈ groupIdsSet →
  cell (applyRecursive permissions collectionIdToGroupId order groupIdsSet
          childCollections groups)
       (FormatInt g) (Itoa c)
  = Some (if g =? owner then metabase.CollectionPermissionLevelWrite
          else metabase.CollectionPermissionLevelRead).
Proof.
  intros Hc Hfun Ht Hg. unfold applyRecursive.
  apply (foldl_establish
           (fun groups => cell groups (FormatInt g) (Itoa c) = Some _) _ _ _ (c, info)).
  - done.
  - intros groups1. by apply recursiveEntry_target.
  - intros groups1 [c' info'] Hin Hq.
    destruct (decide (c' = c)) as [->|Hne].
    + apply Hfun in Hin as ->. by apply recursiveEntry_target.
    + by rewrite recursiveEntry_other.
Qed.

End RecursiveStep.

(** ** C2: propagation below the group collections *)

Lemma applyChildCollections_derivedWrites_precise `{Unicode} permissions
    (childCollectionsMap : gmap Z CollectionInfo) groupNames (order : Schedule) groups :
  derivedWrites permissions
    (fun g c =>
       allowedGroupCollection (groupIdsSetOf permissions)
         (rangeMap (groupCollections order) childCollectionsMap) g c
       ∨ allowedRecursive permissions
           (ownershipOf permissions childCollectionsMap groupNames order)
           (groupIdsSetOf permissions)
           (rangeMap (recursiveCollections order) childCollectionsMap) g c)
    groups
    (applyChildCollections permissions childCollectionsMap groupNames order groups).
Proof.
  unfold applyChildCollections.
  eapply derivedWrites_trans.
  - eapply derivedWrites_mono; [|apply applyGroupCollections_derivedWrites].
    intros g c Ha. left. exact Ha.
  - eapply derivedWrites_mono; [|apply applyRecursive_derivedWrites].
    intros g c Ha. right. exact Ha.
Qed.

(** C2 does not hold as stated: collection 60 lies under the group
    collection 16 that group 7 owns, the pair (8, 60) is not explicit, and
    yet group 8 receives nothing at 60, because group 7 declares 60. *)
Lemma explicit_declaration_suppresses_other_groups :
  let permissions := [Scenario.edge 7 "60" "read"; Scenario.edge 8 "root" "read"] in
  @expand ascii_unicode permissions Scenario.tree Scenario.names Scenario.order true
  = Ok (scenarioGraph permissions)
  ∧ 8 ∈ groupIdsSetOf permissions
  ∧ groupCollectionIdFromLocation "/5/16/" = 16
  ∧ @ownershipOf ascii_unicode permissions Scenario.tree Scenario.names Scenario.order
      !! 16 = Some 7
  ∧ isExplicitPermission permissions 8 (Itoa 60) = false
  ∧ cell (scenarioGraph permissions) (FormatInt 8) (Itoa 60) = None.
Proof.
  intros permissions.
  split; [by vm_compute|].
  split; [apply (bool_decide_unpack _); by vm_compute|].
  repeat split; by vm_compute.
Qed.

(** C2, amended. Step 4 works collection by collection.  A collection of
    the tree whose location lies under an owned group collection and that
    no explicit edge mentions, for any group, gets an entry for every group
    under consideration: [write] for the owning group, [read] for every
    other.  A collection that some explicit edge mentions - for whatever
    group - and that is no direct child of Public or Draft gets no derived
    entry at all: its entries are the explicit ones. *)
Theorem recursive_propagation_per_collection `{Unicode}
    (permissions : list CollectionPermission)
    (childCollectionsMap : gmap Z CollectionInfo) (groupNames : gmap Z string)
    (order : Schedule) (graph : Graph) (c : Z) (info : CollectionInfo) :
  expand permissions childCollectionsMap groupNames order true = Ok graph →
  childCollectionsMap !! c = Some info →
  (∀ owner g,
     recursiveTarget permissions
       (ownershipOf permissions childCollectionsMap groupNames order) c info owner →
     g ∈ groupIdsSetOf permissions →
     cell graph (FormatInt g) (Itoa c)
     = Some (if g =? owner then metabase.CollectionPermissionLevelWrite
             else metabase.CollectionPermissionLevelRead))
  ∧ (isChildCollectionInPlan permissions (Itoa c) = true →
     isAnchor (ParentID info) = false →
     ∃ seed, seedGroups ∅ permissions = Ok seed
             ∧ ∀ gs, cell graph gs (Itoa c) = cell seed gs (Itoa c)).
Proof.
  intros He Hc. apply expand_inv in He as (seed & Hs & ->). split.
  - intros owner g Ht Hg. unfold applyChildCollections.
    eapply applyRecursive_target; [by apply rangeMap_elem| |done|done].
    intros info' Hin%rangeMap_elem. congruence.
  - intros Hp Ha. exists seed. split; [done|]. intros gs.
    destruct (derivedWrites_cell _ _ _ _ gs (Itoa c)
                (applyChildCollections_derivedWrites_precise permissions
                   childCollectionsMap groupNames order seed))
      as [Heq|(g & c' & Hall & _ & Hcs & _)]; [done|].
    apply Itoa_inj in Hcs as <-.
    destruct Hall as [(_ & info' & Hin & Ha')|(_ & info' & owner & Hin & Ht)].
    + apply rangeMap_elem in Hin. congruence.
    + destruct Ht as (_ & _ & _ & Hp'). congruence.
Qed.

Lemma recursive_propagation_per_collection_witness :
  let permissions := [Scenario.edge 7 "root" "read"; Scenario.edge 8 "root" "read"] in
  cell (scenarioGraph permissions) (FormatInt 7) (Itoa 60) = Some "write"
  ∧ cell (scenarioGraph permissions) (FormatInt 8) (Itoa 60) = Some "read".
Proof.
  intros permissions.
  assert (@expand ascii_unicode permissions Scenario.tree Scenario.names Scenario.order true
          = Ok (scenarioGraph permissions)) as He by (by vm_compute).
  assert (Scenario.tree !! 60
          = Some {| ID := 60; ParentID := 16; Name := "Reports"; Location := "/5/16/" |})
    as Hc by (by vm_compute).
  destruct (@recursive_propagation_per_collection ascii_unicode permissions Scenario.tree
              Scenario.names Scenario.order _ 60 _ He Hc) as [Hw _].
  assert (recursiveTarget permissions
            (@ownershipOf ascii_unicode permissions Scenario.tree Scenario.names
               Scenario.order)
            60 {| ID := 60; ParentID := 16; Name := "Reports"; Location := "/5/16/" |} 7)
    as Ht.
  { repeat split; by vm_compute. }
  split.
  - apply (Hw 7 7 Ht). apply (bool_decide_unpack _). by vm_compute.
  - apply (Hw 7 8 Ht). apply (bool_decide_unpack _). by vm_compute.
Defined.

(** ** Locations below a group collection *)

Lemma HasPrefix_3 (loc : string) (c1 c2 c3 : ascii) :
  HasPrefix loc (String c1 (String c2 (String c3 ""))) = true →
  ∃ rest, loc = String c1 (String c2 (String c3 rest)).
Proof.
  unfold HasPrefix. destruct loc as [|a1 [|a2 [|a3 rest]]]; simpl; intros Hp;
    repeat match type of Hp with
           | context [ascii_dec ?a ?b] => destruct (ascii_dec a b)
           end;
    try discriminate Hp.
  subst. eauto.
Qed.

Lemma TrimRight_keeps_head (a : ascii) (r : string) (c : ascii) :
  a ≠ c → ∃ r', TrimRight (String a r) c = String a r'.
Proof.
  intros Hne. simpl. destruct (TrimRight r c); [|eauto].
  apply Ascii.eqb_neq in Hne. rewrite Hne. eauto.
Qed.

Lemma Split_head_nonempty (s : string) (c : ascii) part0 parts :
  Split s c = part0 :: parts → part0 ≠ "" →
  ∃ a r, s = String a r ∧ a ≠ c.
Proof.
  destruct s as [|a r]; simpl.
  - intros [= <- _] Hne. done.
  - destruct (Ascii.eqb a c) eqn:Ea.
    + intros [= <- _] Hne. done.
    + intros _ _. exists a, r. split; [done|]. by apply Ascii.eqb_neq.
Qed.

Lemma firstPartId_nonneg parts :
  0 ≤ firstPartId parts → ∃ part0 rest, parts = part0 :: rest ∧ part0 ≠ "".
Proof.
  unfold firstPartId. destruct parts as [|part0 rest]; [lia|].
  destruct (String.eqb part0 "") eqn:Ep; [lia|].
  intros _. exists part0, rest. split; [done|]. by apply String.eqb_neq.
Qed.

Lemma TrimLeft_eq (r : string) (c : ascii) : TrimLeft (String c r) c = TrimLeft r c.
Proof. simpl. by rewrite Ascii.eqb_refl. Qed.

Lemma TrimLeft_ne (a : ascii) (r : string) (c : ascii) :
  a ≠ c → TrimLeft (String a r) c = String a r.
Proof. intros Hne%Ascii.eqb_neq. simpl. by rewrite Hne. Qed.

Lemma TrimRight_cons (a b : ascii) (x r' : string) (c : ascii) :
  TrimRight x c = String b r' → TrimRight (String a x) c = String a (String b r').
Proof. intros Hx. simpl. by rewrite Hx. Qed.

Lemma Split_cons_eq (r : string) (c : ascii) : Split (String c r) c = "" :: Split r c.
Proof. simpl. by rewrite Ascii.eqb_refl. Qed.

Lemma Split_cons_ne (a : ascii) (r : string) (c : ascii) :
  a ≠ c → ∃ h t, Split r c = h :: t ∧ Split (String a r) c = String a h :: t.
Proof.
  intros Hne%Ascii.eqb_neq. pose proof (Split_nonempty r c) as Hn.
  destruct (Split r c) as [|h t] eqn:Hs; [done|].
  exists h, t. split; [done|]. simpl. by rewrite Hne, Hs.
Qed.

Lemma nested_under (root : ascii) (rest : string) :
  root ≠ slash →
  0 ≤ firstPartId (Split rest slash) →
  (1 < length (Split (Trim (String slash (String root (String slash rest))) slash) slash))%nat.
Proof.
  intros Hroot Hid.
  apply firstPartId_nonneg in Hid as (part0 & parts & Hs & Hne).
  destruct (Split_head_nonempty _ _ _ _ Hs Hne) as (a & r & -> & Ha).
  unfold Trim. rewrite TrimLeft_eq, TrimLeft_ne by done.
  destruct (TrimRight_keeps_head a r slash Ha) as [r' Hr'].
  rewrite (TrimRight_cons root slash _ (String a r')).
  2:{ by apply TrimRight_cons. }
  destruct (Split_cons_ne root (String slash (String a r')) slash Hroot)
    as (h & t & Hsp & ->).
  rewrite Split_cons_eq in Hsp.
  pose proof (Split_nonempty (String a r') slash) as Hn.
  remember (Split (String a r') slash) as inner eqn:Hinner.
  injection Hsp as <- <-.
  destruct inner; [done|]. simpl length. lia.
Qed.

(** A location under which step 4 finds a group collection has a prefix
    [/5/] or [/4/] and at least two path elements. *)
Lemma groupCollectionIdFromLocation_nested location :
  0 ≤ groupCollectionIdFromLocation location →
  HasPrefix location "/5/" || HasPrefix location "/4/" = true
  ∧ (1 < length (Split (Trim location slash) slash))%nat.
Proof.
  unfold groupCollectionIdFromLocation.
  destruct (HasPrefix location "/5/") eqn:H5.
  - intros Hid. split; [done|].
    destruct (HasPrefix_3 _ _ _ _ H5) as [rest ->].
    unfold TrimPrefix in Hid. rewrite H5 in Hid. simpl in Hid.
    by apply nested_under.
  - destruct (HasPrefix location "/4/") eqn:H4; [|lia].
    intros Hid. split; [done|].
    destruct (HasPrefix_3 _ _ _ _ H4) as [rest ->].
    unfold TrimPrefix in Hid. rewrite H4 in Hid. simpl in Hid.
    by apply nested_under.
Qed.

Lemma recursiveTarget_nested permissions collectionIdToGroupId c info owner :
  recursiveTarget permissions collectionIdToGroupId c info owner →
  isNestedCollection info = true ∨ ParentID info = 0.
Proof.
  intros (_ & Hid & _). unfold isNestedCollection.
  destruct (ParentID info =? 0) eqn:Hp; [right; by apply Z.eqb_eq|left].
  apply groupCollectionIdFromLocation_nested in Hid as [-> Hlen].
  by apply bool_decide_eq_true.
Qed.

(** ** The collections the filter drops *)

Lemma childCollectionIdsOf_spec (childCollectionsMap : gmap Z CollectionInfo) cs :
  cs ∈ childCollectionIdsOf childCollectionsMap ↔
  ∃ c info, childCollectionsMap !! c = Some info ∧ cs = Itoa c
            ∧ isNestedCollection info = true.
Proof.
  unfold childCollectionIdsOf.
  assert (∀ (l : list (Z * CollectionInfo)) (ids : gset string),
    cs ∈ foldl (fun (ids : gset string) (entry : Z * CollectionInfo) =>
                  if isNestedCollection entry.2 then {[Itoa entry.1]} ∪ ids else ids) ids l
    ↔ cs ∈ ids ∨ ∃ c info, (c, info) ∈ l ∧ cs = Itoa c
                           ∧ isNestedCollection info = true) as Hgen.
  { induction l as [|[c info] l IH]; intros ids; simpl.
    - split; [by left|]. intros [?|(c & info & Hin & _)]; [done|by apply elem_of_nil in Hin].
    - rewrite IH. destruct (isNestedCollection info) eqn:Hn; split.
      + intros [[->%elem_of_singleton|?]%elem_of_union|(c' & info' & Hin & ?)].
        * right. exists c, info. split; [apply elem_of_cons; by left|done].
        * by left.
        * right. exists c', info'. split; [apply elem_of_cons; by right|done].
      + intros [?|(c' & info' & [[= -> ->]|Hin]%elem_of_cons & Hcs & Hn')].
        * left. apply elem_of_union. by right.
        * left. apply elem_of_union. left. by apply elem_of_singleton.
        * right. eauto.
      + intros [?|(c' & info' & Hin & ?)]; [by left|].
        right. exists c', info'. split; [apply elem_of_cons; by right|done].
      + intros [?|(c' & info' & [[= -> ->]|Hin]%elem_of_cons & Hcs & Hn')].
        * by left.
        * congruence.
        * right. eauto. }
  rewrite Hgen. split.
  - intros [Hin|(c & info & Hin & ?)]; [by apply elem_of_empty in Hin|].
    exists c, info. split; [by apply elem_of_map_to_list|done].
  - intros (c & info & Hin & ?). right. exists c, info.
    split; [by apply elem_of_map_to_list|done].
Qed.

(** ** C1: filtering an expanded graph *)

Lemma isExplicitPermission_elem permissions p :
  p ∈ permissions → notNull p →
  isExplicitPermission permissions (ValueInt64 (Group p)) (ValueString (Collection p)) = true.
Proof.
  intros Hp [Hg Hc]. unfold isExplicitPermission. apply existsb_exists.
  exists p. split; [by apply list_elem_of_In|].
  rewrite Hg, Hc, Z.eqb_refl, String.eqb_refl. done.
Qed.

(** The graph of a successful expansion: its keys, its groups, its cells. *)
Lemma expand_graph_facts `{Unicode} permissions childCollectionsMap groupNames order graph :
  expand permissions childCollectionsMap groupNames order true = Ok graph →
  (∀ p, p ∈ permissions → in_int64 (ValueInt64 (Group p)) = true) →
  wellKeyed graph ∧ noEmptyGroup graph
  ∧ (∀ g, g ∈ groupIdsSetOf permissions → is_Some (graph !! FormatInt g)).
Proof.
  intros He Hrange. apply expand_inv in He as (seed & Hs & ->).
  pose proof (applyChildCollections_derivedWrites permissions childCollectionsMap
                groupNames order seed) as Hd.
  pose proof (seedGroups_spec _ _ _ Hs) as (Hall & _ & _ & _ & Hdom & Hne).
  assert (∀ g, g ∈ groupIdsSetOf permissions → is_Some (seed !! FormatInt g)) as Hgroups.
  { intros g (p & Hp & _ & <-)%collectGroupIds_spec. apply Hdom. right. by exists p. }
  split; [|split].
  - intros gs Hsome.
    destruct (derivedWrites_dom _ _ _ _ gs Hd Hsome) as [Hsd|(g & c & Hg & ->)].
    + apply Hdom in Hsd as [[m Hm]|(p & Hp & <-)]; [by rewrite lookup_empty in Hm|].
      exists (ValueInt64 (Group p)). split; [by apply Hrange|done].
    + apply collectGroupIds_spec in Hg as (p & Hp & _ & <-).
      exists (ValueInt64 (Group p)). split; [by apply Hrange|done].
  - eapply derivedWrites_noEmptyGroup; [exact Hd| |].
    + intros g c Hg. by apply Hgroups.
    + apply Hne. intros gs m. by rewrite lookup_empty.
  - intros g Hg. eapply derivedWrites_dom_mono; [exact Hd|]. by apply Hgroups.
Qed.

(** C1 does not hold as stated: the edge that expansion derives for group 7
    at the direct child 16 of Public survives the filter, although the only
    explicit edge is (7, root, read). *)
Lemma derived_anchor_edge_survives_filter :
  let permissions := [Scenario.edge 7 "root" "read"] in
  @expand ascii_unicode permissions Scenario.tree Scenario.names Scenario.order true
  = Ok (scenarioGraph permissions)
  ∧ (∀ p, p ∈ permissions →
       ValueString (Collection p) ∉ childCollectionIdsOf Scenario.tree)
  ∧ Scenario.edge 7 "16" "write"
    ∈ Elements (filterPermissions (Known (graphPermissions (scenarioGraph permissions)))
                                  Scenario.tree)
  ∧ Scenario.edge 7 "16" "write" ∉ permissions.
Proof.
  intros permissions. split; [by vm_compute|]. split; [|split].
  - intros p ->%list_elem_of_singleton.
    apply (bool_decide_unpack _). by vm_compute.
  - apply (bool_decide_unpack _). by vm_compute.
  - apply (bool_decide_unpack _). by vm_compute.
Qed.

(** C1, amended. Let the explicit edges have their collections outside the
    filtered region.  Filtering the edges of the expanded graph keeps every
    explicit edge, and every other edge it keeps is a derived edge at a
    collection of the tree that is a direct child of Public or Draft (or one
    whose parent id is 0, which the filter never drops): the derived edges
    below the group collections are all stripped. *)
Theorem filter_expand_keeps_explicit `{Unicode}
    (permissions : list CollectionPermission)
    (childCollectionsMap : gmap Z CollectionInfo) (groupNames : gmap Z string)
    (order : Schedule) (graph : Graph) :
  expand permissions childCollectionsMap groupNames order true = Ok graph →
  (∀ p, p ∈ permissions → in_int64 (ValueInt64 (Group p)) = true) →
  (∀ p, p ∈ permissions →
     ValueString (Collection p) ∉ childCollectionIdsOf childCollectionsMap) →
  let kept :=
    Elements (filterPermissions (Known (graphPermissions graph)) childCollectionsMap) in
  (∀ p, p ∈ permissions →
     {| Group := Known (ValueInt64 (Group p));
        Collection := Known (ValueString (Collection p));
        Permission := Known (ValueString (Permission p)) |} ∈ kept)
  ∧ (∀ q, q ∈ kept →
       (∃ p, p ∈ permissions ∧ edgeOf p = edgeOf q)
       ∨ ∃ c info, childCollectionsMap !! c = Some info
                   ∧ Collection q = Known (Itoa c)
                   ∧ (isAnchor (ParentID info) = true ∨ ParentID info = 0)
                   ∧ isExplicitPermission permissions (ValueInt64 (Group q)) (Itoa c) = false).
Proof.
  intros He Hrange Hout kept.
  destruct (expand_graph_facts _ _ _ _ _ He Hrange) as (Hwk & _ & _).
  apply expand_inv in He as (seed & Hs & ->).
  pose proof (seedGroups_spec _ _ _ Hs) as (Hall & _ & _ & Hcell & _ & _).
  rewrite Forall_forall in Hall.
  set (graph := applyChildCollections permissions childCollectionsMap groupNames order seed)
    in *.
  pose proof (applyChildCollections_derivedWrites_precise permissions childCollectionsMap
                groupNames order seed) as Hd. fold graph in Hd.
  assert (∀ q, q ∈ kept ↔
            q ∈ graphPermissions graph
            ∧ keepPermission (childCollectionIdsOf childCollectionsMap) q = true) as Hkept.
  { intros q. unfold kept, filterPermissions. simpl.
    rewrite !list_elem_of_In. apply filter_In. }
  split.
  - intros p Hp. apply Hkept. split.
    + apply graphPermissions_elem; [done|].
      eexists _, _, _. split; [done|]. split; [by apply Hrange|].
      rewrite (derivedWrites_explicit _ _ _ _ _ _ Hd)
        by (apply isExplicitPermission_elem; [done|by apply Hall]).
      apply Hcell. right. by exists p.
    + unfold keepPermission. simpl. apply negb_true_iff, bool_decide_eq_false.
      by apply Hout.
  - intros q [Hq Hkeep]%Hkept.
    apply graphPermissions_elem in Hq as (g & cs & l & -> & Hr & Hc); [|done].
    unfold keepPermission in Hkeep. simpl in Hkeep.
    apply negb_true_iff, bool_decide_eq_false in Hkeep.
    destruct (derivedWrites_cell _ _ _ _ (FormatInt g) cs Hd)
      as [Heq|(g0 & c & Hall0 & Hg & -> & Hex & _)].
    + left. rewrite Heq in Hc. apply Hcell in Hc as [Hc|(p & Hp & Hk & Hl)].
      { unfold cell in Hc. by rewrite lookup_empty in Hc. }
      exists p. split; [done|]. unfold edgeOf, keyOf in *. simpl.
      injection Hk as Hg Hcs. apply FormatInt_inj in Hg. congruence.
    + right. apply FormatInt_inj in Hg as <-. simpl.
      destruct Hall0 as [(_ & info & Hin & Ha)|(_ & info & owner & Hin & Ht)];
        apply rangeMap_elem in Hin; exists c, info.
      * split; [done|]. split; [done|]. split; [by left|done].
      * split; [done|]. split; [done|]. split; [|done].
        destruct (recursiveTarget_nested _ _ _ _ _ Ht) as [Hn|H0]; [|by right].
        exfalso. apply Hkeep. apply childCollectionIdsOf_spec. eauto.
Qed.

Lemma filter_expand_keeps_explicit_witness :
  let permissions := [Scenario.edge 7 "root" "read"] in
  Scenario.edge 7 "root" "read"
  ∈ Elements (filterPermissions (Known (graphPermissions (scenarioGraph permissions)))
                                Scenario.tree).
Proof.
  intros permissions.
  assert (@expand ascii_unicode permissions Scenario.tree Scenario.names Scenario.order true
          = Ok (scenarioGraph permissions)) as He by (by vm_compute).
  assert (∀ p, p ∈ permissions → in_int64 (ValueInt64 (Group p)) = true) as Hrange.
  { by intros p ->%list_elem_of_singleton. }
  assert (∀ p, p ∈ permissions →
            ValueString (Collection p) ∉ childCollectionIdsOf Scenario.tree) as Hout.
  { intros p ->%list_elem_of_singleton. apply (bool_decide_unpack _). by vm_compute. }
  destruct (@filter_expand_keeps_explicit ascii_unicode permissions Scenario.tree
              Scenario.names Scenario.order _ He Hrange Hout) as [Hkeep _].
  apply (Hkeep (Scenario.edge 7 "root" "read")). by apply list_elem_of_singleton.
Defined.

(** ** C3: expanding an expanded graph *)

Section Ownership.
Context `{Unicode}.
Variable groupNames : gmap Z string.
Variable groupIdsSet : gset Z.

(** A group collection has an owner exactly when it is a direct child of
    Public or Draft whose name matches the name of some group under
    consideration - whatever the order in which the groups are visited. *)
Lemma resolveOwnership_is_Some (order : Z → list Z)
    (childCollections : list (Z * CollectionInfo)) c :
  is_Some (resolveOwnership groupNames order groupIdsSet childCollections !! c) ↔
  ∃ info, (c, info) ∈ childCollections ∧ isAnchor (ParentID info) = true
          ∧ ∃ g, g ∈ groupIdsSet ∧ nameMatches groupNames (Name info) g = true.
Proof.
  unfold resolveOwnership.
  assert (∀ (l : list (Z * CollectionInfo)) (m : gmap Z Z),
    is_Some (foldl (ownershipStep groupNames order groupIdsSet) m l !! c) ↔
    is_Some (m !! c)
    ∨ ∃ info, (c, info) ∈ l ∧ isAnchor (ParentID info) = true
              ∧ ∃ g, g ∈ groupIdsSet ∧ nameMatches groupNames (Name info) g = true) as Hgen.
  { induction l as [|[c' info'] l IH]; intros m; simpl.
    - split; [by left|]. intros [?|(info & Hin & _)]; [done|by apply elem_of_nil in Hin].
    - rewrite IH. clear IH.
      assert (is_Some (ownershipStep groupNames order groupIdsSet m (c', info') !! c) ↔
              is_Some (m !! c)
              ∨ (c' = c ∧ isAnchor (ParentID info') = true
                 ∧ ∃ g, g ∈ groupIdsSet ∧ nameMatches groupNames (Name info') g = true))
        as Hstep.
      { unfold ownershipStep. destruct (isAnchor (ParentID info')) eqn:Ea.
        - destruct (find _ _) as [g|] eqn:Hf.
          + apply find_some in Hf as [Hin Hm].
            apply list_elem_of_In, rangeGroups_elem in Hin.
            destruct (decide (c' = c)) as [->|Hne].
            * rewrite lookup_insert_eq. split; [|done]. intros _. right. eauto.
            * rewrite lookup_insert_ne by done. naive_solver.
          + split; [by left|]. intros [?|(-> & _ & g & Hg & Hm)]; [done|].
            exfalso. eapply find_none in Hf.
            * by rewrite Hm in Hf.
            * by apply list_elem_of_In, rangeGroups_elem.
        - naive_solver. }
      rewrite Hstep. split.
      + intros [[?|(-> & Ha & Hg)]|(info & Hin & ?)].
        * by left.
        * right. exists info'. split; [apply elem_of_cons; by left|done].
        * right. exists info. split; [apply elem_of_cons; by right|done].
      + intros [?|(info & [[= <- <-]|Hin]%elem_of_cons & Ha & Hg)].
        * left. by left.
        * left. right. done.
        * right. eauto. }
  rewrite Hgen. rewrite lookup_empty. split.
  - intros [[? ?]|?]; done.
  - by right.
Qed.

End Ownership.

Section Idempotence.
Context `{Unicode}.

(** After its iteration at a direct child, a group under consideration has
    an entry there, provided the explicit cells are present. *)
Lemma groupCollectionStep_is_Some permissions groupNames c info (groups : Graph) g :
  (isExplicitPermission permissions g (Itoa c) = true →
   is_Some (cell groups (FormatInt g) (Itoa c))) →
  is_Some (cell (groupCollectionStep permissions groupNames c info groups g)
                (FormatInt g) (Itoa c)).
Proof.
  intros Hex. unfold groupCollectionStep.
  destruct (isExplicitPermission permissions g (Itoa c)).
  - rewrite cell_ensureGroup. by apply Hex.
  - rewrite cell_ensureGroup.
    destruct (cell groups (FormatInt g) (Itoa c)) as [existing|] eqn:Hc.
    + destruct (_ && _).
      * rewrite cell_setPermission. by rewrite decide_True.
      * rewrite cell_ensureGroup. by rewrite Hc.
    + rewrite cell_setPermission. by rewrite decide_True.
Qed.

Lemma applyGroupCollections_is_Some permissions groupNames groupOrder groupIdsSet
    (childCollections : list (Z * CollectionInfo)) (groups : Graph) g c info :
  (c, info) ∈ childCollections → isAnchor (ParentID info) = true → g ∈ groupIdsSet →
  (isExplicitPermission permissions g (Itoa c) = true →
   is_Some (cell groups (FormatInt g) (Itoa c))) →
  is_Some (cell (applyGroupCollections permissions groupNames groupOrder groupIdsSet
                   childCollections groups) (FormatInt g) (Itoa c)).
Proof.
  intros Hin Ha Hg Hex.
  set (P := fun groups : Graph =>
         isExplicitPermission permissions g (Itoa c) = true →
         is_Some (cell groups (FormatInt g) (Itoa c))).
  set (Q := fun groups : Graph => is_Some (cell groups (FormatInt g) (Itoa c))).
  assert (∀ groups1 entry, Q groups1 →
            Q (groupCollectionsEntry permissions groupNames groupOrder groupIdsSet
                 groups1 entry))
    as HQ.
  { intros groups1 [c' info'] Hq. unfold groupCollectionsEntry.
    destruct (isAnchor (ParentID info')); [|done].
    apply (foldl_invariant Q); [done|]. intros groups2 g' _ Hq2.
    eapply derivedWrite_cell_is_Some; [apply groupCollectionStep_derivedWrite|done]. }
  unfold applyGroupCollections.
  apply (foldl_establish_inv P Q _ _ _ (c, info)); [done|done| | |].
  - intros groups1 entry _ Hp He. apply HQ. by apply Hp.
  - intros groups1 Hp. unfold groupCollectionsEntry. rewrite Ha.
    apply (foldl_establish_inv P Q _ _ _ g); [by apply rangeGroups_elem|done| | |].
    + intros groups2 g' _ Hp2 He.
      eapply derivedWrite_cell_is_Some; [apply groupCollectionStep_derivedWrite|].
      by apply Hp2.
    + intros groups2 Hp2. by apply groupCollectionStep_is_Some.
    + intros groups2 g' _ Hq2.
      eapply derivedWrite_cell_is_Some; [apply groupCollectionStep_derivedWrite|done].
  - intros groups1 entry _. apply HQ.
Qed.

Variable permissions : list CollectionPermission.
Variable childCollectionsMap : gmap Z CollectionInfo.
Variable groupNames : gmap Z string.
Variable order : Schedule.
Variable graph : Graph.
Hypothesis Hexpand :
  expand permissions childCollectionsMap groupNames order true = Ok graph.
Hypothesis Hrange : ∀ p, p ∈ permissions → in_int64 (ValueInt64 (Group p)) = true.

Lemma groupIdsSetOf_range g :
  g ∈ groupIdsSetOf permissions → in_int64 g = true.
Proof. intros (p & Hp & _ & <-)%collectGroupIds_spec. by apply Hrange. Qed.

(** The groups of the edges of the expanded graph are the groups of the
    explicit edges. *)
Lemma groupIdsSetOf_graphPermissions :
  groupIdsSetOf (graphPermissions graph) = groupIdsSetOf permissions.
Proof.
  destruct (expand_graph_facts _ _ _ _ _ Hexpand Hrange) as (Hwk & Hne & Hgroups).
  apply set_eq. intros g. rewrite (collectGroupIds_spec (graphPermissions graph)). split.
  - intros (q & Hq & _ & <-).
    apply graphPermissions_elem in Hq as (g & cs & l & -> & _ & Hc); [|done]. simpl.
    assert (is_Some (graph !! FormatInt g)) as Hs.
    { unfold cell in Hc. by destruct (graph !! FormatInt g). }
    destruct (expand_group_keys _ _ _ _ _ _ _ Hexpand Hs) as (p & Hp & Hn & Hg).
    apply FormatInt_inj in Hg as ->. apply collectGroupIds_spec. eauto.
  - intros Hg. destruct (Hgroups g Hg) as [m Hm].
    destruct (map_choose m) as (cs & l & Hcl); [by eapply Hne|].
    exists {| Group := Known g; Collection := Known cs; Permission := Known l |}.
    split; [|done]. apply graphPermissions_elem; [done|].
    eexists _, _, _. split; [done|]. split; [by apply groupIdsSetOf_range|].
    unfold cell. by rewrite Hm.
Qed.

(** Every entry of the expanded graph is explicit in its list of edges. *)
Lemma graphPermissions_explicit g cs :
  in_int64 g = true → is_Some (cell graph (FormatInt g) cs) →
  isExplicitPermission (graphPermissions graph) g cs = true
  ∧ isChildCollectionInPlan (graphPermissions graph) cs = true.
Proof.
  intros Hr [l Hl].
  destruct (expand_graph_facts _ _ _ _ _ Hexpand Hrange) as (Hwk & _ & _).
  assert (isExplicitPermission (graphPermissions graph) g cs = true) as He.
  { apply (isExplicitPermission_elem (graphPermissions graph)
             {| Group := Known g; Collection := Known cs; Permission := Known l |});
      [|done].
    apply graphPermissions_elem; [done|]. eauto 10. }
  split; [done|]. by eapply isExplicit_inPlan.
Qed.

(** In the expanded graph every group under consideration has an entry at
    every direct child of Public or Draft. *)
Lemma expand_anchor_is_Some g c info :
  childCollectionsMap !! c = Some info → isAnchor (ParentID info) = true →
  g ∈ groupIdsSetOf permissions →
  is_Some (cell graph (FormatInt g) (Itoa c)).
Proof.
  intros Hc Ha Hg. pose proof Hexpand as He.
  apply expand_inv in He as (seed & Hs & ->). unfold applyChildCollections.
  eapply derivedWrites_cell_is_Some; [apply applyRecursive_derivedWrites|].
  apply applyGroupCollections_is_Some with (info := info);
    [by apply rangeMap_elem|done|done|].
  intros He. unfold isExplicitPermission in He.
  apply existsb_exists in He as (p & Hp%list_elem_of_In & Hb).
  apply andb_prop in Hb as [Hb Hcs]. apply andb_prop in Hb as [_ Hgp].
  apply Z.eqb_eq in Hgp. apply String.eqb_eq in Hcs.
  apply seedGroups_spec in Hs as (_ & _ & _ & Hcell & _).
  exists (ValueString (Permission p)). apply Hcell. right. exists p.
  split; [done|]. split; [|done]. unfold keyOf. by rewrite Hgp, Hcs.
Qed.

(** A collection that the plan mentions has an entry in the expanded
    graph. *)
Lemma expand_inPlan_is_Some cs :
  isChildCollectionInPlan permissions cs = true →
  ∃ g, in_int64 g = true ∧ is_Some (cell graph (FormatInt g) cs).
Proof.
  intros Hp. pose proof Hexpand as He.
  apply expand_inv in He as (seed & Hs & ->).
  unfold isChildCollectionInPlan in Hp.
  apply existsb_exists in Hp as (p & Hin%list_elem_of_In & Hb).
  apply andb_prop in Hb as [_ Hcs]. apply String.eqb_eq in Hcs.
  exists (ValueInt64 (Group p)). split; [by apply Hrange|].
  eapply derivedWrites_cell_is_Some; [apply applyChildCollections_derivedWrites|].
  apply seedGroups_spec in Hs as (_ & _ & _ & Hcell & _).
  exists (ValueString (Permission p)). apply Hcell. right. exists p.
  split; [done|]. split; [|done]. unfold keyOf. by rewrite Hcs.
Qed.

(** C3. Expansion is idempotent: expanding the edges of an expanded graph,
    with the same tree and group names, gives the same graph again -
    whatever the order in which the second run visits the groups.  (The
    group ids are 64-bit integers, as in the source.) *)
Theorem expand_idempotent (order' : Schedule) :
  expand (graphPermissions graph) childCollectionsMap groupNames order' true = Ok graph.
Proof.
  destruct (expand_graph_facts _ _ _ _ _ Hexpand Hrange) as (Hwk & Hne & Hgroups).
  unfold expand. rewrite seedGroups_graphPermissions by done. f_equal.
  unfold applyChildCollections. rewrite groupIdsSetOf_graphPermissions.
  set (groupIdsSet := groupIdsSetOf permissions).
  assert (applyGroupCollections (graphPermissions graph) groupNames
            (groupCollectionGroups order') groupIdsSet
            (rangeMap (groupCollections order') childCollectionsMap) graph = graph) as ->.
  { unfold applyGroupCollections. apply foldl_fixed.
    intros [c info] Hin%rangeMap_elem. unfold groupCollectionsEntry.
    destruct (isAnchor (ParentID info)) eqn:Ha; [|done].
    apply foldl_fixed. intros g Hg%rangeGroups_elem.
    unfold groupCollectionStep. rewrite ensureGroup_id by (by apply Hgroups).
    destruct (graphPermissions_explicit g (Itoa c)) as [-> _]; [|by eapply expand_anchor_is_Some|done].
    by apply groupIdsSetOf_range. }
  unfold applyRecursive. apply foldl_fixed.
  intros [c info] Hin%rangeMap_elem.
  unfold ownershipOf. rewrite groupIdsSetOf_graphPermissions. fold groupIdsSet.
  destruct (recursiveEntry_cases (graphPermissions graph)
              (resolveOwnership groupNames (ownershipGroups order') groupIdsSet
                 (rangeMap (ownershipCollections order') childCollectionsMap))
              (recursiveGroups order') groupIdsSet graph c info)
    as [[-> _]|(owner' & Ht' & ->)]; [done|].
  apply foldl_fixed. intros g Hg%rangeGroups_elem. exfalso.
  destruct Ht' as (Hloc & Hid & Hown' & Hplan').
  assert (∀ g', in_int64 g' = true → ¬ is_Some (cell graph (FormatInt g') (Itoa c))) as Hnone.
  { intros g' Hr Hs. destruct (graphPermissions_explicit g' (Itoa c) Hr Hs) as [_ Hp].
    congruence. }
  destruct (isChildCollectionInPlan permissions (Itoa c)) eqn:Hplan.
  - destruct (expand_inPlan_is_Some _ Hplan) as (g' & Hr & Hs). by apply (Hnone g').
  - assert (is_Some (ownershipOf permissions childCollectionsMap groupNames order
                     !! groupCollectionIdFromLocation (Location info))) as [owner Hown].
    { apply resolveOwnership_is_Some.
      assert (is_Some (resolveOwnership groupNames (ownershipGroups order') groupIdsSet
                         (rangeMap (ownershipCollections order') childCollectionsMap)
                       !! groupCollectionIdFromLocation (Location info))) as Hs by eauto.
      apply resolveOwnership_is_Some in Hs as (info0 & Hin0%rangeMap_elem & Hrest).
      exists info0. split; [by apply rangeMap_elem|done]. }
    apply (Hnone g); [by apply groupIdsSetOf_range|].
    pose proof Hexpand as He. apply expand_inv in He as (seed & Hs & ->).
    unfold applyChildCollections. fold groupIdsSet.
    erewrite applyRecursive_target; [done|by apply rangeMap_elem| | |exact Hg].
    + intros info' Hin'%rangeMap_elem. congruence.
    + split; [done|]. split; [done|]. split; [exact Hown|done].
Qed.

End Idempotence.

Lemma expand_idempotent_witness :
  let permissions := [Scenario.edge 7 "root" "read"; Scenario.edge 8 "root" "read"] in
  @expand ascii_unicode (graphPermissions (scenarioGraph permissions)) Scenario.tree
    Scenario.names
    {| ownershipCollections := [60; 16]; ownershipGroups := fun _ => [8; 7];
       groupCollections := [16]; groupCollectionGroups := fun _ => [8];
       recursiveCollections := [60]; recursiveGroups := fun _ => [7; 8] |} true
  = Ok (scenarioGraph permissions).
Proof.
  intros permissions.
  apply (@expand_idempotent ascii_unicode permissions Scenario.tree Scenario.names
           Scenario.order).
  - by vm_compute.
  - intros p Hp. apply elem_of_cons in Hp as [->|Hp]; [done|].
    apply list_elem_of_singleton in Hp as ->. done.
Defined.

(** ** C9: the groups of the expanded graph *)

(** C9. Every group key of the permissions map built by the expander is the
    key of a group of some explicit edge: expansion never introduces an edge
    for a group without an explicitly declared permission, whatever the
    edges, the tree, the group names and the propagation toggle. *)
Theorem expand_group_domain `{Unicode} (permissions : list CollectionPermission)
    (childCollectionsMap : gmap Z CollectionInfo) (groupNames : gmap Z string)
    (order : Schedule) (applyChildPermissions : bool) (graph : Graph) (gs : string) :
  expand permissions childCollectionsMap groupNames order applyChildPermissions = Ok graph →
  is_Some (graph !! gs) →
  ∃ p, p ∈ permissions ∧ IsNull (Group p) = false
       ∧ gs = FormatInt (ValueInt64 (Group p)).
Proof. apply expand_group_keys. Qed.

Lemma expand_group_domain_witness :
  ∃ p, p ∈ [Scenario.edge 7 "root" "read"; Scenario.edge 8 "root" "read"]
       ∧ IsNull (Group p) = false ∧ "8" = FormatInt (ValueInt64 (Group p)).
Proof.
  apply (@expand_group_domain ascii_unicode _ Scenario.tree Scenario.names Scenario.order
           true (scenarioGraph [Scenario.edge 7 "root" "read"; Scenario.edge 8 "root" "read"])).
  - by vm_compute.
  - vm_compute. by eexists.
Defined.


(** ** The remaining properties on the concrete deployment *)

Lemma update_noop_path_witness :
  let state := Scenario.model (Known 41) [Scenario.edge 8 "root" "read"] (Known true) in
  let same := Scenario.model Unknown [Scenario.edge 8 "root" "read"] Null in
  let more := Scenario.model Unknown [Scenario.edge 8 "root" "read";
                                      Scenario.edge 7 "root" "write"] Null in
  @Update ascii_unicode Scenario.client Scenario.order same state []
  = (Ok (withRevision (withDefaultFlag same) (Known 41)), [])
  ∧ ∃ reads body,
      readsOnly reads ∧ metabase.Revision body = 41
      ∧ (@Update ascii_unicode Scenario.client Scenario.order more state []).2
        = reads ++ [ReplaceCollectionPermissionsGraph body].
Proof.
  intros state same more. split.
  - apply (@update_noop_path ascii_unicode Scenario.client Scenario.order same state []);
      reflexivity.
  - destruct (@update_noop_path ascii_unicode Scenario.client Scenario.order more state [])
      as [_ Hchanged].
    destruct (Hchanged eq_refl) as (reads & Hreads & Hmatch).
    destruct ((makeCollectionPermissionsGraphFromModel (withDefaultFlag more) (Some state)
                 (Some Scenario.client) Scenario.order []).1) as [body|s d] eqn:Hbody.
    + exists reads, body. destruct Hmatch as (Hrev & Htrace & _). done.
    + by vm_compute in Hbody.
Defined.

Lemma toggle_off_identity_witness :
  let permissions := [Scenario.edge 7 "root" "read"; Scenario.edge 8 "root" "read"] in
  @expand ascii_unicode permissions Scenario.tree Scenario.names Scenario.order false
  = seedGroups ∅ permissions
  ∧ ∃ p, p ∈ permissions ∧ keyOf p = ("8", "root") ∧ ValueString (Permission p) = "read".
Proof.
  intros permissions.
  destruct (@toggle_off_identity ascii_unicode permissions Scenario.tree Scenario.names
              Scenario.order) as (Heq & Hedges & _).
  split; [exact Heq|].
  destruct (seedGroups ∅ permissions) as [graph|s d] eqn:Hs; [|by vm_compute in Hs].
  destruct (Hedges graph Heq) as [Hcell _].
  apply (Hcell "8" "root" "read").
  injection Hs as <-. by vm_compute.
Defined.

Lemma anchor_step_never_downgrades_witness :
  let groups0 : Graph := setPermission "7" "16" "read" ∅ in
  cell (@applyGroupCollections ascii_unicode [Scenario.edge 7 "root" "read"]
          Scenario.names (fun _ => []) {[7]} (map_to_list Scenario.tree) groups0) "7" "16"
  = Some "write".
Proof.
  intros groups0.
  destruct (@anchor_step_never_downgrades ascii_unicode [Scenario.edge 7 "root" "read"]
              Scenario.names (fun _ => []) {[7]} (map_to_list Scenario.tree) groups0)
    as (_ & _ & _ & Hupgrade).
  apply (Hupgrade 7 16 {| ID := 16; ParentID := 5; Name := "Analytics"; Location := "/5/" |}).
  - apply elem_of_map_to_list. by vm_compute.
  - reflexivity.
  - by apply elem_of_singleton.
  - by vm_compute.
  - by vm_compute.
  - by vm_compute.
Defined.

Lemma filter_is_restriction_witness :
  ∃ kept,
    filterPermissions (Known [Scenario.edge 7 "60" "read"; Scenario.edge 7 "16" "write"])
                      Scenario.tree = Known kept
    ∧ sublist kept [Scenario.edge 7 "60" "read"; Scenario.edge 7 "16" "write"].
Proof.
  destruct (filter_is_restriction
              (Known [Scenario.edge 7 "60" "read"; Scenario.edge 7 "16" "write"])
              Scenario.tree) as (kept & Hk & Hsub & _).
  exists kept. split; [exact Hk|exact Hsub].
Defined.

(** * Further properties *)

(** ** Seeding: when it succeeds *)

(** X1. Seeding the permissions map succeeds exactly when no edge has a
    null group or a null collection and no (group, collection) pair occurs
    twice; in every other case the graph builder stops with an error. *)
Theorem seedGroups_succeeds_iff (permissions : list CollectionPermission) :
  (∃ groups, seedGroups ∅ permissions = Ok groups)
  ↔ Forall notNull permissions ∧ NoDup (keyOf <$> permissions).
Proof.
  split.
  - intros [groups Hs]. apply seedGroups_spec in Hs as (Hall & Hnd & _). done.
  - intros [Hall Hnd]. apply seedGroups_total; [done|done|].
    intros p _. unfold cell. by rewrite lookup_empty.
Qed.

(** ** Expansion: what it keeps, what it adds *)

Lemma seed_cell_explicit permissions seed g cs :
  seedGroups ∅ permissions = Ok seed →
  is_Some (cell seed (FormatInt g) cs) →
  isExplicitPermission permissions g cs = true.
Proof.
  intros Hs [l Hl].
  apply seedGroups_spec in Hs as (Hall & _ & _ & Hcell & _).
  rewrite Forall_forall in Hall.
  apply Hcell in Hl as [Hl|(p & Hp & Hk & _)].
  { unfold cell in Hl. by rewrite lookup_empty in Hl. }
  unfold keyOf in Hk. injection Hk as Hg Hc. apply FormatInt_inj in Hg.
  rewrite <- Hg, <- Hc. apply isExplicitPermission_elem; [done|by apply Hall].
Qed.

Lemma seed_cell_elem permissions seed p :
  seedGroups ∅ permissions = Ok seed → p ∈ permissions →
  cell seed (keyOf p).1 (keyOf p).2 = Some (ValueString (Permission p)).
Proof.
  intros Hs Hp. apply seedGroups_spec in Hs as (_ & _ & _ & Hcell & _).
  apply Hcell. right. exists p. split; [done|]. split; [|done]. by destruct (keyOf p).
Qed.

(** X2. Explicit intent wins: in the expanded graph every explicit edge
    holds exactly its declared level, whatever the tree, the group names,
    the iteration order and the propagation toggle. *)
Theorem expand_keeps_explicit `{Unicode} (permissions : list CollectionPermission)
    (childCollectionsMap : gmap Z CollectionInfo) (groupNames : gmap Z string)
    (order : Schedule) (applyChildPermissions : bool) (graph : Graph)
    (p : CollectionPermission) :
  expand permissions childCollectionsMap groupNames order applyChildPermissions = Ok graph →
  p ∈ permissions →
  cell graph (FormatInt (ValueInt64 (Group p))) (ValueString (Collection p))
  = Some (ValueString (Permission p)).
Proof.
  intros He Hp. destruct applyChildPermissions.
  - apply expand_inv in He as (seed & Hs & ->).
    pose proof (seedGroups_spec _ _ _ Hs) as (Hall & _).
    rewrite Forall_forall in Hall.
    rewrite (derivedWrites_explicit _ _ _ _ _ _
               (applyChildCollections_derivedWrites permissions childCollectionsMap
                  groupNames order seed))
      by (apply isExplicitPermission_elem; [done|by apply Hall]).
    by apply (seed_cell_elem _ _ p Hs).
  - unfold expand in He. destruct (seedGroups ∅ permissions) as [seed|] eqn:Hs; [|done].
    injection He as <-. by apply (seed_cell_elem _ _ p Hs).
Qed.

Lemma expand_keeps_explicit_witness :
  cell (scenarioGraph [Scenario.edge 7 "16" "read"; Scenario.edge 8 "root" "read"])
       (FormatInt 7) "16" = Some "read".
Proof.
  apply (@expand_keeps_explicit ascii_unicode
           [Scenario.edge 7 "16" "read"; Scenario.edge 8 "root" "read"]
           Scenario.tree Scenario.names Scenario.order true _ (Scenario.edge 7 "16" "read")).
  - by vm_compute.
  - apply elem_of_cons. by left.
Defined.

(** ** The ownership resolver *)

Lemma nameMatches_true `{Unicode} (groupNames : gmap Z string) collectionName g :
  nameMatches groupNames collectionName g = true ↔
  ∃ name, groupNames !! g = Some name ∧ normalizeName name = normalizeName collectionName.
Proof.
  unfold nameMatches. destruct (groupNames !! g) as [name|].
  - rewrite String.eqb_eq. split; [eauto|]. by intros (n & [= <-] & ?).
  - split; [done|]. by intros (n & ? & _).
Qed.

Lemma resolveOwnership_sound `{Unicode} (groupNames : gmap Z string) (order : Z → list Z)
    (groupIdsSet : gset Z) (childCollections : list (Z * CollectionInfo)) c g :
  resolveOwnership groupNames order groupIdsSet childCollections !! c = Some g →
  ∃ info, (c, info) ∈ childCollections ∧ isAnchor (ParentID info) = true
          ∧ g ∈ groupIdsSet ∧ nameMatches groupNames (Name info) g = true.
Proof.
  unfold resolveOwnership. revert c g.
  apply (foldl_invariant
    (fun m : gmap Z Z => ∀ c g, m !! c = Some g →
       ∃ info, (c, info) ∈ childCollections ∧ isAnchor (ParentID info) = true
               ∧ g ∈ groupIdsSet ∧ nameMatches groupNames (Name info) g = true)).
  - intros c g Hm. by rewrite lookup_empty in Hm.
  - intros m [c' info'] Hin Hinv c g. unfold ownershipStep.
    destruct (isAnchor (ParentID info')) eqn:Ha; [|apply Hinv].
    destruct (find _ _) as [g'|] eqn:Hf; [|apply Hinv].
    apply find_some in Hf as [Hg' Hm'].
    apply list_elem_of_In, rangeGroups_elem in Hg'.
    destruct (decide (c' = c)) as [->|Hne].
    + rewrite lookup_insert_eq. intros [= <-]. eauto.
    + rewrite lookup_insert_ne by done. apply Hinv.
Qed.

(** X3. Ownership is sound and complete.  A collection has an owner only if
    it is a direct child of Public (5) or Draft (4) in the tree, and the
    owner is then a group under consideration whose fetched name normalizes
    to the same string as the collection's name; and every such child for
    which some group under consideration matches does get an owner. *)
Theorem ownership_sound_and_complete `{Unicode} (permissions : list CollectionPermission)
    (childCollectionsMap : gmap Z CollectionInfo) (groupNames : gmap Z string)
    (order : Schedule) (c : Z) :
  (∀ g, ownershipOf permissions childCollectionsMap groupNames order !! c = Some g →
     ∃ info name, childCollectionsMap !! c = Some info
                  ∧ isAnchor (ParentID info) = true
                  ∧ g ∈ groupIdsSetOf permissions
                  ∧ groupNames !! g = Some name
                  ∧ normalizeName name = normalizeName (Name info))
  ∧ (∀ info g name,
       childCollectionsMap !! c = Some info → isAnchor (ParentID info) = true →
       g ∈ groupIdsSetOf permissions → groupNames !! g = Some name →
       normalizeName name = normalizeName (Name info) →
       is_Some (ownershipOf permissions childCollectionsMap groupNames order !! c)).
Proof.
  split.
  - intros g Ho. apply resolveOwnership_sound in Ho as (info & Hin & Ha & Hg & Hm).
    apply rangeMap_elem in Hin. apply nameMatches_true in Hm as (name & Hn & Heq).
    eauto 10.
  - intros info g name Hc Ha Hg Hn Heq. apply resolveOwnership_is_Some.
    exists info. split; [by apply rangeMap_elem|]. split; [done|].
    exists g. split; [done|]. apply nameMatches_true. eauto.
Qed.

Lemma ownership_sound_and_complete_witness :
  ∃ info name, Scenario.tree !! 16 = Some info
               ∧ isAnchor (ParentID info) = true
               ∧ 7 ∈ groupIdsSetOf [Scenario.edge 7 "root" "read"]
               ∧ Scenario.names !! 7 = Some name
               ∧ @normalizeName ascii_unicode name = @normalizeName ascii_unicode (Name info).
Proof.
  destruct (@ownership_sound_and_complete ascii_unicode [Scenario.edge 7 "root" "read"]
              Scenario.tree Scenario.names Scenario.order 16) as [Hsound _].
  apply (Hsound 7). by vm_compute.
Defined.

(** ** The levels that expansion derives *)

Lemma derivedLevel_isDerivedLevel `{Unicode} groupNames info g :
  isDerivedLevel (derivedLevel groupNames info g).
Proof. unfold derivedLevel, isDerivedLevel. destruct (nameMatches _ _ _); eauto. Qed.

Lemma levelsInv_groupCollectionStep `{Unicode} permissions groupNames c info groups0 groups g :
  levelsInv groups0 groups →
  levelsInv groups0 (groupCollectionStep permissions groupNames c info groups g).
Proof.
  intros Hinv gs cs l Hl.
  destruct (groupCollectionStep_cell permissions groupNames c info groups g gs cs)
    as [Heq|(_ & _ & _ & [[_ Hs]|(_ & _ & Hw)])].
  - apply Hinv. congruence.
  - right. rewrite Hs in Hl. injection Hl as <-. apply derivedLevel_isDerivedLevel.
  - right. rewrite Hw in Hl. injection Hl as <-. by right.
Qed.

Lemma levelsInv_recursiveStep permissions owner c groups0 groups g :
  levelsInv groups0 groups →
  levelsInv groups0 (recursiveStep permissions owner c groups g).
Proof.
  intros Hinv gs cs l.
  destruct (recursiveStep_shape permissions owner c groups g) as [[_ ->]|[_ ->]].
  - rewrite cell_ensureGroup. apply Hinv.
  - rewrite cell_setPermission, cell_ensureGroup.
    destruct (decide _); [|apply Hinv].
    intros [= <-]. right. unfold isDerivedLevel. destruct (g =? owner); eauto.
Qed.

Lemma levelsInv_applyChildCollections `{Unicode} permissions childCollectionsMap
    groupNames (order : Schedule) groups0 :
  levelsInv groups0
    (applyChildCollections permissions childCollectionsMap groupNames order groups0).
Proof.
  unfold applyChildCollections, applyRecursive, applyGroupCollections.
  apply (foldl_invariant (levelsInv groups0)).
  - apply (foldl_invariant (levelsInv groups0)); [by left|].
    intros groups [c info] _ Hinv. unfold groupCollectionsEntry.
    destruct (isAnchor (ParentID info)); [|done].
    apply (foldl_invariant (levelsInv groups0)); [done|].
    intros groups1 g _. apply levelsInv_groupCollectionStep.
  - intros groups [c info] _ Hinv.
    destruct (recursiveEntry_cases permissions
                (ownershipOf permissions childCollectionsMap groupNames order)
                (recursiveGroups order) (groupIdsSetOf permissions) groups c info)
      as [[-> _]|(owner & _ & ->)]; [done|].
    apply (foldl_invariant (levelsInv groups0)); [done|].
    intros groups1 g _. apply levelsInv_recursiveStep.
Qed.

(** X4. Where every entry of the expanded graph comes from: it is either
    an explicit edge, verbatim, or a derived entry - and a derived entry is
    always [read] or [write] (never [none]), belongs to a group of some
    explicit edge, is not explicit for that group, and sits at a collection
    of the tree that is a direct child of Public or Draft or lies under an
    owned group collection and is mentioned by no explicit edge. *)
Theorem expand_entry_origin `{Unicode} (permissions : list CollectionPermission)
    (childCollectionsMap : gmap Z CollectionInfo) (groupNames : gmap Z string)
    (order : Schedule) (graph : Graph) (gs cs l : string) :
  expand permissions childCollectionsMap groupNames order true = Ok graph →
  cell graph gs cs = Some l →
  (∃ p, p ∈ permissions ∧ keyOf p = (gs, cs) ∧ ValueString (Permission p) = l)
  ∨ (∃ g c info,
       gs = FormatInt g ∧ cs = Itoa c
       ∧ g ∈ groupIdsSetOf permissions
       ∧ childCollectionsMap !! c = Some info
       ∧ isExplicitPermission permissions g cs = false
       ∧ isDerivedLevel l
       ∧ (isAnchor (ParentID info) = true
          ∨ ∃ owner,
              recursiveTarget permissions
                (ownershipOf permissions childCollectionsMap groupNames order)
                c info owner)).
Proof.
  intros He Hl. apply expand_inv in He as (seed & Hs & ->).
  pose proof (seedGroups_spec _ _ _ Hs) as (_ & _ & _ & Hcell & _).
  assert (cell seed gs cs = Some l →
          ∃ p, p ∈ permissions ∧ keyOf p = (gs, cs) ∧ ValueString (Permission p) = l)
    as Hseed.
  { intros Hc. apply Hcell in Hc as [Hc|?]; [|done].
    unfold cell in Hc. by rewrite lookup_empty in Hc. }
  destruct (derivedWrites_cell _ _ _ _ gs cs
              (applyChildCollections_derivedWrites_precise permissions
                 childCollectionsMap groupNames order seed))
    as [Heq|(g & c & Hall & -> & -> & Hex & _)].
  - left. apply Hseed. congruence.
  - destruct (levelsInv_applyChildCollections permissions childCollectionsMap
                groupNames order seed _ _ _ Hl) as [Hc|Hd].
    + exfalso. assert (isExplicitPermission permissions g (Itoa c) = true); [|congruence].
      eapply seed_cell_explicit; [done|]. by rewrite Hc.
    + right. exists g, c.
      destruct Hall as [(Hg & info & Hin & Ha)|(Hg & info & owner & Hin & Ht)];
        apply rangeMap_elem in Hin; exists info; eauto 10.
Qed.

Lemma expand_entry_origin_witness :
  (∃ p, p ∈ [Scenario.edge 7 "root" "read"; Scenario.edge 8 "root" "read"]
        ∧ keyOf p = ("8", "60") ∧ ValueString (Permission p) = "read")
  ∨ (∃ g c info,
       "8" = FormatInt g ∧ "60" = Itoa c
       ∧ g ∈ groupIdsSetOf [Scenario.edge 7 "root" "read"; Scenario.edge 8 "root" "read"]
       ∧ Scenario.tree !! c = Some info
       ∧ isExplicitPermission [Scenario.edge 7 "root" "read"; Scenario.edge 8 "root" "read"]
           g "60" = false
       ∧ isDerivedLevel "read"
       ∧ (isAnchor (ParentID info) = true
          ∨ ∃ owner,
              recursiveTarget [Scenario.edge 7 "root" "read"; Scenario.edge 8 "root" "read"]
                (@ownershipOf ascii_unicode
                   [Scenario.edge 7 "root" "read"; Scenario.edge 8 "root" "read"]
                   Scenario.tree Scenario.names Scenario.order)
                c info owner)).
Proof.
  apply (@expand_entry_origin ascii_unicode
           [Scenario.edge 7 "root" "read"; Scenario.edge 8 "root" "read"]
           Scenario.tree Scenario.names Scenario.order
           (scenarioGraph [Scenario.edge 7 "root" "read"; Scenario.edge 8 "root" "read"])).
  - by vm_compute.
  - by vm_compute.
Defined.

(** ** The direct children of Public and Draft *)

Section AnchorLevels.
Context `{Unicode}.
Variable permissions : list CollectionPermission.
Variable groupNames : gmap Z string.
Variable g c : Z.
Variable info : CollectionInfo.

Lemma groupCollectionStep_pending c' info' groups g' :
  (c' = c → info' = info) →
  cellPending groupNames g c info groups →
  cellPending groupNames g c info
    (groupCollectionStep permissions groupNames c' info' groups g').
Proof.
  intros Hfun Hp. unfold cellPending, cellSettled in *.
  destruct (groupCollectionStep_cell permissions groupNames c' info' groups g'
              (FormatInt g) (Itoa c)) as [->|(Hg & Hc & _ & [[_ Hs]|(Hr & Hm & Hw)])];
    [done| |].
  - apply FormatInt_inj in Hg as <-. apply Itoa_inj in Hc as <-.
    pose proof (Hfun eq_refl) as ->. by right.
  - apply FormatInt_inj in Hg as <-. apply Itoa_inj in Hc as <-.
    pose proof (Hfun eq_refl) as ->. right. rewrite Hw.
    unfold derivedLevel. by rewrite Hm.
Qed.

Lemma groupCollectionStep_settled c' info' groups g' :
  (c' = c → info' = info) →
  cellSettled groupNames g c info groups →
  cellSettled groupNames g c info
    (groupCollectionStep permissions groupNames c' info' groups g').
Proof.
  intros Hfun Hs.
  destruct (groupCollectionStep_pending c' info' groups g' Hfun (or_intror Hs))
    as [Hn|?]; [|done].
  exfalso. unfold cellPending, cellSettled in *.
  destruct (groupCollectionStep_cell permissions groupNames c' info' groups g'
              (FormatInt g) (Itoa c)) as [Heq|(_ & _ & _ & [[Hn' _]|(_ & _ & Hw)])];
    congruence.
Qed.

Lemma groupCollectionStep_settles groups :
  isExplicitPermission permissions g (Itoa c) = false →
  cellPending groupNames g c info groups →
  cellSettled groupNames g c info
    (groupCollectionStep permissions groupNames c info groups g).
Proof.
  intros He Hp. unfold cellPending, cellSettled in *. unfold groupCollectionStep.
  rewrite He, cell_ensureGroup.
  destruct Hp as [Hn|Hs].
  - rewrite Hn, cell_setPermission. by rewrite decide_True.
  - rewrite Hs. unfold derivedLevel in *.
    destruct (nameMatches groupNames (Name info) g); simpl.
    + rewrite cell_ensureGroup. by rewrite Hs.
    + rewrite cell_ensureGroup. by rewrite Hs.
Qed.

Lemma applyGroupCollections_settles (groupOrder : Z → list Z) (groupIdsSet : gset Z)
    (childCollections : list (Z * CollectionInfo)) (groups : Graph) :
  (c, info) ∈ childCollections →
  (∀ info', (c, info') ∈ childCollections → info' = info) →
  isAnchor (ParentID info) = true → g ∈ groupIdsSet →
  isExplicitPermission permissions g (Itoa c) = false →
  cell groups (FormatInt g) (Itoa c) = None →
  cellSettled groupNames g c info
    (applyGroupCollections permissions groupNames groupOrder groupIdsSet
       childCollections groups).
Proof.
  intros Hin Hfun Ha Hg He Hnone. unfold applyGroupCollections.
  assert (∀ (R : Graph → Prop),
    (∀ c' info' groups g', (c' = c → info' = info) → R groups →
       R (groupCollectionStep permissions groupNames c' info' groups g')) →
    ∀ groups entry, entry ∈ childCollections → R groups →
       R (groupCollectionsEntry permissions groupNames groupOrder groupIdsSet groups entry))
    as Hentry.
  { intros R HR groups1 [c' info'] Hin' HRg. unfold groupCollectionsEntry.
    destruct (isAnchor (ParentID info')); [|done].
    apply (foldl_invariant R); [done|]. intros ? ? _. apply HR.
    intros ->. by apply Hfun. }
  apply (foldl_establish_inv (cellPending groupNames g c info)
           (cellSettled groupNames g c info) _ _ _ (c, info)); [done|by left| | |].
  - apply Hentry. apply groupCollectionStep_pending.
  - intros groups1 Hp. unfold groupCollectionsEntry. rewrite Ha.
    apply (foldl_establish_inv (cellPending groupNames g c info)
             (cellSettled groupNames g c info) _ _ _ g);
      [by apply rangeGroups_elem|done| | |].
    + intros ? ? _. by apply groupCollectionStep_pending.
    + intros groups2. by apply groupCollectionStep_settles.
    + intros ? ? _. by apply groupCollectionStep_settled.
  - apply Hentry. apply groupCollectionStep_settled.
Qed.

End AnchorLevels.

(** X5. The levels at the group collections.  At a direct child of Public
    or Draft that step 4 does not propagate to (its own location does not
    lie under an owned group collection), every group under consideration
    without an explicit edge there ends with [write] if its fetched name
    normalizes to the child's name, and with [read] otherwise - in
    particular with [read] when its name lookup failed. *)
Theorem anchor_child_level `{Unicode} (permissions : list CollectionPermission)
    (childCollectionsMap : gmap Z CollectionInfo) (groupNames : gmap Z string)
    (order : Schedule) (graph : Graph) (g c : Z) (info : CollectionInfo) :
  expand permissions childCollectionsMap groupNames order true = Ok graph →
  childCollectionsMap !! c = Some info →
  isAnchor (ParentID info) = true →
  g ∈ groupIdsSetOf permissions →
  isExplicitPermission permissions g (Itoa c) = false →
  (∀ owner, ¬ recursiveTarget permissions
                (ownershipOf permissions childCollectionsMap groupNames order)
                c info owner) →
  cell graph (FormatInt g) (Itoa c)
  = Some (if nameMatches groupNames (Name info) g
          then metabase.CollectionPermissionLevelWrite
          else metabase.CollectionPermissionLevelRead).
Proof.
  intros He Hc Ha Hg Hex Hnt. apply expand_inv in He as (seed & Hs & ->).
  unfold applyChildCollections.
  destruct (derivedWrites_cell _ _ _ _ (FormatInt g) (Itoa c)
              (applyRecursive_derivedWrites permissions
                 (recursiveGroups order) (groupIdsSetOf permissions)
                 (ownershipOf permissions childCollectionsMap groupNames order)
                 (rangeMap (recursiveCollections order) childCollectionsMap)
                 (applyGroupCollections permissions groupNames
                    (groupCollectionGroups order) (groupIdsSetOf permissions)
                    (rangeMap (groupCollections order) childCollectionsMap) seed)))
    as [->|(g' & c' & (_ & info' & owner & Hin & Ht) & _ & Hcs & _)].
  - apply (applyGroupCollections_settles permissions groupNames g c info);
      [by apply rangeMap_elem| |done|done|done|].
    + intros info' Hin%rangeMap_elem. congruence.
    + destruct (cell seed (FormatInt g) (Itoa c)) eqn:Hcell; [|done].
      assert (isExplicitPermission permissions g (Itoa c) = true); [|congruence].
      eapply seed_cell_explicit; [done|]. by rewrite Hcell.
  - exfalso. apply Itoa_inj in Hcs as <-. apply rangeMap_elem in Hin.
    apply (Hnt owner). congruence.
Qed.

Lemma anchor_child_level_witness :
  cell (scenarioGraph [Scenario.edge 7 "root" "read"; Scenario.edge 8 "root" "read"])
       (FormatInt 7) (Itoa 16) = Some "write"
  ∧ cell (scenarioGraph [Scenario.edge 7 "root" "read"; Scenario.edge 8 "root" "read"])
         (FormatInt 8) (Itoa 16) = Some "read".
Proof.
  assert (∀ g, g ∈ groupIdsSetOf [Scenario.edge 7 "root" "read"; Scenario.edge 8 "root" "read"] →
    cell (scenarioGraph [Scenario.edge 7 "root" "read"; Scenario.edge 8 "root" "read"])
         (FormatInt g) (Itoa 16)
    = Some (if @nameMatches ascii_unicode Scenario.names "Analytics" g
            then "write" else "read")) as Hlevel.
  { intros g Hg.
    apply (@anchor_child_level ascii_unicode
             [Scenario.edge 7 "root" "read"; Scenario.edge 8 "root" "read"]
             Scenario.tree Scenario.names Scenario.order _ g 16
             {| ID := 16; ParentID := 5; Name := "Analytics"; Location := "/5/" |}).
    - by vm_compute.
    - by vm_compute.
    - reflexivity.
    - exact Hg.
    - unfold isExplicitPermission. simpl. by rewrite !andb_false_r.
    - intros owner (_ & Hid & _). by vm_compute in Hid. }
  split.
  - apply (Hlevel 7). apply (bool_decide_unpack _). by vm_compute.
  - apply (Hlevel 8). apply (bool_decide_unpack _). by vm_compute.
Defined.

(** ** Where expansion writes nothing *)

Lemma expand_untouched `{Unicode} permissions childCollectionsMap groupNames
    (order : Schedule) graph cs :
  expand permissions childCollectionsMap groupNames order true = Ok graph →
  (∀ c info, childCollectionsMap !! c = Some info → cs = Itoa c →
     isAnchor (ParentID info) = false
     ∧ ∀ owner, ¬ recursiveTarget permissions
                    (ownershipOf permissions childCollectionsMap groupNames order)
                    c info owner) →
  ∀ gs l, cell graph gs cs = Some l ↔
          ∃ p, p ∈ permissions ∧ keyOf p = (gs, cs) ∧ ValueString (Permission p) = l.
Proof.
  intros He Hno gs l. apply expand_inv in He as (seed & Hs & ->).
  pose proof (seedGroups_spec _ _ _ Hs) as (_ & _ & _ & Hcell & _).
  assert (cell (applyChildCollections permissions childCollectionsMap groupNames order seed)
               gs cs = cell seed gs cs) as ->.
  { destruct (derivedWrites_cell _ _ _ _ gs cs
                (applyChildCollections_derivedWrites_precise permissions
                   childCollectionsMap groupNames order seed))
      as [Heq|(g & c & Hall & _ & Hcs & _)]; [done|].
    exfalso.
    destruct Hall as [(_ & info & Hin & Ha)|(_ & info & owner & Hin & Ht)];
      apply rangeMap_elem in Hin; destruct (Hno c info Hin Hcs) as [Ha' Hnt].
    - congruence.
    - by apply (Hnt owner). }
  rewrite Hcell. unfold cell at 1. rewrite lookup_empty. simpl.
  split; [by intros [?|?]|by right].
Qed.

(** X6. Expansion derives nothing outside the managed tree and nothing in
    unowned subtrees: at a collection id that is no key of the tree (the
    root collection, a personal collection, one with a malformed location),
    and at a collection of the tree that is no direct child of Public or
    Draft and whose location does not lie under a group collection with an
    owner, the expanded graph holds exactly the explicit edges. *)
Theorem expand_leaves_unmanaged_alone `{Unicode} (permissions : list CollectionPermission)
    (childCollectionsMap : gmap Z CollectionInfo) (groupNames : gmap Z string)
    (order : Schedule) (graph : Graph) :
  expand permissions childCollectionsMap groupNames order true = Ok graph →
  (∀ cs, (∀ c, is_Some (childCollectionsMap !! c) → cs ≠ Itoa c) →
     ∀ gs l, cell graph gs cs = Some l ↔
             ∃ p, p ∈ permissions ∧ keyOf p = (gs, cs) ∧ ValueString (Permission p) = l)
  ∧ (∀ c info,
       childCollectionsMap !! c = Some info → isAnchor (ParentID info) = false →
       ownershipOf permissions childCollectionsMap groupNames order
         !! groupCollectionIdFromLocation (Location info) = None →
       ∀ gs l, cell graph gs (Itoa c) = Some l ↔
               ∃ p, p ∈ permissions ∧ keyOf p = (gs, Itoa c)
                    ∧ ValueString (Permission p) = l).
Proof.
  intros He. split.
  - intros cs Hout. apply (expand_untouched _ _ _ _ _ _ He).
    intros c info Hc Hcs. exfalso. by apply (Hout c).
  - intros c info Hc Ha Hown. apply (expand_untouched _ _ _ _ _ _ He).
    intros c' info' Hc' Hcs. apply Itoa_inj in Hcs as <-.
    assert (info' = info) as -> by congruence.
    split; [done|]. intros owner (_ & _ & Ho & _). congruence.
Qed.

Lemma expand_leaves_unmanaged_alone_witness :
  cell (scenarioGraph [Scenario.edge 7 "root" "read"; Scenario.edge 8 "root" "read"])
       "7" "root" = Some "write"
  ↔ ∃ p, p ∈ [Scenario.edge 7 "root" "read"; Scenario.edge 8 "root" "read"]
         ∧ keyOf p = ("7", "root") ∧ ValueString (Permission p) = "write".
Proof.
  destruct (@expand_leaves_unmanaged_alone ascii_unicode
              [Scenario.edge 7 "root" "read"; Scenario.edge 8 "root" "read"]
              Scenario.tree Scenario.names Scenario.order
              (scenarioGraph [Scenario.edge 7 "root" "read"; Scenario.edge 8 "root" "read"]))
    as [Hout _]; [by vm_compute|].
  apply Hout. intros c Hc Heq.
  assert (c = 16 ∨ c = 60) as [-> | ->].
  { destruct Hc as [info Hc]. apply elem_of_map_to_list in Hc.
    assert (map_to_list Scenario.tree
            = [(60, {| ID := 60; ParentID := 16; Name := "Reports"; Location := "/5/16/" |});
               (16, {| ID := 16; ParentID := 5; Name := "Analytics"; Location := "/5/" |})])
      as Hl by (by vm_compute).
    rewrite Hl in Hc. apply elem_of_cons in Hc as [[= -> _]|Hc]; [by right|].
    apply list_elem_of_singleton in Hc as [= -> _]. by left. }
  - by vm_compute in Heq.
  - by vm_compute in Heq.
Defined.

(** ** Group ids and group names *)

Lemma collectGroupIds_list permissions :
  NoDup (collectGroupIds permissions).2
  ∧ ∀ g, g ∈ (collectGroupIds permissions).2 ↔ g ∈ groupIdsSetOf permissions.
Proof.
  unfold groupIdsSetOf, collectGroupIds.
  apply (foldl_invariant
    (fun acc : gset Z * list Z => NoDup acc.2 ∧ ∀ g, g ∈ acc.2 ↔ g ∈ acc.1)).
  - simpl. split; [constructor|]. intros g. split; [by intros ?%elem_of_nil|].
    by intros ?%elem_of_empty.
  - intros [set lst] p _ [Hnd Hiff]. unfold addGroupId. simpl in *.
    destruct (IsNull (Group p)); [done|].
    case_bool_decide as Hin; simpl; [done|]. split.
    + apply NoDup_app. split; [done|]. split; [|apply NoDup_singleton].
      intros x Hx ->%list_elem_of_singleton. apply Hin. by apply Hiff.
    + intros g. rewrite elem_of_app, list_elem_of_singleton, elem_of_union,
        elem_of_singleton, Hiff. tauto.
Qed.

Lemma fetchGroupNames_snoc client groupIds g0 : ∀ groupNames trace,
  fetchGroupNames client (groupIds ++ [g0]) groupNames trace
  = match fetchGroupNames client groupIds groupNames trace with
    | (Ok names, trace') => fetchGroupNames client [g0] names trace'
    | (Error s d, trace') => (Error s d, trace')
    end.
Proof.
  induction groupIds as [|x l IH]; intros groupNames trace; simpl; [done|].
  by rewrite IH.
Qed.

Lemma fetchGroupNames_names client groupIds : ∀ (groupNames : gmap Z string) trace,
  ∃ names : gmap Z string,
    fetchGroupNames client groupIds groupNames trace
    = (Ok names, trace ++ (GetPermissionsGroup <$> groupIds))
    ∧ (∀ g, g ∉ groupIds → names !! g = groupNames !! g)
    ∧ (∀ before g after, groupIds = before ++ g :: after → g ∉ before → g ∉ after →
         names !! g
         = match getGroup client (trace ++ (GetPermissionsGroup <$> before)) g with
           | Some name => Some name
           | None => groupNames !! g
           end).
Proof.
  induction groupIds as [|g0 rest IH] using rev_ind; intros groupNames trace.
  - exists groupNames. simpl. unfold ret. rewrite app_nil_r. split; [done|].
    split; [done|]. intros before g after Heq. by destruct before.
  - destruct (IH groupNames trace) as (names0 & Hf0 & Hout0 & Hin0).
    rewrite fetchGroupNames_snoc, Hf0. simpl. unfold ret.
    eexists. split; [by rewrite fmap_app, app_assoc|]. split.
    + intros g Hg. rewrite elem_of_app, list_elem_of_singleton in Hg.
      destruct (getGroup client _ g0).
      * rewrite lookup_insert_ne by naive_solver. apply Hout0. naive_solver.
      * apply Hout0. naive_solver.
    + intros before g after Heq Hnb Hna.
      destruct after as [|a after' _] using rev_ind.
      * apply app_inj_tail in Heq as [<- <-].
        destruct (getGroup client _ g0); [by rewrite lookup_insert_eq|by apply Hout0].
      * rewrite app_comm_cons, app_assoc in Heq.
        apply app_inj_tail in Heq as [-> <-].
        rewrite elem_of_app, list_elem_of_singleton in Hna.
        assert (names0 !! g
                = match getGroup client (trace ++ (GetPermissionsGroup <$> before)) g with
                  | Some name => Some name
                  | None => groupNames !! g
                  end) as Hg by (apply (Hin0 before g after'); naive_solver).
        rewrite <- Hg. clear Hg.
        case_match; [|done].
        rewrite lookup_insert_ne; [done|]. intros ->. naive_solver.
Qed.

(** X7. Group names are fetched once per group: the lookups are sent for
    the distinct group ids of the explicit edges, one each; fetching never
    fails; the name recorded for a group is the server's answer to that
    group's lookup, and a group whose lookup fails, like a group that is not
    looked up, has no name. *)
Theorem group_names_fetched_once (client : Client)
    (permissions : list CollectionPermission) (trace : list Request) :
  let groupIds := (collectGroupIds permissions).2 in
  NoDup groupIds
  ∧ (∀ g, g ∈ groupIds ↔
       ∃ p, p ∈ permissions ∧ IsNull (Group p) = false ∧ ValueInt64 (Group p) = g)
  ∧ ∃ names,
      fetchGroupNames client groupIds ∅ trace
      = (Ok names, trace ++ (GetPermissionsGroup <$> groupIds))
      ∧ (∀ g, g ∉ groupIds → names !! g = None)
      ∧ (∀ before g after, groupIds = before ++ g :: after →
           names !! g = getGroup client (trace ++ (GetPermissionsGroup <$> before)) g).
Proof.
  intros groupIds. destruct (collectGroupIds_list permissions) as [Hnd Hiff].
  split; [done|]. split.
  { intros g. subst groupIds. rewrite Hiff. apply collectGroupIds_spec. }
  destruct (fetchGroupNames_names client groupIds ∅ trace) as (names & Hf & Hout & Hin).
  exists names. split; [done|]. split.
  { intros g Hg. by rewrite Hout. }
  intros before g after Heq.
  assert ((g ∉ before) ∧ (g ∉ after)) as [Hb Ha].
  { subst groupIds. rewrite Heq in Hnd. apply NoDup_app in Hnd as (_ & Hdis & Hnd2).
    apply NoDup_cons in Hnd2 as [? _]. split; [|done].
    intros Hb. apply (Hdis g Hb). apply elem_of_cons. by left. }
  rewrite (Hin before g after Heq Hb Ha).
  by destruct (getGroup client _ g).
Qed.

(** ** The graph builder as a whole *)

Lemma makeGraph_cases `{Unicode} data state client (order : Schedule) trace permissions seed :
  Permissions data = Known permissions →
  seedGroups ∅ permissions = Ok seed →
  if applyChildPermissionsOf data then
    match listCollections client trace with
    | None =>
        makeCollectionPermissionsGraphFromModel data state (Some client) order trace
        = (Error "Failed to list collections" "", trace ++ [ListCollections])
    | Some listing =>
        ∃ names,
          fetchGroupNames client (collectGroupIds permissions).2 ∅ (trace ++ [ListCollections])
          = (Ok names,
             (trace ++ [ListCollections])
             ++ (GetPermissionsGroup <$> (collectGroupIds permissions).2))
          ∧ makeCollectionPermissionsGraphFromModel data state (Some client) order trace
            = (Ok {| metabase.Revision := baseRevision data state;
                     metabase.Groups :=
                       applyChildCollections permissions (buildChildCollections listing)
                         names order seed |},
               (trace ++ [ListCollections])
               ++ (GetPermissionsGroup <$> (collectGroupIds permissions).2))
    end
  else
    makeCollectionPermissionsGraphFromModel data state (Some client) order trace
    = (Ok {| metabase.Revision := baseRevision data state; metabase.Groups := seed |}, trace).
Proof.
  intros Hp Hs.
  unfold makeCollectionPermissionsGraphFromModel, applyChildPermissionsOf, baseRevision,
    bind, lift, ret.
  rewrite Hp. simpl. rewrite Hs. simpl.
  destruct (if _ && _ then _ else true); [|by destruct state].
  unfold fetchChildCollections, bind, send, ret.
  destruct (listCollections client trace) as [listing|]; simpl; [|done].
  destruct (fetchGroupNames_trace client (collectGroupIds permissions).2 ∅
              (trace ++ [ListCollections])) as [names Hn].
  exists names. split; [done|]. rewrite Hn. by destruct state.
Qed.

(** X8. The graph the builder sends is the expansion of the plan.  For a
    plan whose explicit edges seed without error: with the toggle off the
    builder sends nothing and returns the seed; with the toggle on it lists
    the collections and, if that fails, stops with an error without looking
    up any group; otherwise it looks up the groups and always succeeds -
    failed lookups are not errors - returning exactly [expand] of the
    explicit edges over the tree of that listing and the names fetched.
    The revision of the body is the recorded one when there is a recorded
    state, the planned one otherwise. *)
Theorem makeGraph_is_expand `{Unicode} (data : CollectionGraphResourceModel)
    (state : option CollectionGraphResourceModel) (client : Client) (order : Schedule)
    (trace : list Request) (permissions : list CollectionPermission) (seed : Graph) :
  Permissions data = Known permissions →
  seedGroups ∅ permissions = Ok seed →
  if applyChildPermissionsOf data then
    match listCollections client trace with
    | None =>
        makeCollectionPermissionsGraphFromModel data state (Some client) order trace
        = (Error "Failed to list collections" "", trace ++ [ListCollections])
    | Some listing =>
        ∃ names graph,
          fetchGroupNames client (collectGroupIds permissions).2 ∅ (trace ++ [ListCollections])
          = (Ok names,
             (trace ++ [ListCollections])
             ++ (GetPermissionsGroup <$> (collectGroupIds permissions).2))
          ∧ expand permissions (buildChildCollections listing) names order true = Ok graph
          ∧ makeCollectionPermissionsGraphFromModel data state (Some client) order trace
            = (Ok {| metabase.Revision := baseRevision data state;
                     metabase.Groups := graph |},
               (trace ++ [ListCollections])
               ++ (GetPermissionsGroup <$> (collectGroupIds permissions).2))
    end
  else
    expand permissions ∅ ∅ order false = Ok seed
    ∧ makeCollectionPermissionsGraphFromModel data state (Some client) order trace
      = (Ok {| metabase.Revision := baseRevision data state; metabase.Groups := seed |}, trace).
Proof.
  intros Hp Hs. pose proof (makeGraph_cases data state client order trace _ _ Hp Hs) as Hc.
  destruct (applyChildPermissionsOf data).
  - destruct (listCollections client trace) as [listing|]; [|done].
    destruct Hc as (names & Hf & Hm). eexists names, _. split; [done|]. split; [|done].
    unfold expand. by rewrite Hs.
  - split; [|done]. unfold expand. by rewrite Hs.
Qed.

Lemma makeGraph_is_expand_witness :
  ∃ names graph,
    fetchGroupNames Scenario.client (collectGroupIds [Scenario.edge 7 "root" "read"]).2 ∅
      ([] ++ [ListCollections])
    = (Ok names,
       ([] ++ [ListCollections])
       ++ (GetPermissionsGroup <$> (collectGroupIds [Scenario.edge 7 "root" "read"]).2))
    ∧ @expand ascii_unicode [Scenario.edge 7 "root" "read"]
        (buildChildCollections Scenario.listing) names Scenario.order true = Ok graph
    ∧ @makeCollectionPermissionsGraphFromModel ascii_unicode
        (Scenario.model Null [Scenario.edge 7 "root" "read"] Null) None
        (Some Scenario.client) Scenario.order []
      = (Ok {| metabase.Revision :=
                 baseRevision (Scenario.model Null [Scenario.edge 7 "root" "read"] Null) None;
               metabase.Groups := graph |},
         ([] ++ [ListCollections])
         ++ (GetPermissionsGroup <$> (collectGroupIds [Scenario.edge 7 "root" "read"]).2)).
Proof.
  exact (@makeGraph_is_expand ascii_unicode
           (Scenario.model Null [Scenario.edge 7 "root" "read"] Null) None
           Scenario.client Scenario.order [] [Scenario.edge 7 "root" "read"]
           (setPermission "7" "root" "read" ∅) eq_refl eq_refl).
Defined.

(** ** Create *)

(** X9. What a successful Create has done: it read the live graph, built
    the body with reads only, and sent exactly one write, as its last
    request; the write carried the revision of the live graph just read,
    whatever revision the plan held; and the new state is the plan itself -
    its explicit edges, not the expanded graph - with the toggle defaulted
    to true and the revision the server answered. *)
Theorem create_success `{Unicode} (client : Client) (order : Schedule)
    (plan newState : CollectionGraphResourceModel) (trace trace' : list Request) :
  Create client order plan trace = (Ok newState, trace') →
  ∃ live reads body updateResp,
    getGraph client trace = Some live
    ∧ readsOnly reads
    ∧ trace' = trace ++ [GetCollectionPermissionsGraph] ++ reads
               ++ [ReplaceCollectionPermissionsGraph body]
    ∧ metabase.Revision body = metabase.Revision live
    ∧ replaceGraph client (trace ++ [GetCollectionPermissionsGraph] ++ reads) body
      = Some updateResp
    ∧ newState = withRevision (withDefaultFlag plan) (Known (metabase.Revision updateResp))
    ∧ Permissions newState = Permissions plan.
Proof.
  unfold Create, bind, send, ret.
  destruct (getGraph client trace) as [live|] eqn:Hlive; simpl; [|done].
  set (data := withRevision (withDefaultFlag plan) (Known (metabase.Revision live))).
  set (tempState := {| Revision := Known (metabase.Revision live);
                       IgnoredGroups := Null; Permissions := Null;
                       ApplyChildCollectionsPermissions := Null |}).
  destruct (makeGraph_trace data (Some tempState) (Some client) order
              (trace ++ [GetCollectionPermissionsGraph]))
    as (reads & Hreads & Htrace & Hrev).
  destruct (makeCollectionPermissionsGraphFromModel data (Some tempState) (Some client)
              order (trace ++ [GetCollectionPermissionsGraph]))
    as [[body|s d] t1] eqn:Hm; simpl in *; [|done].
  subst t1.
  destruct (replaceGraph client ((trace ++ [GetCollectionPermissionsGraph]) ++ reads) body)
    as [updateResp|] eqn:Hr; simpl; [|done].
  intros [= <- <-]. exists live, reads, body, updateResp.
  split; [done|]. split; [done|]. split; [by rewrite <- !app_assoc|].
  split; [by rewrite (Hrev body eq_refl)|].
  split; [by rewrite <- app_assoc in Hr|].
  split; [done|]. simpl. apply Permissions_withDefaultFlag.
Qed.

Lemma create_success_witness :
  ∃ live reads body updateResp,
    getGraph Scenario.client [] = Some live
    ∧ readsOnly reads
    ∧ (@Create ascii_unicode Scenario.client Scenario.order
         (Scenario.model (Known 3) [Scenario.edge 7 "root" "read"] Null) []).2
      = [] ++ [GetCollectionPermissionsGraph] ++ reads
        ++ [ReplaceCollectionPermissionsGraph body]
    ∧ metabase.Revision body = 41
    ∧ metabase.Revision updateResp = 42.
Proof.
  destruct (@Create ascii_unicode Scenario.client Scenario.order
              (Scenario.model (Known 3) [Scenario.edge 7 "root" "read"] Null) [])
    as [[newState|s d] trace'] eqn:Hc; [|by vm_compute in Hc].
  destruct (@create_success ascii_unicode Scenario.client Scenario.order _ _ _ _ Hc)
    as (live & reads & body & updateResp & Hlive & Hreads & -> & Hrev & Hresp & _).
  exists live, reads, body, updateResp.
  injection Hlive as <-. simpl in Hrev.
  injection Hresp as <-. simpl. rewrite Hrev. done.
Defined.

(** ** The state filter, exactly *)

(** X10. What the filter drops: an edge is kept exactly when its collection
    is null or is not the decimal id of a nested collection - a collection
    of the tree with a non-zero parent id whose location starts with [/5/]
    or [/4/] and has at least two path elements.  The collection strings
    are compared as strings: an id written in another way than
    [strconv.Itoa] prints it is never dropped. *)
Theorem filter_drops_exactly_nested (permissions : PermissionSet)
    (childCollectionsMap : gmap Z CollectionInfo) (p : CollectionPermission) :
  p ∈ Elements (filterPermissions permissions childCollectionsMap)
  ↔ p ∈ Elements permissions
    ∧ (IsNull (Collection p) = true
       ∨ ¬ ∃ c info, childCollectionsMap !! c = Some info
                     ∧ ValueString (Collection p) = Itoa c
                     ∧ isNestedCollection info = true).
Proof.
  unfold filterPermissions. simpl.
  rewrite list_elem_of_In, filter_In, <- list_elem_of_In. unfold keepPermission.
  destruct (IsNull (Collection p)); simpl.
  - naive_solver.
  - rewrite negb_true_iff, bool_decide_eq_false, childCollectionIdsOf_spec.
    naive_solver.
Qed.

Lemma filter_twice (l : list CollectionPermission) (f : CollectionPermission → bool) :
  List.filter f (List.filter f l) = List.filter f l.
Proof.
  induction l as [|x l IH]; simpl; [done|].
  destruct (f x) eqn:Hx; simpl; [|done]. by rewrite Hx, IH.
Qed.

(** X11. Filtering is idempotent: filtering an already filtered edge set
    against the same tree changes nothing, so a second Read over an
    unchanged listing reports the same edges as the first. *)
Theorem filter_idempotent (permissions : PermissionSet)
    (childCollectionsMap : gmap Z CollectionInfo) :
  filterPermissions (filterPermissions permissions childCollectionsMap) childCollectionsMap
  = filterPermissions permissions childCollectionsMap.
Proof. unfold filterPermissions. simpl. by rewrite filter_twice. Qed.

(** ** Create, Read, Update in sequence *)

Lemma Read_Ok client prior refreshed trace trace' :
  Read client prior trace = (Ok refreshed, trace') →
  ∃ listing live,
    listCollections client trace = Some listing
    ∧ getGraph client (trace ++ [ListCollections]) = Some live
    ∧ trace' = trace ++ [ListCollections; GetCollectionPermissionsGraph]
    ∧ Revision refreshed = Known (metabase.Revision live)
    ∧ Permissions refreshed
      = filterPermissions (Permissions prior) (buildChildCollections listing)
    ∧ ApplyChildCollectionsPermissions refreshed
      = ApplyChildCollectionsPermissions (withDefaultFlag prior).
Proof.
  unfold Read, fetchChildCollections, bind, send, ret.
  destruct (listCollections client trace) as [listing|]; simpl; [|done].
  destruct (getGraph client (trace ++ [ListCollections])) as [live|]; simpl; [|done].
  intros [= <- <-]. exists listing, live. simpl.
  rewrite Permissions_withDefaultFlag, <- app_assoc. done.
Qed.

Lemma Set_Equal_refl (s : PermissionSet) : Set_Equal s s = true.
Proof.
  destruct s as [| |l]; simpl; [done|done|].
  rewrite Nat.eqb_refl. simpl. apply forallb_forall. intros x Hx.
  apply bool_decide_eq_true. by apply list_elem_of_In.
Qed.

Lemma withDefaultFlag_flag data :
  ∃ b, ApplyChildCollectionsPermissions (withDefaultFlag data) = Known b.
Proof.
  unfold withDefaultFlag.
  destruct (ApplyChildCollectionsPermissions data) as [| |b] eqn:Hf; simpl; eauto.
Qed.

Lemma withDefaultFlag_idem data : withDefaultFlag (withDefaultFlag data) = withDefaultFlag data.
Proof.
  destruct (withDefaultFlag_flag data) as [b Hb].
  unfold withDefaultFlag at 1. by rewrite Hb.
Qed.

Lemma filter_all_kept (l : list CollectionPermission) (f : CollectionPermission → bool) :
  (∀ x, x ∈ l → f x = true) → List.filter f l = l.
Proof.
  induction l as [|x l IH]; intros Hall; simpl; [done|].
  rewrite Hall by (apply elem_of_cons; by left). f_equal. apply IH.
  intros y Hy. apply Hall. apply elem_of_cons. by right.
Qed.

Lemma filter_length_le (l : list CollectionPermission) (f : CollectionPermission → bool) :
  (length (List.filter f l) ≤ length l)%nat.
Proof.
  induction l as [|x l IH]; simpl; [done|]. destruct (f x); simpl; lia.
Qed.

Lemma filter_length_lt (l : list CollectionPermission) (f : CollectionPermission → bool) x :
  x ∈ l → f x = false → (length (List.filter f l) < length l)%nat.
Proof.
  induction l as [|y l IH]; intros Hx Hf; [by apply elem_of_nil in Hx|].
  simpl. apply elem_of_cons in Hx as [<-|Hx].
  - rewrite Hf. pose proof (filter_length_le l f). lia.
  - specialize (IH Hx Hf). destruct (f y); simpl; lia.
Qed.

Lemma makeGraph_Ok_seed `{Unicode} data state client (order : Schedule) trace trace' body
    permissions :
  Permissions data = Known permissions →
  makeCollectionPermissionsGraphFromModel data state client order trace = (Ok body, trace') →
  ∃ seed, seedGroups ∅ permissions = Ok seed.
Proof.
  intros Hp. unfold makeCollectionPermissionsGraphFromModel at 1. unfold bind, lift.
  rewrite Hp. simpl.
  destruct (seedGroups ∅ permissions) as [seed|] eqn:Hs; simpl; [eauto|done].
Qed.

Lemma Create_Ok_seed `{Unicode} client (order : Schedule) plan newState trace trace'
    permissions :
  Permissions plan = Known permissions →
  Create client order plan trace = (Ok newState, trace') →
  (∃ seed, seedGroups ∅ permissions = Ok seed)
  ∧ Permissions newState = Known permissions
  ∧ ApplyChildCollectionsPermissions newState
    = ApplyChildCollectionsPermissions (withDefaultFlag plan).
Proof.
  intros Hp. unfold Create, bind, send, ret.
  destruct (getGraph client trace) as [live|]; simpl; [|done].
  match goal with
  | |- (let (_, _) := ?m in _) = _ → _ => destruct m as [[body|s d] t1] eqn:Hm; [|done]
  end.
  apply makeGraph_Ok_seed with (permissions := permissions) in Hm;
    [|by simpl; rewrite Permissions_withDefaultFlag].
  destruct (replaceGraph client t1 body); simpl; [|done].
  intros [= <- <-]. simpl. by rewrite Permissions_withDefaultFlag.
Qed.

(** X12. Reconciliation converges.  After a successful Create and a
    successful Read, an Update with the same plan is a no-op - it sends no
    request and keeps the revision Read recorded - provided no explicit
    edge of the plan sits at a collection that the listing seen by Read
    shows as nested. *)
Theorem create_read_update_converges `{Unicode} (client : Client) (order order' : Schedule)
    (plan created refreshed : CollectionGraphResourceModel)
    (trace0 trace1 trace2 : list Request) (permissions : list CollectionPermission) :
  Permissions plan = Known permissions →
  Create client order plan trace0 = (Ok created, trace1) →
  Read client created trace1 = (Ok refreshed, trace2) →
  (∀ listing p c info,
     listCollections client trace1 = Some listing → p ∈ permissions →
     buildChildCollections listing !! c = Some info →
     ValueString (Collection p) = Itoa c → isNestedCollection info = false) →
  Permissions refreshed = Known permissions
  ∧ Update client order' plan refreshed trace2
    = (Ok (withRevision (withDefaultFlag plan) (Revision refreshed)), trace2).
Proof.
  intros Hp Hc Hr Hflat.
  destruct (Create_Ok_seed _ _ _ _ _ _ _ Hp Hc) as (_ & Hp1 & Hf1).
  apply Read_Ok in Hr as (listing & live & Hl & _ & _ & _ & Hp2 & Hf2).
  assert (Permissions refreshed = Known permissions) as Hp2'.
  { rewrite Hp2, Hp1. unfold filterPermissions. simpl. f_equal.
    apply filter_all_kept. intros p Hin. unfold keepPermission.
    destruct (IsNull (Collection p)); [done|]. simpl.
    apply negb_true_iff, bool_decide_eq_false.
    intros (c & info & Hc' & Hcs & Hn)%childCollectionIdsOf_spec.
    rewrite (Hflat listing p c info Hl Hin Hc' Hcs) in Hn. done. }
  split; [done|].
  unfold Update, permissionsChanged, flagChanged.
  rewrite Permissions_withDefaultFlag, Hp, Hp2', Set_Equal_refl. simpl.
  rewrite Hf2.
  assert (ApplyChildCollectionsPermissions (withDefaultFlag created)
          = ApplyChildCollectionsPermissions (withDefaultFlag plan)) as ->.
  { destruct (withDefaultFlag_flag plan) as [b Hb].
    unfold withDefaultFlag at 1. rewrite Hf1, Hb. simpl. by rewrite Hf1. }
  destruct (withDefaultFlag_flag plan) as [b ->]. simpl.
  by rewrite Bool.eqb_reflx.
Qed.

Lemma create_read_update_converges_witness :
  let plan := Scenario.model Unknown [Scenario.edge 7 "root" "read"] Null in
  ∃ refreshed trace2,
    @Update ascii_unicode Scenario.client Scenario.order plan refreshed trace2
    = (Ok (withRevision (withDefaultFlag plan) (Revision refreshed)), trace2).
Proof.
  intros plan.
  destruct (@Create ascii_unicode Scenario.client Scenario.order plan [])
    as [[created|s d] trace1] eqn:Hc; [|by vm_compute in Hc].
  destruct (Read Scenario.client created trace1)
    as [[refreshed|s d] trace2] eqn:Hr.
  2:{ unfold Read, fetchChildCollections, bind, send in Hr. simpl in Hr. done. }
  exists refreshed, trace2.
  apply (@create_read_update_converges ascii_unicode Scenario.client Scenario.order
           Scenario.order plan created refreshed [] trace1 trace2
           [Scenario.edge 7 "root" "read"] eq_refl Hc Hr).
  intros listing p c info Hl ->%list_elem_of_singleton Hin Hcs.
  injection Hl as <-.
  assert (c = 16 ∨ c = 60) as [-> | ->].
  { apply elem_of_map_to_list in Hin.
    assert (map_to_list (buildChildCollections Scenario.listing)
            = [(60, {| ID := 60; ParentID := 16; Name := "Reports"; Location := "/5/16/" |});
               (16, {| ID := 16; ParentID := 5; Name := "Analytics"; Location := "/5/" |})])
      as Heq by (by vm_compute).
    rewrite Heq in Hin. apply elem_of_cons in Hin as [[= -> _]|Hin]; [by right|].
    apply list_elem_of_singleton in Hin as [= -> _]. by left. }
  - vm_compute in Hcs. discriminate Hcs.
  - vm_compute in Hcs. discriminate Hcs.
Defined.

(** X13. An explicit edge at a nested collection never settles.  If the
    plan declares an edge whose collection the listing seen by Read shows
    as nested, Read drops it from the recorded state, and an Update with
    the same plan then detects a change and goes to the server again: it
    sends at least one request. *)
Theorem nested_explicit_edge_drifts `{Unicode} (client : Client) (order order' : Schedule)
    (plan created refreshed : CollectionGraphResourceModel)
    (trace0 trace1 trace2 : list Request) (permissions : list CollectionPermission)
    (listing : list metabase.Collection) (p : CollectionPermission) (c : Z)
    (info : CollectionInfo) :
  Permissions plan = Known permissions →
  Create client order plan trace0 = (Ok created, trace1) →
  Read client created trace1 = (Ok refreshed, trace2) →
  listCollections client trace1 = Some listing →
  p ∈ permissions → Collection p = Known (Itoa c) →
  buildChildCollections listing !! c = Some info → isNestedCollection info = true →
  (p ∉ Elements (Permissions refreshed))
  ∧ ∃ requests, requests ≠ []
      ∧ (Update client order' plan refreshed trace2).2 = trace2 ++ requests.
Proof.
  intros Hp Hc Hr Hl Hin Hcs Hc' Hn.
  destruct (Create_Ok_seed _ _ _ _ _ _ _ Hp Hc) as ([seed Hs] & Hp1 & Hf1).
  apply Read_Ok in Hr as (listing' & live & Hl' & _ & _ & _ & Hp2 & _).
  assert (listing' = listing) as -> by congruence.
  assert (keepPermission (childCollectionIdsOf (buildChildCollections listing)) p = false)
    as Hdrop.
  { unfold keepPermission. rewrite Hcs. simpl. apply negb_false_iff, bool_decide_eq_true.
    apply childCollectionIdsOf_spec. eauto. }
  split.
  { rewrite Hp2, Hp1. unfold filterPermissions. simpl.
    rewrite list_elem_of_In, filter_In. intros [_ Hk]. congruence. }
  assert (permissionsChanged (withDefaultFlag plan) refreshed = true) as Hchanged.
  { unfold permissionsChanged. rewrite Permissions_withDefaultFlag, Hp, Hp2, Hp1.
    unfold filterPermissions. simpl.
    pose proof (filter_length_lt permissions _ p Hin Hdrop) as Hlt.
    apply negb_true_iff, andb_false_iff. left. apply Nat.eqb_neq. lia. }
  unfold Update. rewrite Hchanged. simpl.
  assert (Permissions (withDefaultFlag plan) = Known permissions) as Hpd
    by (by rewrite Permissions_withDefaultFlag).
  pose proof (makeGraph_cases (withDefaultFlag plan) (Some refreshed) client order' trace2
                _ _ Hpd Hs) as Hm.
  unfold bind, send, ret.
  destruct (applyChildPermissionsOf (withDefaultFlag plan)).
  - destruct (listCollections client trace2) as [listing2|].
    + destruct Hm as (names & _ & ->). cbn beta iota.
      match goal with
      | |- context [replaceGraph client ?t ?b] =>
          exists ((ListCollections :: (GetPermissionsGroup <$> (collectGroupIds permissions).2))
                  ++ [ReplaceCollectionPermissionsGraph b]);
          split; [intros Hnil; apply app_eq_nil in Hnil as [_ Hnil]; discriminate Hnil|];
          destruct (replaceGraph client t b); cbn [snd]
      end; by rewrite <- !app_assoc.
    + rewrite Hm. simpl. by exists [ListCollections].
  - rewrite Hm. cbn beta iota.
    match goal with
    | |- context [replaceGraph client ?t ?b] =>
        exists [ReplaceCollectionPermissionsGraph b]; split; [done|];
        by destruct (replaceGraph client t b)
    end.
Qed.

Lemma nested_explicit_edge_drifts_witness :
  let plan := Scenario.model Unknown [Scenario.edge 7 "60" "read"] Null in
  ∃ refreshed trace2 requests,
    (Scenario.edge 7 "60" "read" ∉ Elements (Permissions refreshed))
    ∧ requests ≠ []
    ∧ (@Update ascii_unicode Scenario.client Scenario.order plan refreshed trace2).2
      = trace2 ++ requests.
Proof.
  intros plan.
  destruct (@Create ascii_unicode Scenario.client Scenario.order plan [])
    as [[created|s d] trace1] eqn:Hc; [|by vm_compute in Hc].
  destruct (Read Scenario.client created trace1)
    as [[refreshed|s d] trace2] eqn:Hr.
  2:{ unfold Read, fetchChildCollections, bind, send in Hr. simpl in Hr. done. }
  destruct (@nested_explicit_edge_drifts ascii_unicode Scenario.client Scenario.order
              Scenario.order plan created refreshed [] trace1 trace2
              [Scenario.edge 7 "60" "read"] Scenario.listing (Scenario.edge 7 "60" "read") 60
              {| ID := 60; ParentID := 16; Name := "Reports"; Location := "/5/16/" |}
              eq_refl Hc Hr eq_refl)
    as (Hgone & requests & Hne & Htrace).
  - by apply list_elem_of_singleton.
  - by vm_compute.
  - by vm_compute.
  - by vm_compute.
  - exists refreshed, trace2, requests. done.
Defined.

(** ** The resource tree, entry by entry *)

Lemma addCollection_cases childCollections collection :
  (addCollection childCollections collection = childCollections
   ∧ (¬ stored collection ∨ collectionKey collection = None))
  ∨ (∃ n, stored collection ∧ collectionKey collection = Some n
          ∧ addCollection childCollections collection
            = <[n := storedInfo collection n]> childCollections).
Proof.
  unfold addCollection, stored, collectionKey, storedInfo.
  destruct (metabase.PersonalOwnerId collection) as [o|]; [left; split; [done|left]; naive_solver|].
  destruct (String.eqb (default "" (metabase.Location collection)) "") eqn:He.
  { apply String.eqb_eq in He. left. split; [done|left]. naive_solver. }
  destruct (String.eqb (default "" (metabase.Location collection)) "/") eqn:Hr.
  { apply String.eqb_eq in Hr. left. split; [done|left]. naive_solver. }
  apply String.eqb_neq in He, Hr. simpl.
  destruct (parentIdOfLocation _ <? 0) eqn:Hp.
  { apply Z.ltb_lt in Hp. left. split; [done|left]. intros (_ & _ & _ & ?). lia. }
  apply Z.ltb_ge in Hp.
  destruct (metabase.Id collection) as [m|str].
  - right. exists m. done.
  - destruct (String.eqb str "root"); [left; by split; [|right]|].
    destruct (Atoi str) as [m|]; [|left; by split; [|right]].
    right. exists m. done.
Qed.

Lemma addCollection_skip childCollections collection n :
  ¬ (stored collection ∧ collectionKey collection = Some n) →
  addCollection childCollections collection !! n = childCollections !! n.
Proof.
  intros Hn.
  destruct (addCollection_cases childCollections collection)
    as [[-> _]|(m & Hs & Hk & ->)]; [done|].
  rewrite lookup_insert_ne; [done|]. intros ->. by apply Hn.
Qed.

Lemma foldl_addCollection_skip collections childCollections n :
  Forall (fun other => ¬ (stored other ∧ collectionKey other = Some n)) collections →
  foldl addCollection childCollections collections !! n = childCollections !! n.
Proof.
  revert childCollections.
  induction collections as [|c l IH]; intros m Hall; simpl; [done|].
  inversion Hall; subst. rewrite IH by done. by apply addCollection_skip.
Qed.

(** X14. The resource tree, entry by entry: the tree holds [info] under the
    key [n] exactly when [info] is the entry written for the last collection
    of the listing that passes the skips (not personal, location neither
    empty nor the root, last location element a non-negative integer) and
    whose id is [n] - an integer id, or a string id other than ["root"] that
    parses as [n].  A later collection with the same id replaces an earlier
    one; a skipped one does not. *)
Theorem tree_lookup_last_stored (collections : list metabase.Collection) (n : Z)
    (info : CollectionInfo) :
  buildChildCollections collections !! n = Some info
  ↔ ∃ before collection after,
      collections = before ++ collection :: after
      ∧ stored collection ∧ collectionKey collection = Some n
      ∧ info = storedInfo collection n
      ∧ Forall (fun other => ¬ (stored other ∧ collectionKey other = Some n)) after.
Proof.
  unfold buildChildCollections. split.
  - revert info. induction collections as [|c l IH] using rev_ind; intros info.
    { simpl. by rewrite lookup_empty. }
    rewrite foldl_app. simpl.
    destruct (addCollection_cases (foldl addCollection ∅ l) c)
      as [[-> Hskip]|(m & Hs & Hk & ->)].
    + intros (before & c0 & after & -> & Hs0 & Hk0 & -> & Hall)%IH.
      exists before, c0, (after ++ [c]). rewrite <- app_assoc. simpl.
      split_and!; try done. apply Forall_app. split; [done|].
      apply Forall_singleton. intros [Hs Hk]. destruct Hskip as [?|Hnone]; [done|congruence].
    + destruct (decide (m = n)) as [->|Hne].
      * rewrite lookup_insert_eq. intros [= <-]. exists l, c, []. done.
      * rewrite lookup_insert_ne by done.
        intros (before & c0 & after & -> & Hs0 & Hk0 & -> & Hall)%IH.
        exists before, c0, (after ++ [c]). rewrite <- app_assoc. simpl.
        split_and!; try done. apply Forall_app. split; [done|].
        apply Forall_singleton. intros [_ Hk']. congruence.
  - intros (before & c & after & -> & Hs & Hk & -> & Hall).
    rewrite foldl_app. simpl. rewrite foldl_addCollection_skip by done.
    destruct (addCollection_cases (foldl addCollection ∅ before) c)
      as [[_ [?|Hnone]]|(m & _ & Hk' & ->)]; [done|congruence|].
    assert (m = n) as -> by congruence. by rewrite lookup_insert_eq.
Qed.

(** X15. What every entry of the resource tree satisfies: its [ID] is its
    key, its location is the listed one and is neither empty nor the root,
    and its parent id is the last element of that location, a non-negative
    integer. *)
Theorem tree_entry_invariant (collections : list metabase.Collection) (n : Z)
    (info : CollectionInfo) :
  buildChildCollections collections !! n = Some info →
  ID info = n
  ∧ Location info ≠ "" ∧ Location info ≠ "/"
  ∧ ParentID info = parentIdOfLocation (Location info)
  ∧ 0 ≤ ParentID info
  ∧ ∃ collection,
      collection ∈ collections
      ∧ metabase.PersonalOwnerId collection = None
      ∧ metabase.Location collection = Some (Location info)
      ∧ metabase.Name collection = Name info
      ∧ collectionKey collection = Some n.
Proof.
  unfold buildChildCollections. revert info.
  induction collections as [|c l IH] using rev_ind; intros info.
  { simpl. by rewrite lookup_empty. }
  rewrite foldl_app. simpl.
  assert (∀ info, foldl addCollection ∅ l !! n = Some info →
            ID info = n ∧ Location info ≠ "" ∧ Location info ≠ "/"
            ∧ ParentID info = parentIdOfLocation (Location info) ∧ 0 ≤ ParentID info
            ∧ ∃ collection, collection ∈ l ++ [c]
                ∧ metabase.PersonalOwnerId collection = None
                ∧ metabase.Location collection = Some (Location info)
                ∧ metabase.Name collection = Name info
                ∧ collectionKey collection = Some n) as IH'.
  { intros info' (? & ? & ? & ? & ? & c0 & Hin & ?)%IH. repeat split; try done.
    exists c0. split; [|done]. apply elem_of_app. by left. }
  destruct (addCollection_cases (foldl addCollection ∅ l) c)
    as [[-> _]|(m & (Ho & He & Hr & Hp) & Hk & ->)]; [apply IH'|].
  destruct (decide (m = n)) as [->|Hne]; [|rewrite lookup_insert_ne by done; apply IH'].
  rewrite lookup_insert_eq. intros [= <-]. simpl. repeat split; try done.
  exists c. split; [apply elem_of_app; right; by apply list_elem_of_singleton|].
  repeat split; try done.
  destruct (metabase.Location c) as [location|]; [done|]. by simpl in He.
Qed.

Lemma tree_entry_invariant_witness :
  ∃ info, Scenario.tree !! 60 = Some info
    ∧ ID info = 60 ∧ Location info = "/5/16/" ∧ ParentID info = 16.
Proof.
  destruct (Scenario.tree !! 60) as [info|] eqn:Hl; [|by vm_compute in Hl].
  exists info. split; [done|].
  destruct (tree_entry_invariant Scenario.listing 60 info Hl)
    as (Hid & _ & _ & Hparent & _ & c & Hin & _ & Hloc & _ & Hk).
  split; [done|].
  assert (Location info = "/5/16/") as Hlocation.
  { unfold Scenario.listing in Hin.
    repeat (apply elem_of_cons in Hin as [->|Hin];
            [by (simpl in Hloc; injection Hloc as <-) || by vm_compute in Hk|]).
    by apply elem_of_nil in Hin. }
  split; [done|]. rewrite Hparent, Hlocation. by vm_compute.
Defined.

(** ** Locations *)

Lemma noSlash_parse_digits s acc n : parse_digits acc s = Some n → noSlash s = true.
Proof.
  revert acc. induction s as [|a r IH]; intros acc; simpl; [done|].
  destruct (digit_of a) as [d|] eqn:Hd; [|done]. intros Hp.
  rewrite (IH _ Hp), andb_true_r. apply negb_true_iff, Ascii.eqb_neq.
  intros ->. by vm_compute in Hd.
Qed.

Lemma Itoa_noSlash z : noSlash (Itoa z) = true ∧ Itoa z ≠ "".
Proof.
  unfold Itoa, pretty, pretty_Z. destruct z as [|x|x].
  - done.
  - unfold pretty, pretty_positive, pretty, pretty_N. rewrite decide_False by done.
    split; [|by apply pretty_N_go_nonempty].
    apply (noSlash_parse_digits _ 0 _ (parse_digits_pretty_N (N.pos x))).
  - unfold pretty, pretty_positive, pretty, pretty_N. rewrite decide_False by done.
    split; [|done]. simpl.
    apply (noSlash_parse_digits _ 0 _ (parse_digits_pretty_N (N.pos x))).
Qed.

Lemma Split_noSlash h : noSlash h = true → Split h slash = [h].
Proof.
  induction h as [|a h IH]; simpl; [done|].
  intros [Ha Hh]%andb_true_iff. apply negb_true_iff in Ha. by rewrite Ha, IH.
Qed.

Lemma Split_noSlash_app h r :
  noSlash h = true → Split (h +:+ String slash r) slash = h :: Split r slash.
Proof.
  induction h as [|a h IH]; simpl.
  - intros _. by rewrite ?Ascii.eqb_refl.
  - intros [Ha Hh]%andb_true_iff. apply negb_true_iff in Ha. by rewrite Ha, IH.
Qed.

Lemma TrimRight_noSlash h : noSlash h = true → TrimRight h slash = h.
Proof.
  induction h as [|a h IH]; simpl; [done|].
  intros [Ha Hh]%andb_true_iff. apply negb_true_iff in Ha. rewrite IH, Ha by done.
  by destruct h.
Qed.

Lemma TrimRight_app_empty h s c : TrimRight s c = "" → TrimRight (h +:+ s) c = TrimRight h c.
Proof. intros Hs. induction h as [|a h IH]; simpl; [done|]. by rewrite IH. Qed.

Lemma TrimRight_app_nonempty h s c :
  TrimRight s c ≠ "" → TrimRight (h +:+ s) c = h +:+ TrimRight s c.
Proof.
  intros Hs. induction h as [|a h IH]; [done|].
  change (TrimRight (String a (h +:+ s)) c = String a (h +:+ TrimRight s c)).
  simpl. rewrite IH.
  destruct (h +:+ TrimRight s c) eqn:Hh; [|done].
  destruct h; simpl in Hh; [done|discriminate Hh].
Qed.

Lemma TrimRight_cons_nonempty a x c :
  TrimRight x c ≠ "" → TrimRight (String a x) c = String a (TrimRight x c).
Proof. intros Hx. simpl. by destruct (TrimRight x c). Qed.

Lemma append_nonempty_l (h s : string) : h ≠ "" → h +:+ s ≠ "".
Proof. by destruct h. Qed.

Lemma joinPath_nonempty id path : joinPath (id :: path) ≠ "".
Proof.
  destruct path; simpl; [apply Itoa_noSlash|].
  apply append_nonempty_l, Itoa_noSlash.
Qed.

Lemma TrimRight_locationPath id path :
  TrimRight (locationPath (id :: path)) slash = joinPath (id :: path).
Proof.
  revert id. induction path as [|id' path IH]; intros id.
  - simpl. rewrite TrimRight_app_empty by (simpl; by rewrite ?Ascii.eqb_refl).
    apply TrimRight_noSlash, Itoa_noSlash.
  - change (locationPath (id :: id' :: path))
      with (Itoa id +:+ String slash (locationPath (id' :: path))).
    assert (TrimRight (String slash (locationPath (id' :: path))) slash
            = String slash (joinPath (id' :: path))) as Ht.
    { pose proof (joinPath_nonempty id' path) as Hne. rewrite <- IH in Hne |- *.
      apply TrimRight_cons_nonempty, Hne. }
    rewrite TrimRight_app_nonempty; rewrite Ht; done.
Qed.

Lemma Trim_locationOf id path :
  Trim (locationOf (id :: path)) slash = joinPath (id :: path).
Proof.
  unfold Trim, locationOf.
  change ("/" +:+ locationPath (id :: path)) with (String slash (locationPath (id :: path))).
  rewrite TrimLeft_eq.
  assert (TrimLeft (locationPath (id :: path)) slash = locationPath (id :: path)) as ->.
  { destruct (Itoa_noSlash id) as [Hn Hne]. simpl locationPath.
    destruct (Itoa id) as [|a r]; [done|]. simpl in Hn.
    apply andb_true_iff in Hn as [Ha%negb_true_iff _]. simpl. by rewrite Ha. }
  apply TrimRight_locationPath.
Qed.

Lemma Split_joinPath id path : Split (joinPath (id :: path)) slash = Itoa <$> (id :: path).
Proof.
  revert id. induction path as [|id' path IH]; intros id.
  - simpl. apply Split_noSlash, Itoa_noSlash.
  - change (joinPath (id :: id' :: path))
      with (Itoa id +:+ String slash (joinPath (id' :: path))).
    rewrite Split_noSlash_app by apply Itoa_noSlash. by rewrite IH.
Qed.

Lemma Split_locationPath path : Split (locationPath path) slash = (Itoa <$> path) ++ [""].
Proof.
  induction path as [|id path IH]; [done|].
  change (locationPath (id :: path)) with (Itoa id +:+ String slash (locationPath path)).
  rewrite Split_noSlash_app by apply Itoa_noSlash. by rewrite IH.
Qed.

Lemma Atoi_Itoa z : in_int64 z = true → Atoi (Itoa z) = Some z.
Proof. apply Atoi_FormatInt. Qed.

Lemma parentIdOfLocation_locationOf init parent :
  in_int64 parent = true → parentIdOfLocation (locationOf (init ++ [parent])) = parent.
Proof.
  intros Hr. unfold parentIdOfLocation.
  destruct (init ++ [parent]) as [|id path] eqn:Hp; [by destruct init|].
  rewrite Trim_locationOf, Split_joinPath, <- Hp, fmap_app.
  change (Itoa <$> [parent]) with [Itoa parent].
  by rewrite last_snoc, Atoi_Itoa.
Qed.

(** X16. Locations decode to the parent.  For a collection whose ancestors
    are, from the top, [init ++ [parent]], the parent id that the listing
    loop derives from the location [/a1/.../parent/] is [parent] (any
    64-bit integer; the elements before it need not even be in range). *)
Theorem location_decodes_parent (init : list Z) (parent : Z) :
  in_int64 parent = true →
  parentIdOfLocation (locationOf (init ++ [parent])) = parent.
Proof. apply parentIdOfLocation_locationOf. Qed.

Lemma location_decodes_parent_witness :
  locationOf [5; 16; 60] = "/5/16/60/" ∧ parentIdOfLocation "/5/16/60/" = 60.
Proof.
  assert (locationOf [5; 16; 60] = "/5/16/60/") as Hl by (by vm_compute).
  split; [done|]. rewrite <- Hl. by apply (location_decodes_parent [5; 16] 60).
Defined.

Lemma prefix_cons a b p s :
  String.prefix (String a p) (String b s) = if ascii_dec a b then String.prefix p s else false.
Proof. reflexivity. Qed.

Lemma prefix_nil s : String.prefix "" s = true.
Proof. by destruct s. Qed.

Lemma eqb_cons a b p s : String.eqb (String a p) (String b s) = Ascii.eqb a b && String.eqb p s.
Proof. reflexivity. Qed.

Lemma noSlash_cons a s : noSlash (String a s) = true → a ≠ slash ∧ noSlash s = true.
Proof.
  change (noSlash (String a s)) with (negb (Ascii.eqb a slash) && noSlash s).
  intros [Ha%negb_true_iff%Ascii.eqb_neq Hs]%andb_true_iff. done.
Qed.

Lemma prefix_noSlash h' : ∀ h p r,
  noSlash h = true → noSlash h' = true →
  String.prefix (h' +:+ String slash p) (h +:+ String slash r)
  = String.eqb h h' && String.prefix p r.
Proof.
  induction h' as [|a h' IH]; intros h p r Hh Hh'.
  - change ("" +:+ String slash p) with (String slash p).
    destruct h as [|b h].
    + change ("" +:+ String slash r) with (String slash r).
      rewrite prefix_cons. by destruct (ascii_dec slash slash).
    + change (String b h +:+ String slash r) with (String b (h +:+ String slash r)).
      apply noSlash_cons in Hh as [Hb _].
      rewrite prefix_cons. by destruct (ascii_dec slash b) as [<-|].
  - change (String a h' +:+ String slash p) with (String a (h' +:+ String slash p)).
    apply noSlash_cons in Hh' as [Ha Hh'].
    destruct h as [|b h].
    + change ("" +:+ String slash r) with (String slash r).
      rewrite prefix_cons. by destruct (ascii_dec a slash) as [->|].
    + change (String b h +:+ String slash r) with (String b (h +:+ String slash r)).
      apply noSlash_cons in Hh as [_ Hh].
      rewrite prefix_cons, eqb_cons.
      destruct (ascii_dec a b) as [->|Hne].
      * rewrite Ascii.eqb_refl. by apply IH.
      * apply not_eq_sym, Ascii.eqb_neq in Hne. by rewrite Hne.
Qed.

Lemma Itoa_eqb a b : String.eqb (Itoa a) (Itoa b) = (a =? b).
Proof.
  destruct (Z.eqb_spec a b) as [->|Hne]; [apply String.eqb_refl|].
  apply String.eqb_neq. by intros ?%Itoa_inj.
Qed.

Lemma HasPrefix_locationOf root path a :
  HasPrefix (locationOf (root :: path)) (String slash (Itoa a +:+ String slash ""))
  = (root =? a).
Proof.
  unfold HasPrefix, locationOf.
  change ("/" +:+ locationPath (root :: path))
    with (String slash (Itoa root +:+ String slash (locationPath path))).
  rewrite prefix_cons. destruct (ascii_dec slash slash); [|done].
  rewrite prefix_noSlash by apply Itoa_noSlash.
  rewrite Itoa_eqb, prefix_nil. apply andb_true_r.
Qed.

Lemma HasPrefix_locationOf_5 root path :
  HasPrefix (locationOf (root :: path)) "/5/" = (root =? 5).
Proof. apply (HasPrefix_locationOf root path 5). Qed.

Lemma HasPrefix_locationOf_4 root path :
  HasPrefix (locationOf (root :: path)) "/4/" = (root =? 4).
Proof. apply (HasPrefix_locationOf root path 4). Qed.

Lemma firstPartId_locationPath path :
  (∀ g, head path = Some g → in_int64 g = true) →
  firstPartId (Split (locationPath path) slash) = default (-1) (head path).
Proof.
  intros Hr. rewrite Split_locationPath. destruct path as [|g rest]; [done|].
  simpl. destruct (Itoa_noSlash g) as [_ Hne%String.eqb_neq]. rewrite Hne.
  by rewrite Atoi_Itoa by by apply Hr.
Qed.

Lemma TrimPrefix_locationOf_5 path :
  TrimPrefix (locationOf (5 :: path)) "/5/" = locationPath path.
Proof.
  unfold TrimPrefix. rewrite HasPrefix_locationOf_5.
  assert (Itoa 5 = "5") as Hi by (by vm_compute).
  unfold locationOf, locationPath. cbn [foldr]. by rewrite Hi.
Qed.

Lemma TrimPrefix_locationOf_4 path :
  TrimPrefix (locationOf (4 :: path)) "/4/" = locationPath path.
Proof.
  unfold TrimPrefix. rewrite HasPrefix_locationOf_4.
  assert (Itoa 4 = "4") as Hi by (by vm_compute).
  unfold locationOf, locationPath. cbn [foldr]. by rewrite Hi.
Qed.

(** X17. Locations decode to the group collection.  For a collection whose
    ancestors are, from the top, [root :: path], step 4 finds as its group
    collection the second element of the path when the first is Public (5)
    or Draft (4), and none ([-1]) otherwise - in particular none for a
    direct child of Public or Draft, whose path has one element. *)
Theorem location_decodes_group_collection (root : Z) (path : list Z) :
  (∀ g, head path = Some g → in_int64 g = true) →
  groupCollectionIdFromLocation (locationOf (root :: path))
  = if isAnchor root then default (-1) (head path) else -1.
Proof.
  intros Hr. unfold groupCollectionIdFromLocation, isAnchor.
  rewrite HasPrefix_locationOf_5, HasPrefix_locationOf_4.
  destruct (Z.eqb_spec root 5) as [->|H5].
  { rewrite TrimPrefix_locationOf_5. by apply firstPartId_locationPath. }
  destruct (Z.eqb_spec root 4) as [->|H4]; [|done].
  rewrite TrimPrefix_locationOf_4. by apply firstPartId_locationPath.
Qed.

Lemma location_decodes_group_collection_witness :
  groupCollectionIdFromLocation (locationOf [5; 16; 60]) = 16
  ∧ groupCollectionIdFromLocation (locationOf [5]) = -1
  ∧ groupCollectionIdFromLocation (locationOf [7; 16]) = -1.
Proof.
  split_and!.
  - apply (location_decodes_group_collection 5 [16; 60]). by intros g [= <-].
  - apply (location_decodes_group_collection 5 []). by intros g [=].
  - apply (location_decodes_group_collection 7 [16]). by intros g [= <-].
Defined.

(** X18. Which collections the state filter takes for nested.  An entry
    whose location is that of the ancestors [root :: path] counts as nested
    exactly when its parent id is not 0, the top ancestor is Public (5) or
    Draft (4), and there is at least one more ancestor below it. *)
Theorem nested_iff_below_anchor_child (c parent : Z) (name : string) (root : Z)
    (path : list Z) :
  isNestedCollection {| ID := c; ParentID := parent; Name := name;
                        Location := locationOf (root :: path) |}
  = negb (parent =? 0) && isAnchor root && bool_decide (path ≠ []).
Proof.
  unfold isNestedCollection, isAnchor. cbn [ParentID Location].
  rewrite HasPrefix_locationOf_5, HasPrefix_locationOf_4.
  destruct (parent =? 0); [done|].
  destruct ((root =? 5) || (root =? 4)); [|done]. simpl andb.
  rewrite Trim_locationOf, Split_joinPath, length_fmap.
  destruct path as [|g rest]; simpl length.
  - rewrite bool_decide_eq_false_2 by lia. by rewrite bool_decide_eq_false_2 by naive_solver.
  - rewrite bool_decide_eq_true_2 by lia. by rewrite bool_decide_eq_true_2.
Qed.

Lemma HasPrefix_app s p : HasPrefix s p = true → ∃ rest, s = p +:+ rest.
Proof.
  unfold HasPrefix. revert s. induction p as [|a p IH]; intros s.
  - intros _. by exists s.
  - destruct s as [|b s]; [done|]. rewrite prefix_cons.
    destruct (ascii_dec a b) as [->|]; [|done].
    intros [rest ->]%IH. by exists rest.
Qed.

Lemma append_assoc (a b c : string) : (a +:+ b) +:+ c = a +:+ (b +:+ c).
Proof.
  induction a as [|x a IH]; [done|].
  change (String x ((a +:+ b) +:+ c) = String x (a +:+ (b +:+ c))). by rewrite IH.
Qed.

(** X19. The helper [isCollectionUnderGroup] agrees with the inline code of
    step 4: whenever it says that a location lies under the group
    collection [groupId] of Public (5) or Draft (4), step 4 finds [groupId]
    as the group collection of that location. *)
Theorem isCollectionUnderGroup_agrees (location : string) (rootCollectionId groupId : Z) :
  in_int64 groupId = true →
  isAnchor rootCollectionId = true →
  isCollectionUnderGroup location rootCollectionId groupId = true →
  groupCollectionIdFromLocation location = groupId.
Proof.
  intros Hr Hroot. unfold isCollectionUnderGroup.
  destruct (String.eqb location ""); [done|].
  intros [rest ->]%HasPrefix_app.
  assert (∀ a, ("/" +:+ Itoa a +:+ "/" +:+ Itoa groupId +:+ "/") +:+ rest
               = String slash (Itoa a +:+ String slash (Itoa groupId +:+ String slash rest)))
    as Hshape.
  { intros a.
    change (String slash ((Itoa a +:+ String slash (Itoa groupId +:+ String slash "")) +:+ rest)
            = String slash (Itoa a +:+ String slash (Itoa groupId +:+ String slash rest))).
    rewrite append_assoc.
    change (String slash (Itoa groupId +:+ String slash "") +:+ rest)
      with (String slash ((Itoa groupId +:+ String slash "") +:+ rest)).
    by rewrite append_assoc. }
  rewrite Hshape. unfold groupCollectionIdFromLocation, HasPrefix, TrimPrefix, HasPrefix.
  assert (∀ a, String.prefix (String slash (Itoa a +:+ String slash ""))
                 (String slash (Itoa rootCollectionId
                                +:+ String slash (Itoa groupId +:+ String slash rest)))
               = (rootCollectionId =? a)) as Hprefix.
  { intros a. rewrite prefix_cons. destruct (ascii_dec slash slash); [|done].
    rewrite prefix_noSlash by apply Itoa_noSlash. rewrite Itoa_eqb, prefix_nil.
    apply andb_true_r. }
  change "/5/" with (String slash (Itoa 5 +:+ String slash "")).
  change "/4/" with (String slash (Itoa 4 +:+ String slash "")).
  rewrite !Hprefix.
  assert (firstPartId (Split (Itoa groupId +:+ String slash rest) slash) = groupId) as Hfirst.
  { rewrite Split_noSlash_app by apply Itoa_noSlash. simpl.
    destruct (Itoa_noSlash groupId) as [_ Hne%String.eqb_neq]. rewrite Hne.
    by rewrite Atoi_Itoa. }
  unfold isAnchor in Hroot.
  destruct (Z.eqb_spec rootCollectionId 5) as [->|H5]; [exact Hfirst|].
  destruct (Z.eqb_spec rootCollectionId 4) as [->|H4]; [exact Hfirst|done].
Qed.

Lemma isCollectionUnderGroup_agrees_witness :
  isCollectionUnderGroup "/5/16/60/69/" 5 16 = true
  ∧ groupCollectionIdFromLocation "/5/16/60/69/" = 16.
Proof.
  assert (isCollectionUnderGroup "/5/16/60/69/" 5 16 = true) as Hu by (by vm_compute).
  split; [done|].
  apply (isCollectionUnderGroup_agrees "/5/16/60/69/" 5 16); [reflexivity|reflexivity|exact Hu].
Defined.

(** ** Name normalisation on ASCII names *)

Lemma keepAlnum_RemoveAll (s : string) (c : ascii) :
  ascii_is_alnum c = false →
  foldr (fun r acc => if ascii_is_letter r || ascii_is_digit r
                      then String r EmptyString +:+ acc else acc)
        EmptyString (list_ascii_of_string (RemoveAll s c))
  = foldr (fun r acc => if ascii_is_letter r || ascii_is_digit r
                        then String r EmptyString +:+ acc else acc)
          EmptyString (list_ascii_of_string s).
Proof.
  intros Hc. induction s as [|a r IH]; [done|].
  cbn [RemoveAll]. destruct (Ascii.eqb a c) eqn:Ha.
  - apply Ascii.eqb_eq in Ha as ->. cbn [list_ascii_of_string foldr].
    unfold ascii_is_alnum in Hc. by rewrite Hc.
  - cbn [list_ascii_of_string foldr]. by rewrite IH.
Qed.

Lemma keepAlnum_lower (s : string) :
  foldr (fun r acc => if ascii_is_letter r || ascii_is_digit r
                      then String r EmptyString +:+ acc else acc)
        EmptyString (list_ascii_of_string (map_string ascii_lower s))
  = lowerAlnum s.
Proof.
  induction s as [|a r IH]; [done|].
  cbn [map_string list_ascii_of_string foldr lowerAlnum]. rewrite IH.
  unfold ascii_is_alnum. by destruct (_ || _).
Qed.

Lemma normalizeName_ascii (name : string) :
  @normalizeName ascii_unicode name = lowerAlnum name.
Proof.
  unfold normalizeName. cbn [ascii_unicode runes WriteRune ToLower IsLetter IsDigit].
  rewrite !keepAlnum_RemoveAll by done. apply keepAlnum_lower.
Qed.

Lemma lowerAlnum_app (a b : string) : lowerAlnum (a +:+ b) = lowerAlnum a +:+ lowerAlnum b.
Proof.
  induction a as [|x a IH]; [done|].
  change (String x a +:+ b) with (String x (a +:+ b)). cbn [lowerAlnum].
  rewrite IH. by destruct (ascii_is_alnum (ascii_lower x)).
Qed.

Lemma ascii_lower_idem (a : ascii) : ascii_lower (ascii_lower a) = ascii_lower a.
Proof. destruct a as [[] [] [] [] [] [] [] []]; reflexivity. Qed.

Lemma ascii_lower_alnum (a : ascii) :
  ascii_is_alnum (ascii_lower a) = false → ascii_is_alnum a = false.
Proof. destruct a as [[] [] [] [] [] [] [] []]; by vm_compute. Qed.

Lemma lowerAlnum_idem (s : string) : lowerAlnum (lowerAlnum s) = lowerAlnum s.
Proof.
  induction s as [|a r IH]; [done|]. cbn [lowerAlnum].
  destruct (ascii_is_alnum (ascii_lower a)) eqn:Ha; [|done].
  cbn [lowerAlnum]. by rewrite ascii_lower_idem, Ha, IH.
Qed.

Lemma lowerAlnum_lower (s : string) : lowerAlnum (map_string ascii_lower s) = lowerAlnum s.
Proof.
  induction s as [|a r IH]; [done|]. cbn [map_string lowerAlnum].
  by rewrite ascii_lower_idem, IH.
Qed.

(** X20. How names are matched, for ASCII names (every byte is then one
    rune, and the ASCII fragment stands for the Unicode tables).  The
    normal form of a name is its letters and digits in lower case.  So
    normalising is idempotent, ignores case, goes through concatenation,
    and ignores every character that is neither a letter nor a digit,
    wherever it stands: ["Sales Team"], ["sales_team"] and ["SALES-TEAM!"]
    all match. *)
Theorem normalizeName_ascii_letters_and_digits (name other : string) (c : ascii) :
  isASCII name = true → isASCII other = true →
  @normalizeName ascii_unicode (@normalizeName ascii_unicode name)
  = @normalizeName ascii_unicode name
  ∧ @normalizeName ascii_unicode (map_string ascii_lower name)
    = @normalizeName ascii_unicode name
  ∧ @normalizeName ascii_unicode (name +:+ other)
    = @normalizeName ascii_unicode name +:+ @normalizeName ascii_unicode other
  ∧ (ascii_is_alnum c = false →
     @normalizeName ascii_unicode (name +:+ String c other)
     = @normalizeName ascii_unicode (name +:+ other)).
Proof.
  intros _ _. rewrite !normalizeName_ascii. split_and!.
  - apply lowerAlnum_idem.
  - apply lowerAlnum_lower.
  - apply lowerAlnum_app.
  - intros Hc. rewrite !lowerAlnum_app. f_equal. cbn [lowerAlnum].
    destruct (ascii_is_alnum (ascii_lower c)) eqn:Hl; [|done].
    destruct c as [[] [] [] [] [] [] [] []]; by vm_compute in Hc, Hl.
Qed.

Lemma normalizeName_ascii_letters_and_digits_witness :
  @normalizeName ascii_unicode ("Sales" +:+ String " " "Team")
  = @normalizeName ascii_unicode ("Sales" +:+ "Team")
  ∧ @normalizeName ascii_unicode "SalesTeam" = "salesteam".
Proof.
  split; [|by vm_compute].
  by apply (normalizeName_ascii_letters_and_digits "Sales" "Team" " ").
Defined.

(** ** What Read does not look at *)

(** X21. Read does not look at the permissions on the server.  Of the live
    graph only the revision enters the refreshed state: against two servers
    that list the same collections and answer with the same revision, Read
    sends the same requests and returns the same state, whatever
    permissions the two live graphs hold - a change made on the server
    behind the provider's back is not seen by Read. *)
Theorem read_ignores_server_permissions (client client' : Client)
    (prior : CollectionGraphResourceModel) (trace : list Request) :
  (∀ t, listCollections client' t = listCollections client t) →
  (∀ t, metabase.Revision <$> getGraph client' t = metabase.Revision <$> getGraph client t) →
  Read client' prior trace = Read client prior trace.
Proof.
  intros Hlist Hrev. unfold Read, fetchChildCollections, bind, send, ret.
  rewrite Hlist. destruct (listCollections client trace) as [listing|]; [|done].
  cbn beta iota. specialize (Hrev (trace ++ [ListCollections])).
  destruct (getGraph client' (trace ++ [ListCollections])) as [live'|],
           (getGraph client (trace ++ [ListCollections])) as [live|];
    simpl in Hrev; try done.
  injection Hrev as Hrev. cbn beta iota. by rewrite Hrev.
Qed.

Lemma read_ignores_server_permissions_witness :
  let drifted : Client :=
    {| getGraph := fun _ =>
         Some {| metabase.Revision := 41;
                 metabase.Groups := {[ "7" := {[ "16" := "write" ]} ]} |};
       listCollections := listCollections Scenario.client;
       getGroup := getGroup Scenario.client;
       replaceGraph := replaceGraph Scenario.client |} in
  let prior := Scenario.model (Known 40) [Scenario.edge 7 "16" "read"] (Known true) in
  Read drifted prior [] = Read Scenario.client prior [].
Proof.
  intros drifted prior.
  apply (read_ignores_server_permissions Scenario.client drifted prior []); reflexivity.
Defined.

(** ** Independence of the iteration order *)

Section ScheduleIndependence.
Context `{Unicode}.
Variable permissions : list CollectionPermission.
Variable childCollectionsMap : gmap Z CollectionInfo.
Variable groupNames : gmap Z string.

Lemma applyChildCollections_cell (order : Schedule) seed g c info :
  seedGroups ∅ permissions = Ok seed →
  childCollectionsMap !! c = Some info →
  g ∈ groupIdsSetOf permissions →
  isExplicitPermission permissions g (Itoa c) = false →
  (∀ owner,
     recursiveTarget permissions
       (ownershipOf permissions childCollectionsMap groupNames order) c info owner →
     cell (applyChildCollections permissions childCollectionsMap groupNames order seed)
          (FormatInt g) (Itoa c)
     = Some (if g =? owner then metabase.CollectionPermissionLevelWrite
             else metabase.CollectionPermissionLevelRead))
  ∧ ((∀ owner,
        ¬ recursiveTarget permissions
            (ownershipOf permissions childCollectionsMap groupNames order) c info owner) →
     cell (applyChildCollections permissions childCollectionsMap groupNames order seed)
          (FormatInt g) (Itoa c)
     = if isAnchor (ParentID info) then Some (derivedLevel groupNames info g) else None).
Proof.
  intros Hs Hc Hg Hex.
  assert (cell seed (FormatInt g) (Itoa c) = None) as Hseed.
  { destruct (cell seed (FormatInt g) (Itoa c)) eqn:Hcell; [|done].
    assert (isExplicitPermission permissions g (Itoa c) = true); [|congruence].
    eapply seed_cell_explicit; [done|]. by rewrite Hcell. }
  split.
  - intros owner Ht. unfold applyChildCollections.
    apply applyRecursive_target with (info := info); [by apply rangeMap_elem| |done|done].
    intros info' Hin%rangeMap_elem. congruence.
  - intros Hnt. unfold applyChildCollections.
    destruct (derivedWrites_cell _ _ _ _ (FormatInt g) (Itoa c)
                (applyRecursive_derivedWrites permissions
                   (recursiveGroups order) (groupIdsSetOf permissions)
                   (ownershipOf permissions childCollectionsMap groupNames order)
                   (rangeMap (recursiveCollections order) childCollectionsMap)
                   (applyGroupCollections permissions groupNames
                      (groupCollectionGroups order) (groupIdsSetOf permissions)
                      (rangeMap (groupCollections order) childCollectionsMap) seed)))
      as [->|(g' & c' & (_ & info' & owner & Hin & Ht) & _ & Hcs & _)].
    2:{ exfalso. apply Itoa_inj in Hcs as <-. apply rangeMap_elem in Hin.
        apply (Hnt owner). congruence. }
    destruct (isAnchor (ParentID info)) eqn:Ha.
    + apply (applyGroupCollections_settles permissions groupNames g c info);
        [by apply rangeMap_elem| |done|done|done|done].
      intros info' Hin%rangeMap_elem. congruence.
    + destruct (derivedWrites_cell _ _ _ _ (FormatInt g) (Itoa c)
                  (applyGroupCollections_derivedWrites permissions groupNames
                     (groupCollectionGroups order) (groupIdsSetOf permissions)
                     (rangeMap (groupCollections order) childCollectionsMap) seed))
        as [->|(g' & c' & (_ & info' & Hin & Ha') & _ & Hcs & _)]; [done|].
      exfalso. apply Itoa_inj in Hcs as <-. apply rangeMap_elem in Hin. congruence.
Qed.

Lemma ownershipOf_order (order order' : Schedule) :
  uniqueOwners permissions childCollectionsMap groupNames →
  ownershipOf permissions childCollectionsMap groupNames order
  = ownershipOf permissions childCollectionsMap groupNames order'.
Proof.
  intros Hu.
  assert (∀ (o1 o2 : Schedule) c g,
    ownershipOf permissions childCollectionsMap groupNames o1 !! c = Some g →
    ownershipOf permissions childCollectionsMap groupNames o2 !! c = Some g) as Hone.
  { intros o1 o2 c g Ho. unfold ownershipOf in *.
    pose proof Ho as (info & Hin & Ha & Hg & Hm)%resolveOwnership_sound.
    apply rangeMap_elem in Hin.
    destruct (resolveOwnership groupNames (ownershipGroups o2) (groupIdsSetOf permissions)
                (rangeMap (ownershipCollections o2) childCollectionsMap) !! c)
      as [g'|] eqn:Ho2.
    - pose proof Ho2 as (info' & Hin' & Ha' & Hg' & Hm')%resolveOwnership_sound.
      apply rangeMap_elem in Hin'. assert (info' = info) as -> by congruence.
      f_equal. by apply (Hu c info).
    - exfalso. assert (is_Some (@None Z)) as [? ?]; [|done]. rewrite <- Ho2.
      apply resolveOwnership_is_Some. exists info.
      split; [by apply rangeMap_elem|]. eauto. }
  apply map_eq. intros c. apply option_eq. intros g. split; apply Hone.
Qed.

Lemma applyChildCollections_noEmptyGroup (order : Schedule) seed :
  seedGroups ∅ permissions = Ok seed →
  noEmptyGroup (applyChildCollections permissions childCollectionsMap groupNames order seed).
Proof.
  intros Hs. pose proof (seedGroups_spec _ _ _ Hs) as (_ & _ & _ & _ & Hdom & Hne).
  eapply derivedWrites_noEmptyGroup; [apply applyChildCollections_derivedWrites| |].
  - intros g c (p & Hp & _ & <-)%collectGroupIds_spec. apply Hdom. right. by exists p.
  - apply Hne. intros gs m. by rewrite lookup_empty.
Qed.

Lemma applyChildCollections_order (order order' : Schedule) seed :
  uniqueOwners permissions childCollectionsMap groupNames →
  seedGroups ∅ permissions = Ok seed →
  applyChildCollections permissions childCollectionsMap groupNames order seed
  = applyChildCollections permissions childCollectionsMap groupNames order' seed.
Proof.
  intros Hu Hs.
  assert (∀ (o1 o2 : Schedule) gs cs,
    cell (applyChildCollections permissions childCollectionsMap groupNames o1 seed) gs cs
    ≠ cell seed gs cs →
    cell (applyChildCollections permissions childCollectionsMap groupNames o1 seed) gs cs
    = cell (applyChildCollections permissions childCollectionsMap groupNames o2 seed) gs cs)
    as Hchanged.
  { intros o1 o2 gs cs Hne.
    destruct (derivedWrites_cell _ _ _ _ gs cs
                (applyChildCollections_derivedWrites_precise permissions childCollectionsMap
                   groupNames o1 seed))
      as [?|(g & c & Hallowed & -> & -> & Hex & _)]; [done|].
    assert (g ∈ groupIdsSetOf permissions ∧ ∃ info, childCollectionsMap !! c = Some info)
      as [Hg [info Hc]].
    { destruct Hallowed as [[Hg (info & Hin%rangeMap_elem & _)]
                           |[Hg (info & owner & Hin%rangeMap_elem & _)]]; eauto. }
    destruct (applyChildCollections_cell o1 seed g c info Hs Hc Hg Hex) as [Ht1 Hn1].
    destruct (applyChildCollections_cell o2 seed g c info Hs Hc Hg Hex) as [Ht2 Hn2].
    rewrite (ownershipOf_order o2 o1 Hu) in Ht2, Hn2.
    destruct (recursiveEntry_cases permissions
                (ownershipOf permissions childCollectionsMap groupNames o1)
                (fun _ => []) ∅ ∅ c info) as [[_ Hnone]|(owner & Ht & _)].
    - rewrite Hn1, Hn2; [done| |]; intros owner Ht; apply Hnone; eauto.
    - by rewrite (Ht1 owner Ht), (Ht2 owner Ht). }
  apply graph_eq; [by apply applyChildCollections_noEmptyGroup..|].
  intros gs cs.
  destruct (decide (cell (applyChildCollections permissions childCollectionsMap groupNames
                            order seed) gs cs = cell seed gs cs)) as [Heq|Hne];
    [|by apply Hchanged].
  destruct (decide (cell (applyChildCollections permissions childCollectionsMap groupNames
                            order' seed) gs cs = cell seed gs cs)) as [Heq'|Hne'];
    [congruence|].
  symmetry. by apply Hchanged.
Qed.

End ScheduleIndependence.

(** X22. When the result does not depend on Go's map iteration order.  If
    no two groups of the plan have names matching the name of the same
    direct child of Public or Draft, the expanded graph is the same for
    every order in which the three loops visit the collections and the
    groups. *)
Theorem expand_schedule_independent `{Unicode} (permissions : list CollectionPermission)
    (childCollectionsMap : gmap Z CollectionInfo) (groupNames : gmap Z string)
    (order order' : Schedule) (applyChildPermissions : bool) :
  uniqueOwners permissions childCollectionsMap groupNames →
  expand permissions childCollectionsMap groupNames order applyChildPermissions
  = expand permissions childCollectionsMap groupNames order' applyChildPermissions.
Proof.
  intros Hu. unfold expand.
  destruct (seedGroups ∅ permissions) as [seed|] eqn:Hs; [|done].
  destruct applyChildPermissions; [|done].
  f_equal. by apply applyChildCollections_order.
Qed.

Lemma expand_schedule_independent_witness :
  let permissions := [Scenario.edge 7 "root" "read"; Scenario.edge 8 "root" "read"] in
  let reversed : Schedule :=
    {| ownershipCollections := [60; 16]; ownershipGroups := fun _ => [8; 7];
       groupCollections := [60; 16]; groupCollectionGroups := fun _ => [8; 7];
       recursiveCollections := [60; 16]; recursiveGroups := fun _ => [8; 7] |} in
  @expand ascii_unicode permissions Scenario.tree Scenario.names Scenario.order true
  = @expand ascii_unicode permissions Scenario.tree Scenario.names reversed true.
Proof.
  intros permissions reversed.
  apply (@expand_schedule_independent ascii_unicode permissions Scenario.tree Scenario.names
           Scenario.order reversed true).
  assert (∀ g, g ∈ groupIdsSetOf permissions → g = 7 ∨ g = 8) as Hgroups.
  { intros g (p & Hp & _ & <-)%collectGroupIds_spec.
    apply elem_of_cons in Hp as [->|Hp]; [by left|].
    apply list_elem_of_singleton in Hp as ->. by right. }
  intros c info g1 g2 Hc Ha Hg1 Hg2 Hm1 Hm2.
  assert (info = {| ID := 16; ParentID := 5; Name := "Analytics"; Location := "/5/" |})
    as ->.
  { apply elem_of_map_to_list in Hc.
    assert (map_to_list Scenario.tree
            = [(60, {| ID := 60; ParentID := 16; Name := "Reports"; Location := "/5/16/" |});
               (16, {| ID := 16; ParentID := 5; Name := "Analytics"; Location := "/5/" |})])
      as Heq by (by vm_compute).
    rewrite Heq in Hc. apply elem_of_cons in Hc as [[= -> ->]|Hc]; [discriminate Ha|].
    apply list_elem_of_singleton in Hc as [= -> ->]. reflexivity. }
  destruct (Hgroups g1 Hg1) as [->| ->], (Hgroups g2 Hg2) as [->| ->];
    first [reflexivity | discriminate Hm1 | discriminate Hm2].
Defined.

(** ** Writes, in every outcome *)

Lemma build_then_write `{Unicode} (client : Client) (order : Schedule) data state
    (k : metabase.CollectionPermissionsGraph → CollectionGraphResourceModel)
    (before trace : list Request) reads0 :
  readsOnly reads0 → trace = before ++ reads0 →
  oneWriteAtEnd before
    ((let* body := makeCollectionPermissionsGraphFromModel data state (Some client) order in
      let* updateResp := send (ReplaceCollectionPermissionsGraph body)
                              (fun trace => replaceGraph client trace body)
                              "update collection graph" in
      ret (k updateResp)) trace).2.
Proof.
  intros Hreads0 ->. unfold bind, send, ret.
  destruct (makeGraph_trace data state (Some client) order (before ++ reads0))
    as (reads & Hreads & Htrace & _).
  destruct (makeCollectionPermissionsGraphFromModel data state (Some client) order
              (before ++ reads0)) as [[body|s d] t1]; simpl in Htrace; subst t1.
  - exists (reads0 ++ reads). split; [by apply Forall_app|]. right. exists body.
    destruct (replaceGraph client ((before ++ reads0) ++ reads) body); simpl;
      by rewrite <- !app_assoc.
  - exists (reads0 ++ reads). split; [by apply Forall_app|]. left. simpl.
    by rewrite <- app_assoc.
Qed.

(** X23. Writes, in every outcome.  Whatever the server answers and whether
    the operation succeeds or fails, Create and Update send reads followed
    by at most one write, and the write, when there is one, is the last
    request of the operation; Read sends reads only. *)
Theorem writes_only_last `{Unicode} (client : Client) (order : Schedule)
    (plan state : CollectionGraphResourceModel) (trace : list Request) :
  oneWriteAtEnd trace (Create client order plan trace).2
  ∧ oneWriteAtEnd trace (Update client order plan state trace).2
  ∧ ∃ reads, readsOnly reads ∧ (Read client state trace).2 = trace ++ reads.
Proof.
  split_and!.
  - unfold Create. unfold bind at 1. unfold send at 1.
    destruct (getGraph client trace) as [live|].
    + apply build_then_write with (reads0 := [GetCollectionPermissionsGraph]);
        [by repeat constructor|done].
    + exists [GetCollectionPermissionsGraph]. split; [by repeat constructor|by left].
  - unfold Update. destruct (_ || _).
    + apply build_then_write with (reads0 := []); [constructor|by rewrite app_nil_r].
    + exists []. split; [constructor|left]. simpl. by rewrite app_nil_r.
  - unfold Read, fetchChildCollections, bind, send, ret.
    destruct (listCollections client trace) as [listing|]; simpl.
    + exists [ListCollections; GetCollectionPermissionsGraph].
      split; [by repeat constructor|].
      destruct (getGraph client (trace ++ [ListCollections])); simpl;
        by rewrite <- app_assoc.
    + exists [ListCollections]. split; [by repeat constructor|done].
Qed.
